(** * The order book engine of the exchange simulation

    A shallow embedding of [OrderBook.cpp] (with the helpers it uses from
    [OrderBookEntry.h], [Candlestick.h] and the [CSVReader] part of
    [OrderBook.h]), of [CSVReader] and [Wallet] (both in [OrderBook.h]) and of
    the simulation of [MerkelMain.cpp], and the properties of the order
    store, the matching engine, the series of the charts, the reader of the
    data, the wallet and the steps of the simulation.

    Conventions.
    - [std::vector<T>] is [list T]; [v[i]] is [v !! i]; an assignment through
      a reference into a vector is [<[i := x]> v].
    - [std::string] is [string]; [<] on strings is [String.ltb], the
      lexicographic order on unsigned characters.
    - [double] is the carrier of an [Arith] structure.  [binary64] is the
      arithmetic the program runs on (IEEE 754 binary64, Rocq's primitive
      floats); [exact] is the same program read over the rationals, which is
      what statements "without rounding" are about.
    - [std::sort] is a member of the class [StdSort]: any function that
      meets the contract the C++ standard gives for it.  The member that the
      program gets from GCC is [libstdcxx_StdSort], the sort of the GNU C++
      library.
    - [CSVReader::readCSV] (file input) is a member of the class [Files].
      Where the reader itself is the subject, the lines of the files are a
      member of the class [Disk], and [std::stod] and
      [OrderBookEntry::stringToOrderBookType] members of the class [Parse].
    - [int] and [size_t] are [Z]; the conversions between them and the
      operations that overflow are written out.
    - The parameters [product] and [timestamp] of the member functions are
      written [product'] and [timestamp'], and the fields of [Candlestick]
      carry the prefix [c_]: the plain names are the fields of
      [OrderBookEntry].

    The first part of the file has the definitions: the program, then the
    vocabulary of the statements and some concrete stores.  The second part
    has the proofs. *)

From Stdlib Require Import Floats QArith Qminmax Lqa Ascii.
From stdpp Require Import list sets sorting strings.

Local Open Scope string_scope.
Local Open Scope list_scope.

(** ** Arithmetic on [double] *)

Class Arith := {
  num : Type;
  num_zero : num;
  num_add : num → num → num;
  num_sub : num → num → num;
  num_mul : num → num → num;
  num_div : num → num → num;
  num_eqb : num → num → bool;     (* a == b *)
  num_ltb : num → num → bool;     (* a <  b *)
  num_leb : num → num → bool;     (* a <= b *)
  (* a proper number (not a NaN) *)
  num_ok : num → Prop;
}.

Declare Scope num_scope.
Delimit Scope num_scope with num.
Infix "+" := num_add : num_scope.
Infix "-" := num_sub : num_scope.
Infix "*" := num_mul : num_scope.
Infix "/" := num_div : num_scope.
Infix "==" := num_eqb (at level 70) : num_scope.
Infix "<" := num_ltb : num_scope.
Infix "<=" := num_leb : num_scope.
Notation "a > b" := (num_ltb b a) : num_scope.
Notation "a >= b" := (num_leb b a) : num_scope.

(** IEEE 754 binary64: the [double] of the program. *)
Definition binary64 : Arith := {|
  num := float;
  num_zero := PrimFloat.zero;
  num_add := PrimFloat.add;
  num_sub := PrimFloat.sub;
  num_mul := PrimFloat.mul;
  num_div := PrimFloat.div;
  num_eqb := PrimFloat.eqb;
  num_ltb := PrimFloat.ltb;
  num_leb := PrimFloat.leb;
  num_ok := λ x, PrimFloat.is_nan x = false;
|}.

(** Rationals: the program without rounding. *)
Definition exact : Arith := {|
  num := Q;
  num_zero := 0%Q;
  num_add := Qplus;
  num_sub := Qminus;
  num_mul := Qmult;
  num_div := Qdiv;
  num_eqb := Qeq_bool;
  num_ltb := λ a b, negb (Qle_bool b a);
  num_leb := Qle_bool;
  num_ok := λ _, True;
|}.

(** What the comparisons of an arithmetic have to satisfy for the
    order-theoretic statements below.  NaN compares false with everything,
    so the laws that need comparability ask for proper numbers. *)
Class OrderLaws (Ar : Arith) : Prop := {
  num_ltb_irrefl (x : num) : (x < x)%num = false;
  num_ltb_trans (x y z : num) :
    (x < y)%num = true → (y < z)%num = true → (x < z)%num = true;
  num_ltb_negtrans (x y z : num) :
    num_ok x → num_ok y → num_ok z →
    (x < y)%num = false → (y < z)%num = false → (x < z)%num = false;
  num_leb_ltb (x y : num) :
    num_ok x → num_ok y → (x <= y)%num = negb (y < x)%num;
  num_leb_not_gtb (x y : num) :
    (x <= y)%num = true → (y < x)%num = false;
}.

(** ** Order book entries ([OrderBookEntry.h]) *)

Inductive OrderBookType := bid | ask | unknown | asksale | bidsale.

Global Instance OrderBookType_eq_dec : EqDecision OrderBookType.
Proof. solve_decision. Defined.

Section Entries.
Context {Ar : Arith}.

Record OrderBookEntry := mkOBE {
  price : num;
  amount : num;
  timestamp : string;
  product : string;
  orderType : OrderBookType;
  username : string;
}.

(** The five-argument call of the constructor: [username] defaults to
    ["dataset"]. *)
Definition OBE (price amount : num) (timestamp product : string)
    (orderType : OrderBookType) : OrderBookEntry :=
  mkOBE price amount timestamp product orderType "dataset".

Definition set_amount (e : OrderBookEntry) (a : num) : OrderBookEntry :=
  mkOBE (price e) a (timestamp e) (product e) (orderType e) (username e).

Definition set_user_type (e : OrderBookEntry) (u : string)
    (t : OrderBookType) : OrderBookEntry :=
  mkOBE (price e) (amount e) (timestamp e) (product e) t u.

Definition compareByTimestamp (e1 e2 : OrderBookEntry) : bool :=
  String.ltb (timestamp e1) (timestamp e2).

Definition compareByPriceAsc (e1 e2 : OrderBookEntry) : bool :=
  (price e1 < price e2)%num.

Definition compareByPriceDesc (e1 e2 : OrderBookEntry) : bool :=
  (price e1 > price e2)%num.

End Entries.

Arguments OrderBookEntry : clear implicits.

(** ** [std::sort] *)

(** The requirement on the comparison: a strict weak ordering, here on the
    elements of the range that is sorted.  The third clause says that "not
    less" is transitive, which for an irreflexive and transitive comparison
    is the same as the transitivity of equivalence. *)
Definition strict_weak_order_on {A} (comp : A → A → bool) (l : list A) : Prop :=
  (∀ x, x ∈ l → comp x x = false) ∧
  (∀ x y z, x ∈ l → y ∈ l → z ∈ l →
     comp x y = true → comp y z = true → comp x z = true) ∧
  (∀ x y z, x ∈ l → y ∈ l → z ∈ l →
     comp x y = false → comp y z = false → comp x z = false).

(** [is_sorted]: no element is smaller than one before it. *)
Definition sorted_by {A} (comp : A → A → bool) : list A → Prop :=
  StronglySorted (λ x y, comp y x = false).

(** The contract of [std::sort]: given a strict weak ordering the result is a
    rearrangement of the range that is sorted.  The order of equivalent
    elements is not part of it. *)
Class StdSort := {
  std_sort : ∀ {A}, (A → A → bool) → list A → list A;
  std_sort_perm : ∀ A (comp : A → A → bool) (l : list A),
    strict_weak_order_on comp l → std_sort comp l ≡ₚ l;
  std_sort_sorted : ∀ A (comp : A → A → bool) (l : list A),
    strict_weak_order_on comp l → sorted_by comp (std_sort comp l);
}.

(** Insertion sort, which is what the usual implementations of [std::sort]
    run on short ranges. *)
Fixpoint linear_insert {A} (comp : A → A → bool) (x : A) (l : list A) : list A :=
  match l with
  | [] => [x]
  | y :: l' => if comp y x then y :: linear_insert comp x l' else x :: l
  end.

Definition insertion_sort {A} (comp : A → A → bool) (l : list A) : list A :=
  foldr (linear_insert comp) [] l.

(** ** What a call can do *)

(** A call returns, throws, or has no defined behaviour (reading [v[0]] of an
    empty vector). *)
Inductive outcome (A : Type) : Type :=
  | Returns (a : A)
  | Throws (what : string)
  | Undefined.
Arguments Returns {A} a.
Arguments Throws {A} what.
Arguments Undefined {A}.

Global Instance outcome_bind : MBind outcome := λ A B k c,
  match c with
  | Returns a => k a
  | Throws w => Throws w
  | Undefined => Undefined
  end.

(** A [for] over a range whose body can fail. *)
Fixpoint for_each {A S} (body : S → A → outcome S) (s : S) (l : list A) : outcome S :=
  match l with
  | [] => Returns s
  | x :: l' => s' ← body s x; for_each body s' l'
  end.

(** ** [std::sort] in the GNU C++ library *)

(** [std::sort] as the program gets it from GCC: the introsort of libstdc++
    (GCC 12), from [bits/stl_algo.h] and [bits/stl_heap.h].  A range of more than 16
    elements is partitioned around the median of three of its elements, by
    heap sort once the depth limit is used up, and one insertion sort over
    the whole range ends the call.

    The range is the whole vector and an iterator is an index into it.  The
    loops that the library calls unguarded have no test for the end of the
    range: they rely on the comparison to stop inside it, and where they
    leave the vector the call has no defined behaviour.  Differences of
    iterators are natural numbers: in the calls made here none is negative,
    [len] is at least 1 in [__adjust_heap], and [(holeIndex - 1) / 2] is 0 at
    the index 0 in the arithmetic of C++ as well. *)
Module libstdcxx.
Section Sort.
Context {A : Type} (comp : A → A → bool).
Local Open Scope nat_scope.

Definition S_threshold : nat := 16.

(** [*i] and [*i = x]. *)
Definition deref (v : list A) (i : nat) : outcome A :=
  match v !! i with Some x => Returns x | None => Undefined end.

Definition assign (v : list A) (i : nat) (x : A) : outcome (list A) :=
  match v !! i with Some _ => Returns (<[i := x]> v) | None => Undefined end.

(** [comp(a, b)] on iterators. *)
Definition comp_iter (v : list A) (a b : nat) : outcome bool :=
  x ← deref v a; y ← deref v b; Returns (comp x y).

Definition iter_swap (v : list A) (a b : nat) : outcome (list A) :=
  x ← deref v a; y ← deref v b;
  v ← assign v a y; assign v b x.

Definition move_median_to_first (v : list A) (result a b c : nat)
    : outcome (list A) :=
  ab ← comp_iter v a b;
  if (ab : bool) then
    bc ← comp_iter v b c;
    if (bc : bool) then iter_swap v result b
    else
      ac ← comp_iter v a c;
      if (ac : bool) then iter_swap v result c else iter_swap v result a
  else
    ac ← comp_iter v a c;
    if (ac : bool) then iter_swap v result a
    else
      bc ← comp_iter v b c;
      if (bc : bool) then iter_swap v result c else iter_swap v result b.

(** [while (comp(first, pivot)) ++first;] over the elements from [first]
    on: the index it stops at. *)
Fixpoint scan_up (p : A) (first : nat) (rest : list A) : outcome nat :=
  match rest with
  | [] => Undefined
  | x :: rest' => if comp x p then scan_up p (S first) rest' else Returns first
  end.

(** [while (comp(pivot, last)) --last;]. *)
Fixpoint scan_down (p : A) (v : list A) (last : nat) : outcome nat :=
  match last with
  | 0 => y ← deref v 0; if comp p y then Undefined else Returns 0
  | S last' => y ← deref v last; if comp p y then scan_down p v last' else Returns last
  end.

(** [__unguarded_partition]: [last] goes down in every round of the outer
    loop, so [n] rounds are enough when [last < n]. *)
Fixpoint unguarded_partition_loop (n : nat) (v : list A) (first last pivot : nat)
    : outcome (nat * list A) :=
  match n with
  | 0 => Undefined
  | S n' =>
      p ← deref v pivot;
      first ← scan_up p first (drop first v);
      match last with
      | 0 => Undefined
      | S last =>
          last ← scan_down p v last;
          if negb (first <? last) then Returns (first, v)
          else
            v ← iter_swap v first last;
            unguarded_partition_loop n' v (S first) last pivot
      end
  end.

Definition unguarded_partition (v : list A) (first last pivot : nat)
    : outcome (nat * list A) :=
  unguarded_partition_loop (S last) v first last pivot.

Definition unguarded_partition_pivot (v : list A) (first last : nat)
    : outcome (nat * list A) :=
  let mid := first + (last - first) / 2 in
  v ← move_median_to_first v first (first + 1) mid (last - 1);
  unguarded_partition v (first + 1) last first.

(** [__push_heap]: [holeIndex] goes down in every round, so [n] rounds are
    enough when [holeIndex < n]. *)
Fixpoint push_heap_loop (n : nat) (v : list A) (first holeIndex topIndex : nat)
    (value : A) : outcome (list A) :=
  match n with
  | 0 => Undefined
  | S n' =>
      let parent := (holeIndex - 1) / 2 in
      if topIndex <? holeIndex then
        y ← deref v (first + parent);
        if comp y value then
          v ← assign v (first + holeIndex) y;
          push_heap_loop n' v first parent topIndex value
        else assign v (first + holeIndex) value
      else assign v (first + holeIndex) value
  end.

Definition push_heap (v : list A) (first holeIndex topIndex : nat) (value : A)
    : outcome (list A) :=
  push_heap_loop (S holeIndex) v first holeIndex topIndex value.

(** The first loop of [__adjust_heap]; the state is
    [(v, holeIndex, secondChild)].  [secondChild] goes up in every round, so
    [n] rounds are enough when [len < n]. *)
Fixpoint adjust_heap_loop (n : nat) (v : list A) (first len holeIndex secondChild : nat)
    : outcome (list A * nat * nat) :=
  match n with
  | 0 => Undefined
  | S n' =>
      if secondChild <? (len - 1) / 2 then
        let secondChild := 2 * (secondChild + 1) in
        c ← comp_iter v (first + secondChild) (first + (secondChild - 1));
        let secondChild := if (c : bool) then secondChild - 1 else secondChild in
        y ← deref v (first + secondChild);
        v ← assign v (first + holeIndex) y;
        adjust_heap_loop n' v first len secondChild secondChild
      else Returns (v, holeIndex, secondChild)
  end.

Definition adjust_heap (v : list A) (first holeIndex len : nat) (value : A)
    : outcome (list A) :=
  let topIndex := holeIndex in
  '(v, holeIndex, secondChild) ←
    adjust_heap_loop (S len) v first len holeIndex holeIndex;
  '(v, holeIndex) ←
    (if (len mod 2 =? 0) && (secondChild =? (len - 2) / 2) then
       let secondChild := 2 * (secondChild + 1) in
       y ← deref v (first + (secondChild - 1));
       v ← assign v (first + holeIndex) y;
       Returns (v, secondChild - 1)
     else Returns (v, holeIndex));
  push_heap v first holeIndex topIndex value.

Definition pop_heap (v : list A) (first last result : nat) : outcome (list A) :=
  value ← deref v result;
  x ← deref v first;
  v ← assign v result x;
  adjust_heap v first 0 (last - first) value.

(** The loop of [__make_heap], from [parent] down to 0. *)
Fixpoint make_heap_loop (v : list A) (first len parent : nat) : outcome (list A) :=
  match parent with
  | 0 =>
      value ← deref v first;
      adjust_heap v first 0 len value
  | S parent' =>
      value ← deref v (first + parent);
      v ← adjust_heap v first parent len value;
      make_heap_loop v first len parent'
  end.

Definition make_heap (v : list A) (first last : nat) : outcome (list A) :=
  if last - first <? 2 then Returns v
  else
    let len := last - first in
    make_heap_loop v first len ((len - 2) / 2).

(** [__sort_heap], by the length [last - first] of the range. *)
Fixpoint sort_heap_loop (len : nat) (v : list A) (first : nat) : outcome (list A) :=
  match len with
  | 0 => Returns v
  | S len' =>
      if 1 <? len then
        let last := first + len' in
        v ← pop_heap v first last last;
        sort_heap_loop len' v first
      else Returns v
  end.

Definition sort_heap (v : list A) (first last : nat) : outcome (list A) :=
  sort_heap_loop (last - first) v first.

Definition heap_select (v : list A) (first middle last : nat) : outcome (list A) :=
  v ← make_heap v first middle;
  for_each (λ v i,
              c ← comp_iter v i first;
              if (c : bool) then pop_heap v first middle i else Returns v)
           v (seq middle (last - middle)).

Definition partial_sort (v : list A) (first middle last : nat) : outcome (list A) :=
  v ← heap_select v first middle last;
  sort_heap v first middle.

(** The loop of [__unguarded_linear_insert], [val] taken out of [*last]. *)
Fixpoint unguarded_linear_insert_loop (val : A) (v : list A) (last : nat)
    : outcome (list A) :=
  match last with
  | 0 => Undefined
  | S next =>
      y ← deref v next;
      if comp val y then
        v ← assign v last y;
        unguarded_linear_insert_loop val v next
      else assign v last val
  end.

Definition unguarded_linear_insert (v : list A) (last : nat) : outcome (list A) :=
  val ← deref v last;
  unguarded_linear_insert_loop val v last.

(** One round of the loop of [__insertion_sort]; [std::move_backward] takes
    the elements from [first] to [i] one place up. *)
Definition insertion_sort_round (first : nat) (v : list A) (i : nat)
    : outcome (list A) :=
  c ← comp_iter v i first;
  if (c : bool) then
    val ← deref v i;
    Returns (take first v ++ val :: take (i - first) (drop first v) ++ drop (S i) v)
  else unguarded_linear_insert v i.

Definition insertion_sort (v : list A) (first last : nat) : outcome (list A) :=
  if first =? last then Returns v
  else for_each (insertion_sort_round first) v (seq (first + 1) (last - (first + 1))).

Definition unguarded_insertion_sort (v : list A) (first last : nat)
    : outcome (list A) :=
  for_each unguarded_linear_insert v (seq first (last - first)).

Definition final_insertion_sort (v : list A) (first last : nat) : outcome (list A) :=
  if S_threshold <? last - first then
    v ← insertion_sort v first (first + S_threshold);
    unguarded_insertion_sort v (first + S_threshold) last
  else insertion_sort v first last.

Fixpoint introsort_loop (depth_limit : nat) (v : list A) (first last : nat)
    : outcome (list A) :=
  if S_threshold <? last - first then
    match depth_limit with
    | 0 => partial_sort v first last last
    | S depth_limit =>
        '(cut, v) ← unguarded_partition_pivot v first last;
        v ← introsort_loop depth_limit v cut last;
        introsort_loop depth_limit v first cut
    end
  else Returns v.

(** [std::__sort(v.begin(), v.end(), comp)]; [std::__lg] is the binary
    logarithm, rounded down. *)
Definition sort (v : list A) : outcome (list A) :=
  let first := 0 in
  let last := length v in
  if first =? last then Returns v
  else
    v ← introsort_loop (Nat.log2 (last - first) * 2) v first last;
    final_insertion_sort v first last.

End Sort.
End libstdcxx.

(** The result of [std::sort] in the GNU library, as a function.  On a strict
    weak ordering the call returns ([libstdcxx_sort_returns]) and the function
    is its result ([libstdcxx_sort_run]).  Where the call has no defined
    behaviour the function takes the value of insertion sort. *)
Definition libstdcxx_sort {A} (comp : A → A → bool) (l : list A) : list A :=
  match libstdcxx.sort comp l with
  | Returns r => r
  | _ => insertion_sort comp l
  end.

(** ** The vocabulary of the proofs about the sort of the library *)

Section SortVocabulary.
Context {A : Type} (comp : A → A → bool).
Implicit Types v : list A.
Local Open Scope nat_scope.

(** The vector holds elements of [l0] only. *)
Definition within (l0 : list A) v : Prop := ∀ x, x ∈ v → x ∈ l0.

(** The two vectors agree outside the range. *)
Definition same_outside (first last : nat) v v' : Prop :=
  length v' = length v ∧ ∀ i, i < first ∨ last ≤ i → v' !! i = v !! i.

(** The elements of the range. *)
Definition seg (first last : nat) v : list A := take (last - first) (drop first v).

(** The state of the insertion loops before the round of [i]: the elements
    before [i] are in order. *)
Definition sorted_up_to (v0 : list A) (i : nat) v : Prop :=
  v ≡ₚ v0 ∧ sorted_by comp (take i v).

(** The state of the insertion loops before the round of [i], on the vector
    [w] that the introsort loop has left: the elements from [i] on are where
    they were. *)
Definition inserted_up_to (w : list A) (i : nat) v : Prop :=
  v ≡ₚ w ∧ same_outside 0 i w v.

(** In the range of [len] elements from [first], seen as a binary tree, no
    element whose parent is at [k] or after it is greater than its parent. *)
Definition heap_from (first len k : nat) v : Prop :=
  ∀ i x y, 0 < i < len → k ≤ (i - 1) / 2 →
    v !! (first + (i - 1) / 2) = Some x → v !! (first + i) = Some y →
    comp x y = false.

(** The same, but for the elements under [k] as long as the hole is at
    [k]. *)
Definition heap_but (first len k h : nat) v : Prop :=
  ∀ i x y, 0 < i < len → k ≤ (i - 1) / 2 → (h = k → (i - 1) / 2 ≠ k) →
    v !! (first + (i - 1) / 2) = Some x → v !! (first + i) = Some y →
    comp x y = false.

(** The index is [k] or under it in the tree. *)
Inductive descends (k : nat) : nat → Prop :=
  | descends_refl : descends k k
  | descends_left h : descends k h → descends k (2 * h + 1)
  | descends_right h : descends k h → descends k (2 * h + 2).

(** The state of [__sort_heap] with [m] elements left in the heap, in a
    range of [len] elements: the elements after the heap are in order, and
    none of them is less than an element of the heap. *)
Definition sorted_tail (first m len : nat) v : Prop :=
  (∀ i j x y, m ≤ i < j → j < len →
     v !! (first + i) = Some x → v !! (first + j) = Some y → comp y x = false) ∧
  (∀ e j z, e ∈ seg first (first + m) v → m ≤ j < len →
     v !! (first + j) = Some z → comp z e = false).

(** What the insertion sort at the end needs of the range: from the
    seventeenth place on, every element has before it an element that is not
    greater. *)
Definition guarded (first last : nat) v : Prop :=
  ∀ i x, first + 16 ≤ i < last → v !! i = Some x →
    ∃ j y, first ≤ j < i ∧ v !! j = Some y ∧ comp x y = false.

End SortVocabulary.

(** ** [std::map] and [std::set] with [std::string] keys *)

(** The entries in ascending key order, which is the order of iteration.
    [map_assign k v m] is [m[k] = v]. *)
Fixpoint map_assign {V} (k : string) (v : V) (m : list (string * V)) : list (string * V) :=
  match m with
  | [] => [(k, v)]
  | (k', v') :: m' =>
      if String.ltb k k' then (k, v) :: m
      else if String.ltb k' k then (k', v') :: map_assign k v m'
      else (k', v) :: m'
  end.

(** [s.insert(k)]. *)
Fixpoint set_insert (k : string) (s : list string) : list string :=
  match s with
  | [] => [k]
  | k' :: s' =>
      if String.ltb k k' then k :: s
      else if String.ltb k' k then k' :: set_insert k s'
      else s
  end.

(** ** The order book ([OrderBook.cpp]) *)

Record Candlestick {Ar : Arith} := mkCandlestick {
  c_timestamp : string;
  c_open : num;
  c_high : num;
  c_low : num;
  c_close : num;
}.
Arguments Candlestick : clear implicits.

(** [CSVReader::readCSV]: the entries read from a file. *)
Class Files (Ar : Arith) := { readCSV : string → list (OrderBookEntry Ar) }.

Section OrderBook.
Context {Ar : Arith} {Sort : StdSort} {Fs : Files Ar}.

Local Abbreviation entry := (OrderBookEntry Ar).

(** The object: its one field. *)
Record OrderBook := mkOrderBook { orders : list entry }.

(** The constructor. *)
Definition OrderBook_new (file1 file2 : string) : OrderBook :=
  let march := readCSV file1 in
  let june := readCSV file2 in
  let orders := march ++ june in
  mkOrderBook
    (std_sort (λ a b, String.ltb (timestamp a) (timestamp b)) orders).

Definition getKnownProducts (ob : OrderBook) : list string :=
  let prodMap := foldl (λ m e, map_assign (product e) true m) [] (orders ob) in
  (fst <$> prodMap).

Definition getOrders (ob : OrderBook) (type : OrderBookType)
    (product' timestamp' : string) : list entry :=
  List.filter
    (λ e, bool_decide (orderType e = type)
          && String.eqb (product e) product'
          && String.eqb (timestamp e) timestamp')
    (orders ob).

Definition getHighPrice (orders : list entry) : outcome num :=
  match orders !! 0 with
  | None => Undefined
  | Some e0 =>
      Returns (foldl (λ maxPrice e,
                 if (price e > maxPrice)%num then price e else maxPrice)
               (price e0) orders)
  end.

Definition getLowPrice (orders : list entry) : outcome num :=
  match orders !! 0 with
  | None => Undefined
  | Some e0 =>
      Returns (foldl (λ minPrice e,
                 if (price e < minPrice)%num then price e else minPrice)
               (price e0) orders)
  end.

(** [CSVReader::getAllTimestamps]: the timestamps of the two data files,
    through a [std::set]. *)
Definition getAllTimestamps : list string :=
  let files := ["20200317.csv"; "20200601.csv"] in
  foldl (λ uniq filename,
           foldl (λ uniq e, set_insert (timestamp e) uniq) uniq (readCSV filename))
        [] files.

(** The sums of the inner loop of [getCandlestickData]: [(totVal, totAmt)]. *)
Definition totals (entries : list entry) : num * num :=
  foldl (λ '(totVal, totAmt) e,
           ((totVal + price e * amount e)%num, (totAmt + amount e)%num))
        (num_zero, num_zero) entries.

(** One round of the loop of [getCandlestickData]; the state is
    [(candles, prevClose)]. *)
Definition candleStep (ob : OrderBook) (side : OrderBookType) (product' : string)
    (st : list (Candlestick Ar) * num) (ts : string)
    : outcome (list (Candlestick Ar) * num) :=
  let '(candles, prevClose) := st in
  let entries := getOrders ob side product' ts in
  match entries with
  | [] => Returns (candles, prevClose)
  | _ :: _ =>
      high ← getHighPrice entries;
      low ← getLowPrice entries;
      let '(totVal, totAmt) := totals entries in
      let close := (totVal / totAmt)%num in
      let open := match candles with [] => close | _ :: _ => prevClose end in
      Returns (candles ++ [mkCandlestick Ar ts open high low close], close)
  end.

Definition getCandlestickData (ob : OrderBook) (side : OrderBookType)
    (product' : string) : outcome (list (Candlestick Ar)) :=
  let times := getAllTimestamps in
  st ← for_each (candleStep ob side product') ([], num_zero) times;
  Returns st.1.

Definition getEarliestTime (ob : OrderBook) : outcome string :=
  match orders ob !! 0 with
  | Some e => Returns (timestamp e)
  | None => Undefined
  end.

(** The search loop of [getNextTime]: the timestamp of the first entry after
    [timestamp'], the empty string when there is none. *)
Fixpoint firstAfter (timestamp' : string) (orders : list entry) : string :=
  match orders with
  | [] => ""
  | e :: rest =>
      if String.ltb timestamp' (timestamp e) then timestamp e
      else firstAfter timestamp' rest
  end.

Definition getNextTime (ob : OrderBook) (timestamp' : string) : outcome string :=
  let next_timestamp := firstAfter timestamp' (orders ob) in
  if String.eqb next_timestamp "" then
    match orders ob !! 0 with
    | Some e => Returns (timestamp e)
    | None => Undefined
    end
  else Returns next_timestamp.

Definition insertOrder (ob : OrderBook) (order : entry) : OrderBook :=
  mkOrderBook (std_sort compareByTimestamp (orders ob ++ [order])).

End OrderBook.

(** ** The matching engine ([OrderBook::matchAsksToBids]) *)

Section Matching.
Context {Ar : Arith} {Sort : StdSort}.

Local Abbreviation entry := (OrderBookEntry Ar).

(** The memory of one call: the field of the object and the local vectors.
    [getOrders] returns its result by value, so [f_asks] and [f_bids] are
    vectors of their own; the references [ask] and [bid] of the two loops
    point into them.  [f_matched] is not in the program: for every sale
    pushed it keeps the ask and the bid, as read, that the sale came from. *)
Record Frame := mkFrame {
  f_orders : list entry;
  f_asks : list entry;
  f_bids : list entry;
  f_sales : list entry;
  f_matched : list (entry * entry);
}.

Definition set_asks (f : Frame) (v : list entry) : Frame :=
  mkFrame (f_orders f) v (f_bids f) (f_sales f) (f_matched f).

Definition set_bids (f : Frame) (v : list entry) : Frame :=
  mkFrame (f_orders f) (f_asks f) v (f_sales f) (f_matched f).

(** [sales.push_back(sale)], for the match of [a] and [b]. *)
Definition push_sale (f : Frame) (sale a b : entry) : Frame :=
  mkFrame (f_orders f) (f_asks f) (f_bids f)
          (f_sales f ++ [sale]) (f_matched f ++ [(a, b)]).

(** The body of the inner loop, for [ask = asks[i]] and [bid = bids[j]].
    The boolean tells whether the body left the loop by [break]. *)
Definition matchBody (product' timestamp' : string) (i j : nat) (f : Frame)
    : Frame * bool :=
  match f_asks f !! i, f_bids f !! j with
  | Some a, Some b =>
      if (price b >= price a)%num then
        let sale := OBE (price a) num_zero timestamp' product' asksale in
        let sale :=
          if String.eqb (username b) "simuser"
          then set_user_type sale "simuser" bidsale else sale in
        let sale :=
          if String.eqb (username a) "simuser"
          then set_user_type sale "simuser" asksale else sale in
        if (amount b == amount a)%num then
          let sale := set_amount sale (amount a) in
          let f := push_sale f sale a b in
          let f := set_bids f (<[j := set_amount b num_zero]> (f_bids f)) in
          (f, true)
        else if (amount b > amount a)%num then
          let sale := set_amount sale (amount a) in
          let f := push_sale f sale a b in
          let f := set_bids f
                     (<[j := set_amount b (amount b - amount a)%num]> (f_bids f)) in
          (f, true)
        else if (amount b > num_zero)%num then
          let sale := set_amount sale (amount b) in
          let f := push_sale f sale a b in
          let f := set_asks f
                     (<[i := set_amount a (amount a - amount b)%num]> (f_asks f)) in
          let f := set_bids f (<[j := set_amount b num_zero]> (f_bids f)) in
          (f, false)
        else (f, false)
      else (f, false)
  | _, _ => (f, false)
  end.

(** [for (auto& bid : bids)], from index [j], [n] elements to go. *)
Fixpoint forBids (product' timestamp' : string) (i : nat) (n j : nat) (f : Frame)
    : Frame :=
  match n with
  | 0 => f
  | S n' =>
      let '(f', break) := matchBody product' timestamp' i j f in
      if break then f' else forBids product' timestamp' i n' (S j) f'
  end.

(** [for (auto& ask : asks)], from index [i], [n] elements to go. *)
Fixpoint forAsks (product' timestamp' : string) (n i : nat) (f : Frame) : Frame :=
  match n with
  | 0 => f
  | S n' =>
      let f' := forBids product' timestamp' i (length (f_bids f)) 0 f in
      forAsks product' timestamp' n' (S i) f'
  end.

(** The memory when the call returns. *)
Definition matchAsksToBids_frame (ob : OrderBook) (product' timestamp' : string)
    : Frame :=
  let asks := getOrders ob ask product' timestamp' in
  let bids := getOrders ob bid product' timestamp' in
  let f := mkFrame (orders ob) asks bids [] [] in
  match asks, bids with
  | [], _ | _, [] => f
  | _ :: _, _ :: _ =>
      let f := set_asks f (std_sort compareByPriceAsc (f_asks f)) in
      let f := set_bids f (std_sort compareByPriceDesc (f_bids f)) in
      forAsks product' timestamp' (length (f_asks f)) 0 f
  end.

(** The call: the sales returned and the object afterwards. *)
Definition matchAsksToBids (ob : OrderBook) (product' timestamp' : string)
    : list entry * OrderBook :=
  let f := matchAsksToBids_frame ob product' timestamp' in
  (f_sales f, mkOrderBook (f_orders f)).

End Matching.

(** ** More of the C++ library *)

(** [m.find(k)]: what [m.count(k)] and the reads of [m[k]] look up. *)
Fixpoint map_find {V} (k : string) (m : list (string * V)) : option V :=
  match m with
  | [] => None
  | (k', v) :: m' => if String.eqb k k' then Some v else map_find k m'
  end.

(** [v[i]]: outside the vector the behaviour is undefined. *)
Definition vector_at {A} (v : list A) (i : nat) : outcome A :=
  match v !! i with
  | Some x => Returns x
  | None => Undefined
  end.

(** [int] has 32 bits; an [int] operation whose result does not fit has no
    defined behaviour. *)
Definition INT_MAX : Z := 2147483647.
Definition INT_MIN : Z := -2147483648.

Definition int_result (z : Z) : outcome Z :=
  if ((INT_MIN <=? z) && (z <=? INT_MAX))%Z then Returns z else Undefined.

(** [size_t] has 64 bits.  The conversion of a [size_t] to [int] keeps the
    low 32 bits, the conversion of an [int] to [size_t] is modulo [2^64]. *)
Definition npos : Z := 2 ^ 64 - 1.
Definition to_int (z : Z) : Z := ((z + 2 ^ 31) mod 2 ^ 32 - 2 ^ 31)%Z.
Definition to_size_t (z : Z) : Z := (z mod 2 ^ 64)%Z.

Definition size (s : string) : Z := Z.of_nat (String.length s).

(** The position of the first character with [p]. *)
Fixpoint find_if (p : Ascii.ascii → bool) (l : list Ascii.ascii) : option nat :=
  match l with
  | [] => None
  | c :: l' => if p c then Some 0%nat else S <$> find_if p l'
  end.

Definition find_from (p : Ascii.ascii → bool) (s : string) (pos : Z) : Z :=
  if (size s <=? pos)%Z then npos
  else match find_if p (drop (Z.to_nat pos) (String.list_ascii_of_string s)) with
       | Some k => (pos + Z.of_nat k)%Z
       | None => npos
       end.

(** [s.find_first_of(c, pos)] and [s.find_first_not_of(c, pos)]. *)
Definition find_first_of (s : string) (c : Ascii.ascii) (pos : Z) : Z :=
  find_from (Ascii.eqb c) s pos.

Definition find_first_not_of (s : string) (c : Ascii.ascii) (pos : Z) : Z :=
  find_from (λ x, negb (Ascii.eqb c x)) s pos.

(** [s.substr(pos, n)]: it throws when [pos] is past the end, and stops at
    the end of [s]. *)
Definition substr (s : string) (pos n : Z) : outcome string :=
  if (size s <? pos)%Z then Throws "std::out_of_range"
  else Returns (String.string_of_list_ascii
                  (take (Z.to_nat (Z.min n (size s - pos)))
                        (drop (Z.to_nat pos) (String.list_ascii_of_string s)))).

(** What the program takes from [<cmath>] and from the conversions of
    numbers: [std::round], the conversion of a [size_t] to [double], the
    literal [1e6]. *)
Class MathLib (Ar : Arith) := {
  std_round : num → num;
  num_of_size : nat → num;
  num_1e6 : num;
}.

(** Text to values: [std::stod], which returns a number or throws
    ([std::invalid_argument], [std::out_of_range]), and
    [OrderBookEntry::stringToOrderBookType], whose source is not in the
    repository. *)
Class Parse (Ar : Arith) := {
  std_stod : string → outcome num;
  std_stod_defined : ∀ s, std_stod s ≠ Undefined;
  stringToOrderBookType : string → OrderBookType;
}.

(** The files: the lines [std::getline] reads from a file that opens. *)
Class Disk := { file_lines : string → option (list string) }.

(** ** The series of the charts ([OrderBook.cpp]) *)

Section Charts.
Context {Ar : Arith} {Fs : Files Ar}.
Local Abbreviation entry := (OrderBookEntry Ar).

Definition getVolumeData (ob : @OrderBook Ar) (side : OrderBookType)
    (product' : string) : list (string * num) :=
  let times := getAllTimestamps in
  foldl (λ volumeSeries ts,
           let entries := getOrders ob side product' ts in
           let totalAmt :=
             foldl (λ totalAmt e, (totalAmt + amount e)%num) num_zero entries in
           volumeSeries ++ [(ts, totalAmt)])
        [] times.

(** [counts[k]++] on a [std::map<std::string, int>]: a key that is not there
    starts at 0. *)
Definition map_increment (k : string) (counts : list (string * Z))
    : outcome (list (string * Z)) :=
  n ← int_result (default 0%Z (map_find k counts) + 1);
  Returns (map_assign k n counts).

Definition getTradesPerProduct (ob : @OrderBook Ar) : outcome (list (string * Z)) :=
  for_each (λ counts e, map_increment (product e) counts) [] (orders ob).

(** [pricesByMinute[minute].push_back(p)]. *)
Definition map_push_back {V} (k : string) (x : V) (m : list (string * list V))
    : list (string * list V) :=
  map_assign k (default [] (map_find k m) ++ [x]) m.

Definition getMeanPriceData {Ml : MathLib Ar} (ob : @OrderBook Ar)
    (type : OrderBookType) (product' : string) : outcome (list (string * num)) :=
  pricesByMinute ←
    for_each (λ pricesByMinute e,
                if bool_decide (orderType e = type) && String.eqb (product e) product'
                then
                  minute ← substr (timestamp e) 11 5;
                  Returns (map_push_back minute (price e) pricesByMinute)
                else Returns pricesByMinute)
             [] (orders ob);
  Returns
    (foldl (λ result '(minute, priceList),
              match priceList with
              | [] => result
              | _ :: _ =>
                  let sum := foldl (λ sum p, (sum + p)%num) num_zero priceList in
                  let avg := (sum / num_of_size (length priceList))%num in
                  let avg := (std_round (avg * num_1e6) / num_1e6)%num in
                  result ++ [(minute, avg)]
              end)
           [] pricesByMinute).

End Charts.

(** ** Reading the data ([CSVReader]) *)

Section CSVReader.
Context {Ar : Arith} {Ps : Parse Ar}.
Local Abbreviation entry := (OrderBookEntry Ar).

(** One round of the [do ... while] of [tokenise], for the values of
    [tokens] and [start] at its beginning: the values at its end, and whether
    the loop goes on.  [start] and [end] are [int]s; [end'] is [end]. *)
Definition tokenise_round (csvLine : string) (separator : Ascii.ascii)
    (tokens : list string) (start : Z) : outcome (list string * Z * bool) :=
  let end' := to_int (find_first_of csvLine separator (to_size_t start)) in
  if ((start =? to_int (size csvLine)) || (start =? end'))%Z
  then Returns (tokens, start, false)
  else
    token ←
      (if (0 <=? end')%Z then
         n ← int_result (end' - start);
         substr csvLine (to_size_t start) (to_size_t n)
       else
         substr csvLine (to_size_t start)
                (to_size_t (size csvLine - to_size_t start)));
    let tokens := tokens ++ [token] in
    start ← int_result (end' + 1);
    Returns (tokens, start, (0 <? end')%Z).

(** The loop, for at most [rounds] rounds: [None] when it has not ended by
    then. *)
Fixpoint tokenise_loop (rounds : nat) (csvLine : string) (separator : Ascii.ascii)
    (tokens : list string) (start : Z) : option (outcome (list string)) :=
  match rounds with
  | 0 => None
  | S rounds' =>
      match tokenise_round csvLine separator tokens start with
      | Returns (tokens', start', true) =>
          tokenise_loop rounds' csvLine separator tokens' start'
      | Returns (tokens', _, false) => Some (Returns tokens')
      | Throws what => Some (Throws what)
      | Undefined => Some Undefined
      end
  end.

Definition tokenise_within (rounds : nat) (csvLine : string) (separator : Ascii.ascii)
    : option (outcome (list string)) :=
  let start := to_int (find_first_not_of csvLine separator 0) in
  tokenise_loop rounds csvLine separator [] start.

(** The call.  On a line of fewer than [2^31] characters the loop ends within
    as many rounds as the line has characters, and one more (lemma
    [tokenise_within_fields]).  On a longer line [int] wraps around and the
    loop need not end; a call that has not ended by then is given no defined
    behaviour. *)
Definition tokenise (csvLine : string) (separator : Ascii.ascii) : outcome (list string) :=
  match tokenise_within (S (String.length csvLine)) csvLine separator with
  | Some r => r
  | None => Undefined
  end.

(** [stringsToOBE] of five fields. *)
Definition stringsToOBE (priceString amountString timestamp product : string)
    (orderType : OrderBookType) : outcome entry :=
  price ← std_stod priceString;
  amount ← std_stod amountString;
  Returns (OBE price amount timestamp product orderType).

(** [stringsToOBE] of a vector of tokens. *)
Definition stringsToOBE_vector (tokens : list string) : outcome entry :=
  if negb (length tokens =? 5)%nat then Throws "std::exception"
  else
    t3 ← vector_at tokens 3;
    price ← std_stod t3;
    t4 ← vector_at tokens 4;
    amount ← std_stod t4;
    t0 ← vector_at tokens 0;
    t1 ← vector_at tokens 1;
    t2 ← vector_at tokens 2;
    Returns (OBE price amount t0 t1 (stringToOrderBookType t2)).

(** The body of the [try] of [readCSV], and the [catch] of
    [std::exception] around it. *)
Definition readCSV_line (entries : list entry) (line : string) : outcome (list entry) :=
  match (tokens ← tokenise line ","%char; stringsToOBE_vector tokens) with
  | Returns obe => Returns (entries ++ [obe])
  | Throws _ => Returns entries
  | Undefined => Undefined
  end.

Definition CSVReader_readCSV {Dk : Disk} (csvFilename : string) : outcome (list entry) :=
  match file_lines csvFilename with
  | Some lines => for_each readCSV_line [] lines
  | None => Returns []
  end.

End CSVReader.

(** ** The wallet ([Wallet]) *)

Section Wallet.
Context {Ar : Arith} {Ps : Parse Ar}.
Local Abbreviation entry := (OrderBookEntry Ar).

(** The object: its one field, a [std::map<std::string, double>]. *)
Record Wallet := mkWallet { currencies : list (string * num) }.

(** [currencies[type]], which is 0 for a currency that is not there. *)
Definition balance_of (w : Wallet) (type : string) : num :=
  default num_zero (map_find type (currencies w)).

Definition insertCurrency (w : Wallet) (type : string) (amount : num) : outcome Wallet :=
  if (amount < num_zero)%num then Throws "std::exception"
  else
    let balance := num_zero in
    let balance :=
      match map_find type (currencies w) with
      | Some b => b
      | None => balance
      end in
    let balance := (balance + amount)%num in
    Returns (mkWallet (map_assign type balance (currencies w))).

Definition containsCurrency (w : Wallet) (type : string) (amount : num) : bool :=
  match map_find type (currencies w) with
  | None => false
  | Some b => (b >= amount)%num
  end.

(** The value returned and the wallet afterwards. *)
Definition removeCurrency (w : Wallet) (type : string) (amount : num) : bool * Wallet :=
  if (amount < num_zero)%num then (false, w)
  else
    match map_find type (currencies w) with
    | None => (false, w)
    | Some b =>
        if containsCurrency w type amount
        then (true, mkWallet (map_assign type (b - amount)%num (currencies w)))
        else (false, w)
    end.

Definition canFulfillOrder (w : Wallet) (order : entry) : outcome bool :=
  currs ← tokenise (product order) "/"%char;
  if bool_decide (orderType order = ask) then
    let amountNeeded := amount order in
    baseCurrency ← vector_at currs 0;
    Returns (containsCurrency w baseCurrency amountNeeded)
  else if bool_decide (orderType order = bid) then
    let quoteNeeded := (amount order * price order)%num in
    quoteCurrency ← vector_at currs 1;
    Returns (containsCurrency w quoteCurrency quoteNeeded)
  else Returns false.

(** [currencies[k] += x] and [currencies[k] -= x]. *)
Definition credit (w : Wallet) (k : string) (x : num) : Wallet :=
  mkWallet (map_assign k (balance_of w k + x)%num (currencies w)).

Definition debit (w : Wallet) (k : string) (x : num) : Wallet :=
  mkWallet (map_assign k (balance_of w k - x)%num (currencies w)).

Definition processSale (w : Wallet) (sale : entry) : outcome Wallet :=
  currs ← tokenise (product sale) "/"%char;
  w ← (if bool_decide (orderType sale = asksale) then
         let baseSold := amount sale in
         base ← vector_at currs 0;
         let quoteGained := (amount sale * price sale)%num in
         quote ← vector_at currs 1;
         let w := credit w quote quoteGained in
         Returns (debit w base baseSold)
       else Returns w);
  if bool_decide (orderType sale = bidsale) then
    let baseGained := amount sale in
    base ← vector_at currs 0;
    let quoteSpent := (amount sale * price sale)%num in
    quote ← vector_at currs 1;
    let w := credit w base baseGained in
    Returns (debit w quote quoteSpent)
  else Returns w.

End Wallet.

(** ** The simulation ([MerkelMain]) *)

Section MerkelMain.
Context {Ar : Arith} {Sort : StdSort} {Fs : Files Ar} {Ps : Parse Ar}.
Local Abbreviation entry := (OrderBookEntry Ar).

(** The object.  [orderBook] and [wallet] are references in the program;
    nothing else holds them while a member function runs. *)
Record MerkelMain := mkMerkelMain {
  orderBook : @OrderBook Ar;
  wallet : @Wallet Ar;
  products : list string;
  currentTime : string;
}.

(** The constructor. *)
Definition MerkelMain_new (book : @OrderBook Ar) (wal : @Wallet Ar)
    (prods : list string) : outcome MerkelMain :=
  t ← getEarliestTime book;
  Returns (mkMerkelMain book wal prods t).

(** One round of the loop of [printMarketStats]: what it prints for a
    product is the number of asks, the highest and the lowest of their
    prices. *)
Definition printMarketStats_round (m : MerkelMain)
    (out : list (string * nat * num * num)) (p : string)
    : outcome (list (string * nat * num * num)) :=
  let asks := getOrders (orderBook m) ask p (currentTime m) in
  high ← getHighPrice asks;
  low ← getLowPrice asks;
  Returns (out ++ [(p, length asks, high, low)]).

Definition printMarketStats (m : MerkelMain)
    : outcome (list (string * nat * num * num)) :=
  for_each (printMarketStats_round m) [] (getKnownProducts (orderBook m)).

(** [enterAsk] and [enterBid] differ in the order type only; [line] is the
    line read from the input.  The [try] has a [catch (...)]. *)
Definition enterOrder (type : OrderBookType) (m : MerkelMain) (line : string)
    : outcome MerkelMain :=
  tokens ← tokenise line ","%char;
  if negb (length tokens =? 3)%nat then Returns m
  else
    t0 ← vector_at tokens 0;
    t1 ← vector_at tokens 1;
    t2 ← vector_at tokens 2;
    match
      obe ← stringsToOBE t1 t2 (currentTime m) t0 type;
      let obe := set_user_type obe "simuser" (orderType obe) in
      ok ← canFulfillOrder (wallet m) obe;
      Returns (if ok : bool
               then mkMerkelMain (insertOrder (orderBook m) obe) (wallet m)
                                 (products m) (currentTime m)
               else m)
    with
    | Returns m' => Returns m'
    | Throws _ => Returns m
    | Undefined => Undefined
    end.

Definition enterAsk : MerkelMain → string → outcome MerkelMain := enterOrder ask.
Definition enterBid : MerkelMain → string → outcome MerkelMain := enterOrder bid.

(** The sales of one product go to the wallet when they are the user's. *)
Definition settle (w : @Wallet Ar) (sales : list entry) : outcome (@Wallet Ar) :=
  for_each (λ w sale,
              if String.eqb (username sale) "simuser" then processSale w sale
              else Returns w)
           w sales.

(** One round of the loop of [gotoNextTimeframe], on the store and the
    wallet. *)
Definition gotoNextTimeframe_round (currentTime : string)
    (st : @OrderBook Ar * @Wallet Ar) (p : string)
    : outcome (@OrderBook Ar * @Wallet Ar) :=
  let '(ob, w) := st in
  let '(sales, ob) := matchAsksToBids ob p currentTime in
  w ← settle w sales;
  Returns (ob, w).

Definition gotoNextTimeframe (m : MerkelMain) : outcome MerkelMain :=
  st ← for_each (gotoNextTimeframe_round (currentTime m))
                (orderBook m, wallet m) (getKnownProducts (orderBook m));
  let '(ob, w) := st in
  t ← getNextTime ob (currentTime m);
  Returns (mkMerkelMain ob w (products m) t).

End MerkelMain.

(** ** The two loops as functions on lists *)

Section Loops.
Context {Ar : Arith}.
Local Abbreviation entry := (OrderBookEntry Ar).

(** The sale record for the match of [a] and [b], before its amount is set. *)
Definition newSale (product' timestamp' : string) (a b : entry) : entry :=
  let sale := OBE (price a) num_zero timestamp' product' asksale in
  let sale :=
    if String.eqb (username b) "simuser"
    then set_user_type sale "simuser" bidsale else sale in
  if String.eqb (username a) "simuser"
  then set_user_type sale "simuser" asksale else sale.

(** What one round of the inner loop does to [ask] and [bid]: the sale it
    pushes, if any, the two records afterwards, and whether it breaks. *)
Definition pairStep (product' timestamp' : string) (a b : entry)
    : option entry * entry * entry * bool :=
  if (price b >= price a)%num then
    let sale := newSale product' timestamp' a b in
    if (amount b == amount a)%num then
      (Some (set_amount sale (amount a)), a, set_amount b num_zero, true)
    else if (amount b > amount a)%num then
      (Some (set_amount sale (amount a)), a,
       set_amount b (amount b - amount a)%num, true)
    else if (amount b > num_zero)%num then
      (Some (set_amount sale (amount b)),
       set_amount a (amount a - amount b)%num, set_amount b num_zero, false)
    else (None, a, b, false)
  else (None, a, b, false).

(** A sale with the ask and the bid it came from. *)
Definition event : Type := entry * (entry * entry).

Definition event_of (s : option entry) (a b : entry) : list event :=
  match s with Some sale => [(sale, (a, b))] | None => [] end.

(** The inner loop on the bids still to visit: the events, the ask and the
    bids afterwards. *)
Fixpoint scanBids (product' timestamp' : string) (a : entry) (bs : list entry)
    : list event * entry * list entry :=
  match bs with
  | [] => ([], a, [])
  | b :: bs' =>
      let '(s, a', b', break) := pairStep product' timestamp' a b in
      if break then (event_of s a b, a', b' :: bs')
      else
        let '(ev, a'', bs'') := scanBids product' timestamp' a' bs' in
        (event_of s a b ++ ev, a'', b' :: bs'')
  end.

(** The outer loop on the asks still to visit. *)
Fixpoint scanAsks (product' timestamp' : string) (asks bs : list entry)
    : list event * list entry * list entry :=
  match asks with
  | [] => ([], [], bs)
  | a :: asks' =>
      let '(ev, a', bs') := scanBids product' timestamp' a bs in
      let '(ev', asks'', bs'') := scanAsks product' timestamp' asks' bs' in
      (ev ++ ev', a' :: asks'', bs'')
  end.

End Loops.

(** ** The vocabulary of the statements *)

(** Ascending strings, without repetition. *)
Definition ascending : list string → Prop :=
  StronglySorted (λ a b, String.ltb a b = true).

(** [sum_of f l] is the sum of [f] over the records of [l], added from left
    to right. *)
Definition sum_of {Ar : Arith} (f : OrderBookEntry Ar → num)
    (l : list (OrderBookEntry Ar)) : num :=
  foldl (λ s e, (s + f e)%num) num_zero l.

(** The sum of the amounts of a sequence of records. *)
Definition total_amount {Ar : Arith} (l : list (OrderBookEntry Ar)) : num :=
  sum_of amount l.

Section Vocabulary.
Context {Ar : Arith}.
Local Abbreviation entry := (OrderBookEntry Ar).

(** The timestamps of the stored sequence never decrease. *)
Definition store_sorted (ob : @OrderBook Ar) : Prop :=
  StronglySorted (λ x y, String.leb (timestamp x) (timestamp y) = true) (orders ob).

(** The distinct timestamps of the store, ascending. *)
Definition stored_timestamps (ob : @OrderBook Ar) : list string :=
  foldl (λ s e, set_insert (timestamp e) s) [] (orders ob).

(** The cursor of the simulation: [walk ob n t] takes [n] steps of
    [getNextTime] from [t]; it returns the timestamps it stood on and the one
    it ends on. *)
Fixpoint walk (ob : @OrderBook Ar) (n : nat) (t : string)
    : outcome (list string * string) :=
  match n with
  | 0 => Returns ([], t)
  | S n' =>
      t' ← getNextTime ob t;
      r ← walk ob n' t';
      Returns (t :: r.1, r.2)
  end.

(** [a] is the record [a0] with, possibly, another amount. *)
Definition reduced (a0 a : entry) : Prop := a = set_amount a0 (amount a).

(** What holds of an event of the loops run on [asks] and [bids]. *)
Definition event_ok (asks bids : list entry) (e : event) : Prop :=
  let '(sale, (a, b)) := e in
  price sale = price a ∧
  (price b >= price a)%num = true ∧
  (∃ a0, a0 ∈ asks ∧ reduced a0 a) ∧
  (∃ b0, b0 ∈ bids ∧ reduced b0 b).

(** The timestamp has an order of the side and product. *)
Definition has_orders (ob : @OrderBook Ar) (side : OrderBookType)
    (product' ts : string) : bool :=
  match getOrders ob side product' ts with [] => false | _ :: _ => true end.

(** The volume-weighted average price of a sequence of records:
    [sum(price * amount) / sum(amount)]. *)
Definition vwap (entries : list entry) : num :=
  (sum_of (λ e, price e * amount e)%num entries / total_amount entries)%num.

(** The candle summarises the orders of its timestamp. *)
Definition candle_of (ob : @OrderBook Ar) (side : OrderBookType) (product' : string)
    (c : Candlestick Ar) : Prop :=
  let entries := getOrders ob side product' (c_timestamp c) in
  entries ≠ [] ∧
  (∃ e, e ∈ entries ∧ price e = c_high c) ∧
  (∀ e, e ∈ entries → (price e <= c_high c)%num = true) ∧
  (∃ e, e ∈ entries ∧ price e = c_low c) ∧
  (∀ e, e ∈ entries → (c_low c <= price e)%num = true) ∧
  c_close c = vwap entries.

(** A candle opens at the close of the candle before it, the first one at
    its own close. *)
Definition opens_chained (candles : list (Candlestick Ar)) : Prop :=
  ∀ k c, candles !! k = Some c →
    match k with
    | 0 => c_open c = c_close c
    | S k' => ∃ c', candles !! k' = Some c' ∧ c_open c = c_close c'
    end.

End Vocabulary.

(** The stores the program can be in: built by the constructor, changed by
    [insertOrder], passed through [matchAsksToBids]. *)
Inductive reachable {Ar : Arith} {Sort : StdSort} {Fs : Files Ar}
    : @OrderBook Ar → Prop :=
  | reachable_new (file1 file2 : string) :
      reachable (OrderBook_new file1 file2)
  | reachable_insert (ob : OrderBook) (order : OrderBookEntry Ar) :
      reachable ob → reachable (insertOrder ob order)
  | reachable_match (ob : OrderBook) (product' timestamp' : string) :
      reachable ob → reachable (matchAsksToBids ob product' timestamp').2.

Section ExactVocabulary.
Local Abbreviation entry := (OrderBookEntry exact).

(** The amount of a record, as a rational. *)
Definition qty (e : entry) : Q := amount e.

(** The amount of the sale of one round, 0 when there is none. *)
Definition sold (s : option entry) : Q :=
  match s with Some sale => qty sale | None => 0%Q end.

End ExactVocabulary.

(** ** The statements of the specification that the program does not meet *)

Section Claims.
Context {Ar : Arith}.
Local Abbreviation entry := (OrderBookEntry Ar).

(** [std::min]. *)
Definition num_min (a b : num) : num := if (b < a)%num then b else a.

(** Quantities assigned to pairs of an ask and a bid, given by their
    positions: [(i, j, q)] gives [q] of ask [i] to bid [j]. *)
Definition assignment : Type := list (nat * nat * num).

Definition assigned_total (al : assignment) : num :=
  foldl (λ s '(_, _, q), (s + q)%num) num_zero al.

Definition assigned_to_ask (i : nat) (al : assignment) : num :=
  foldl (λ s '(i', _, q), if Nat.eqb i' i then (s + q)%num else s) num_zero al.

Definition assigned_to_bid (j : nat) (al : assignment) : num :=
  foldl (λ s '(_, j', q), if Nat.eqb j' j then (s + q)%num else s) num_zero al.

(** Every pair of the assignment can trade: the bid is not priced below the
    ask; and no order gives more than its amount. *)
Definition feasible (asks bids : list entry) (al : assignment) : bool :=
  forallb (λ '(i, j, q),
             match asks !! i, bids !! j with
             | Some a, Some b => (price b >= price a)%num && (num_zero <= q)%num
             | _, _ => false
             end) al
  && forallb (λ i, match asks !! i with
                   | Some a => (assigned_to_ask i al <= amount a)%num
                   | None => false
                   end) (seq 0 (length asks))
  && forallb (λ j, match bids !! j with
                   | Some b => (assigned_to_bid j al <= amount b)%num
                   | None => false
                   end) (seq 0 (length bids)).

(** One side can be consumed in full by the other within the prices. *)
Definition fully_consumable (asks bids : list entry) : Prop :=
  ∃ al, feasible asks bids al = true ∧
        ((assigned_total al == total_amount asks)%num
         || (assigned_total al == total_amount bids)%num) = true.

(** The conservation of quantity as the specification states it. *)
Definition quantity_conserved {Sort : StdSort} (ob : @OrderBook Ar)
    (product' timestamp' : string) : Prop :=
  let sales := (matchAsksToBids ob product' timestamp').1 in
  let asks := getOrders ob ask product' timestamp' in
  let bids := getOrders ob bid product' timestamp' in
  (total_amount sales <= num_min (total_amount asks) (total_amount bids))%num = true ∧
  (fully_consumable asks bids →
   (total_amount sales == num_min (total_amount asks) (total_amount bids))%num = true).


(** The order of insertion among the records of one timestamp, as the
    specification states it. *)
Definition ties_in_insertion_order {Sort : StdSort} (ob : @OrderBook Ar)
    (new : list entry) : Prop :=
  ∀ t, List.filter (λ e, String.eqb (timestamp e) t) (orders (foldl insertOrder ob new))
       = List.filter (λ e, String.eqb (timestamp e) t) (orders ob ++ new).

End Claims.


(** ** Concrete stores *)

Module Sample.

Definition t1 : string := "2020/03/17 10:00:00.000000".
Definition t2 : string := "2020/03/17 10:00:05.000000".

(** The example of the specification: an ask of 1 at 100, a bid of 2 at 105. *)
Definition book : @OrderBook binary64 :=
  mkOrderBook [ @OBE binary64 100%float 1%float t1 "ETH/BTC" ask;
                @OBE binary64 105%float 2%float t1 "ETH/BTC" bid;
                @OBE binary64 101%float 1%float t2 "ETH/BTC" ask ].

(** Two asks and two bids, each of amount 1: the cheap ask takes the high bid. *)
Definition crossed : @OrderBook binary64 :=
  mkOrderBook [ @OBE binary64 1%float 1%float t1 "ETH/BTC" ask;
                @OBE binary64 5%float 1%float t1 "ETH/BTC" ask;
                @OBE binary64 6%float 1%float t1 "ETH/BTC" bid;
                @OBE binary64 2%float 1%float t1 "ETH/BTC" bid ].

(** Three asks of 0.3, 0.2 and 0.1, dearest first, and one large bid. *)
Definition tenths : @OrderBook binary64 :=
  mkOrderBook [ @OBE binary64 3%float 0x1.3333333333333p-2%float t1 "ETH/BTC" ask;
                @OBE binary64 2%float 0x1.999999999999ap-3%float t1 "ETH/BTC" ask;
                @OBE binary64 1%float 0x1.999999999999ap-4%float t1 "ETH/BTC" ask;
                @OBE binary64 10%float 100%float t1 "ETH/BTC" bid ].

(** One ask of amount 3 at the price 0.1. *)
Definition tenth : @OrderBook binary64 :=
  mkOrderBook [ @OBE binary64 0x1.999999999999ap-4%float 3%float t1 "ETH/BTC" ask ].

Definition tenth_files : Files binary64 :=
  {| readCSV := λ file, if String.eqb file "20200317.csv" then orders tenth else [] |}.

(** One ask of amount 0. *)
Definition idle : @OrderBook binary64 :=
  mkOrderBook [ @OBE binary64 100%float 0%float t1 "ETH/BTC" ask ].

Definition idle_files : Files binary64 :=
  {| readCSV := λ file, if String.eqb file "20200317.csv" then orders idle else [] |}.

Definition book_files : Files binary64 :=
  {| readCSV := λ file, if String.eqb file "20200317.csv" then orders book else [] |}.

(** The store of the example over the rationals. *)
Definition exact_book : @OrderBook exact :=
  mkOrderBook [ @OBE exact 100%Q 1%Q t1 "ETH/BTC" ask;
                @OBE exact 105%Q 2%Q t1 "ETH/BTC" bid;
                @OBE exact 101%Q 1%Q t2 "ETH/BTC" ask ].

Definition exact_files : Files exact :=
  {| readCSV := λ file, if String.eqb file "20200317.csv" then orders exact_book else [] |}.

(** Two records of one timestamp. *)
Definition first_in : OrderBookEntry binary64 := @OBE binary64 100%float 1%float t1 "ETH/BTC" ask.
Definition second_in : OrderBookEntry binary64 := @OBE binary64 105%float 2%float t1 "ETH/BTC" bid.

(** A timestamp before those of [book] and one after them. *)
Definition t0 : string := "2020/03/17 09:59:55.000000".
Definition t3 : string := "2020/03/17 10:00:10.000000".



(** Three orders that arrive out of order: at the second timestamp of
    [book], before its first, at its first. *)
Definition arrivals : list (OrderBookEntry binary64) :=
  [ @OBE binary64 103%float 1%float t2 "ETH/BTC" bid;
    @OBE binary64 99%float 2%float t0 "ETH/BTC" ask;
    @OBE binary64 98%float 3%float t1 "ETH/BTC" bid ].

(** Twenty asks of one timestamp, told apart by their prices 1 to 20. *)
Definition queue : list (OrderBookEntry binary64) :=
  (λ p, @OBE binary64 p 1%float t1 "ETH/BTC" ask) <$>
    [1; 2; 3; 4; 5; 6; 7; 8; 9; 10; 11; 12; 13; 14; 15; 16; 17; 18; 19; 20]%float.

End Sample.

(** ** The vocabulary of the charts, the reader, the wallet *)

(** The number of stored records of a product. *)
Definition records_of {Ar : Arith} (ob : @OrderBook Ar) (p : string) : nat :=
  length (List.filter (λ e, String.eqb (product e) p) (orders ob)).

(** The sum of the counts of a map. *)
Definition sum_counts (counts : list (string * Z)) : Z :=
  foldr Z.add 0%Z counts.*2.

(** Characters 11 to 15 of a timestamp: the ["HH:MM"] of
    ["YYYY/MM/DD HH:MM:SS.ffffff"]. *)
Definition minute_of (ts : string) : string :=
  String.string_of_list_ascii (take 5 (drop 11 (String.list_ascii_of_string ts))).

(** The records that go under a label of the mean price chart. *)
Definition in_minute {Ar : Arith} (type : OrderBookType) (product' minute : string)
    (e : OrderBookEntry Ar) : bool :=
  bool_decide (orderType e = type) && String.eqb (product e) product'
  && String.eqb (minute_of (timestamp e)) minute.

(** The mean of a sequence of prices, rounded as the chart has it. *)
Definition rounded_mean {Ar : Arith} {Ml : MathLib Ar} (prices : list num) : num :=
  let sum := foldl (λ sum p, (sum + p)%num) num_zero prices in
  (std_round (sum / num_of_size (length prices) * num_1e6) / num_1e6)%num.

(** The user and the type that [matchAsksToBids] gives to the sale of an
    ask and a bid: the sale is the user's when the ask or the bid is, and it
    is a sale of the bid only when the ask is not the user's. *)
Definition sale_owner {Ar : Arith} (a b : OrderBookEntry Ar) : string * OrderBookType :=
  if String.eqb (username a) "simuser" then ("simuser", asksale)
  else if String.eqb (username b) "simuser" then ("simuser", bidsale)
  else ("dataset", asksale).

(** What holds of [counts] after the records [seen]. *)
Definition counted {Ar : Arith} (seen : list (OrderBookEntry Ar)) (counts : list (string * Z)) : Prop :=
  ascending counts.*1 ∧
  (∀ p, p ∈ counts.*1 ↔ ∃ e, e ∈ seen ∧ product e = p) ∧
  (∀ p, default 0%Z (map_find p counts)
        = Z.of_nat (length (List.filter (λ e, String.eqb (product e) p) seen))) ∧
  sum_counts counts = Z.of_nat (length seen).

(** What holds of [pricesByMinute] after the records [seen]. *)
Definition grouped {Ar : Arith} (type : OrderBookType) (product' : string)
    (seen : list (OrderBookEntry Ar))
    (m : list (string * list num)) : Prop :=
  ascending m.*1 ∧
  (∀ minute, minute ∈ m.*1 ↔ ∃ e, e ∈ seen ∧ in_minute type product' minute e = true) ∧
  (∀ minute, default [] (map_find minute m)
             = price <$> List.filter (in_minute type product' minute) seen).

(** A sale is the record made for its ask and bid, with its amount set. *)
Definition sale_of {Ar : Arith} (product' timestamp' : string) (e : event (Ar := Ar))
    : Prop :=
  let '(sale, (a, b)) := e in
  sale = set_amount (newSale product' timestamp' a b) (amount sale).

(** The fields of a line, read from the beginning of a field: the
    characters up to the next separator make a field, and the fields end at
    the end of the line or before the first field that is empty. *)
Fixpoint fields (sep : Ascii.ascii) (l : list Ascii.ascii) : list (list Ascii.ascii) :=
  match l with
  | [] => []
  | c :: l' =>
      if Ascii.eqb sep c then []
      else match l' with
           | [] => [[c]]
           | c' :: l'' =>
               if Ascii.eqb sep c' then [c] :: fields sep l''
               else match fields sep l' with
                    | t :: ts => (c :: t) :: ts
                    | [] => [[c]]
                    end
           end
  end.

(** The line without the separators it begins with. *)
Fixpoint skip (sep : Ascii.ascii) (l : list Ascii.ascii) : list Ascii.ascii :=
  match l with
  | [] => []
  | c :: l' => if Ascii.eqb sep c then skip sep l' else l
  end.

(** The tokens of a line. *)
Definition tokens_of (sep : Ascii.ascii) (csvLine : string) : list string :=
  String.string_of_list_ascii
    <$> fields sep (skip sep (String.list_ascii_of_string csvLine)).

(** A field that [tokenise] can return: not empty, without the separator. *)
Definition field_ok (sep : Ascii.ascii) (t : string) : Prop :=
  t ≠ "" ∧ sep ∉ String.list_ascii_of_string t.

(** The tokens put together again, with the separator between them. *)
Definition join (sep : Ascii.ascii) (tokens : list string) : string :=
  String.concat (String sep "") tokens.

(** The product of the currencies [base] and [quote]: ["base/quote"]. *)
Definition pair_of (base quote : string) : string := join "/" [base; quote].

(** A product that [tokenise] splits into its two currencies. *)
Definition pair_ok (product' base quote : string) : Prop :=
  product' = pair_of base quote ∧ field_ok "/" base ∧ field_ok "/" quote ∧
  (size product' < 2 ^ 31)%Z.

(** The entry that [readCSV] makes of a line, if it makes one: the line has
    five tokens, and the fourth and the fifth are numbers for [std::stod]. *)
Definition entry_of_line {Ar : Arith} {Ps : Parse Ar} (line : string)
    : option (OrderBookEntry Ar) :=
  match tokens_of "," line with
  | [t0; t1; t2; t3; t4] =>
      match std_stod t3, std_stod t4 with
      | Returns price, Returns amount =>
          Some (OBE price amount t0 t1 (stringToOrderBookType t2))
      | _, _ => None
      end
  | _ => None
  end.

(** No balance of the wallet is negative. *)
Definition solvent (w : @Wallet exact) : Prop :=
  ∀ k b, map_find k (currencies w) = Some b → (0 <= b)%Q.

(** The two wallets hold the same, but for the currencies [ks]. *)
Definition same_but {Ar : Arith} (ks : list string) (w w' : @Wallet Ar) : Prop :=
  ∀ k, k ∉ ks → map_find k (currencies w') = map_find k (currencies w).

(** The amount of a sale is the smaller of the amounts of its ask and bid. *)
Definition sale_min (e : event (Ar := exact)) : Prop :=
  let '(sale, (a, b)) := e in (qty sale == Qmin (qty a) (qty b))%Q.

(** [steps n m]: [n] calls of [gotoNextTimeframe] from [m]; the times the
    calls started at, and the simulation after the last. *)
Fixpoint steps {Ar : Arith} {Sort : StdSort} (n : nat) (m : @MerkelMain Ar)
    : outcome (list string * @MerkelMain Ar) :=
  match n with
  | 0 => Returns ([], m)
  | S n' =>
      m' ← gotoNextTimeframe m;
      r ← steps n' m';
      Returns (currentTime m :: r.1, r.2)
  end.

(** ** A concrete desk: a wallet, a reader, a simulation *)

Module Desk.

(** [std::round] on the rationals: to the nearest integer, halves away from
    0. *)
Definition floor (q : Q) : Z := (Qnum q / Z.pos (Qden q))%Z.

Definition round_half_away (q : Q) : Q :=
  if Qle_bool 0 q then inject_Z (floor (q + (1 # 2)))
  else inject_Z (- floor (- q + (1 # 2))).

Definition exact_math : MathLib exact :=
  @Build_MathLib exact round_half_away (λ n, inject_Z (Z.of_nat n)) 1000000%Q.

(** The value of a sequence of decimal digits. *)
Fixpoint digits_value (acc : Z) (l : list Ascii.ascii) : option Z :=
  match l with
  | [] => Some acc
  | c :: l' =>
      let n := Z.of_N (Ascii.N_of_ascii c) in
      if ((48 <=? n) && (n <=? 57))%Z then digits_value (10 * acc + (n - 48)) l'
      else None
  end.

(** A reader of numerals for the examples: a sequence of decimal digits has
    the value that [std::stod] gives it.  It throws for every other text,
    where [std::stod] also reads signs, fractions, exponents, leading spaces
    and the numeral at the head of a longer text. *)
Definition stod_digits (s : string) : outcome Q :=
  match String.list_ascii_of_string s with
  | [] => Throws "std::invalid_argument"
  | l => match digits_value 0 l with
         | Some z => Returns (inject_Z z)
         | None => Throws "std::invalid_argument"
         end
  end.

Definition type_of_string (s : string) : OrderBookType :=
  if String.eqb s "ask" then ask else if String.eqb s "bid" then bid else unknown.

Lemma stod_digits_defined (s : string) : stod_digits s ≠ Undefined.
Proof.
  unfold stod_digits. destruct (String.list_ascii_of_string s); [done|].
  by destruct (digits_value _ _).
Qed.

Definition parse : Parse exact :=
  @Build_Parse exact stod_digits stod_digits_defined type_of_string.

(** A data file of four lines: two orders, a line with an empty field, a
    line whose price is no numeral. *)
Definition disk : Disk :=
  {| file_lines := λ name,
       if String.eqb name "20200317.csv"
       then Some [ "2020/03/17 10:00:00.000000,ETH/BTC,ask,100,1";
                   "2020/03/17 10:00:00.000000,ETH/BTC,bid,105,2";
                   "2020/03/17 10:00:05.000000,,ask,101,1";
                   "2020/03/17 10:00:05.000000,ETH/BTC,ask,dear,1" ]
       else None |}.

(** The wallet of [main]: 10 BTC. *)
Definition wallet : @Wallet exact := @mkWallet exact [("BTC", 10%Q)].

(** The simulation on the store of the example, at its first timestamp. *)
Definition cli : @MerkelMain exact :=
  @mkMerkelMain exact Sample.exact_book wallet ["ETH/BTC"] Sample.t1.

(** A store with a timestamp that has the time of day only. *)
Definition short : @OrderBook exact :=
  mkOrderBook [ @OBE exact 100%Q 1%Q "10:00" "ETH/BTC" ask ].

End Desk.

(** ** The comparisons of the two arithmetics *)

Section SpecFloatOrder.

Ltac cmp_cases :=
  repeat match goal with
  | |- context [Z.compare ?a ?b] => destruct (Z.compare_spec a b)
  | H : context [Z.compare ?a ?b] |- _ => destruct (Z.compare_spec a b)
  | |- context [Pos.compare ?a ?b] => destruct (Pos.compare_spec a b)
  | H : context [Pos.compare ?a ?b] |- _ => destruct (Pos.compare_spec a b)
  end.

Ltac sf_cases :=
  repeat match goal with x : spec_float |- _ => destruct x as [[]|[]| |[] ? ?] end;
  simpl in *; try congruence; try done;
  rewrite ?Pos.compare_cont_spec in *; simpl in *;
  cmp_cases; simpl in *; subst; try congruence; try lia.

Lemma SFcompare_irrefl (x : spec_float) : SFcompare x x ≠ Some Lt.
Proof. sf_cases. Qed.

Lemma SFcompare_lt_trans (x y z : spec_float) :
  SFcompare x y = Some Lt → SFcompare y z = Some Lt → SFcompare x z = Some Lt.
Proof. intros. sf_cases. Qed.

Lemma SFcompare_antisym (x y : spec_float) :
  SFcompare y x = CompOpp <$> SFcompare x y.
Proof. sf_cases. Qed.

Lemma SFcompare_ge_trans (x y z : spec_float) c1 c2 :
  SFcompare x y = Some c1 → c1 ≠ Lt → SFcompare y z = Some c2 → c2 ≠ Lt →
  ∃ c3, SFcompare x z = Some c3 ∧ c3 ≠ Lt.
Proof. intros. sf_cases; eauto. Qed.

Lemma SFcompare_proper (x y : spec_float) :
  SFeqb x x = true → SFeqb y y = true → is_Some (SFcompare x y).
Proof. unfold SFeqb. intros. sf_cases; eauto. Qed.

End SpecFloatOrder.

Lemma binary64_compare_proper (x y : float) :
  PrimFloat.is_nan x = false → PrimFloat.is_nan y = false →
  is_Some (SFcompare (Prim2SF x) (Prim2SF y)).
Proof.
  unfold PrimFloat.is_nan. rewrite !negb_false_iff, !FloatAxioms.eqb_spec.
  apply SFcompare_proper.
Qed.

Global Instance binary64_laws : OrderLaws binary64.
Proof.
  split; simpl.
  - intros x. rewrite FloatAxioms.ltb_spec. unfold SFltb.
    pose proof (SFcompare_irrefl (Prim2SF x)).
    by destruct (SFcompare _ _) as [[]|].
  - intros x y z. rewrite !FloatAxioms.ltb_spec. unfold SFltb.
    destruct (SFcompare (Prim2SF x) (Prim2SF y)) as [[]|] eqn:E1; try done.
    destruct (SFcompare (Prim2SF y) (Prim2SF z)) as [[]|] eqn:E2; try done.
    by rewrite (SFcompare_lt_trans _ _ _ E1 E2).
  - intros x y z Hx Hy Hz. rewrite !FloatAxioms.ltb_spec. unfold SFltb.
    destruct (binary64_compare_proper x y Hx Hy) as [c1 E1].
    destruct (binary64_compare_proper y z Hy Hz) as [c2 E2].
    rewrite E1, E2. intros H1 H2.
    destruct (SFcompare_ge_trans _ _ _ c1 c2 E1 ltac:(by destruct c1) E2
                ltac:(by destruct c2)) as (c3 & -> & ?).
    by destruct c3.
  - intros x y Hx Hy. rewrite FloatAxioms.ltb_spec, FloatAxioms.leb_spec. unfold SFltb, SFleb.
    destruct (binary64_compare_proper x y Hx Hy) as [c E].
    rewrite (SFcompare_antisym (Prim2SF x) (Prim2SF y)), E.
    by destruct c.
  - intros x y. rewrite FloatAxioms.ltb_spec, FloatAxioms.leb_spec. unfold SFltb, SFleb.
    rewrite (SFcompare_antisym (Prim2SF x) (Prim2SF y)).
    by destruct (SFcompare _ _) as [[]|].
Qed.

Lemma exact_ltb_iff (a b : Q) : negb (Qle_bool b a) = true ↔ (a < b)%Q.
Proof.
  rewrite negb_true_iff, <-not_true_iff_false, Qle_bool_iff.
  split; [apply Qnot_le_lt | apply Qlt_not_le].
Qed.

Lemma exact_ltb_false_iff (a b : Q) : negb (Qle_bool b a) = false ↔ (b <= a)%Q.
Proof. by rewrite negb_false_iff, Qle_bool_iff. Qed.

Global Instance exact_laws : OrderLaws exact.
Proof.
  split; simpl.
  - intros x. apply exact_ltb_false_iff. apply Qle_refl.
  - intros x y z. rewrite !exact_ltb_iff. apply Qlt_trans.
  - intros x y z _ _ _. rewrite !exact_ltb_false_iff. intros. by apply Qle_trans with y.
  - intros x y _ _. by rewrite negb_involutive.
  - intros x y. rewrite exact_ltb_false_iff, Qle_bool_iff. done.
Qed.

(** ** Insertion sort meets the contract of [std::sort] *)

Section InsertionSort.
Context {A : Type} (comp : A → A → bool).

Lemma strict_weak_order_on_mono (l k : list A) :
  l ⊆ k → strict_weak_order_on comp k → strict_weak_order_on comp l.
Proof. intros Hlk (Hi & Ht & Hn). split_and!; eauto 10. Qed.

Lemma strict_weak_order_on_perm (l k : list A) :
  l ≡ₚ k → strict_weak_order_on comp k → strict_weak_order_on comp l.
Proof. intros Hlk. apply strict_weak_order_on_mono. by rewrite Hlk. Qed.

Lemma strict_weak_order_asym (l : list A) x y :
  strict_weak_order_on comp l → x ∈ l → y ∈ l →
  comp x y = true → comp y x = false.
Proof.
  intros (Hi & Ht & _) Hx Hy Hxy.
  destruct (comp y x) eqn:Hyx; [|done].
  rewrite <-(Hi x Hx). symmetry. eauto.
Qed.

Lemma linear_insert_perm x (l : list A) : linear_insert comp x l ≡ₚ x :: l.
Proof.
  induction l as [|y l IH]; simpl; [done|].
  destruct (comp y x); [|done]. by rewrite IH, Permutation_swap.
Qed.

Lemma insertion_sort_perm (l : list A) : insertion_sort comp l ≡ₚ l.
Proof.
  induction l as [|x l IH]; simpl; [done|].
  unfold insertion_sort in *. simpl. by rewrite linear_insert_perm, IH.
Qed.

Lemma linear_insert_sorted x (l : list A) :
  strict_weak_order_on comp (x :: l) →
  sorted_by comp l → sorted_by comp (linear_insert comp x l).
Proof.
  intros Hswo. induction 1 as [|y l Hl IH Hy]; simpl.
  { repeat constructor. }
  destruct (comp y x) eqn:Hyx.
  - constructor.
    + apply IH. eapply strict_weak_order_on_mono; [|done]. set_solver.
    + apply Forall_forall. intros z. rewrite linear_insert_perm.
      intros [->|Hz]%elem_of_cons.
      * eapply strict_weak_order_asym; [done|set_solver..|done].
      * by eapply Forall_forall in Hy.
  - constructor; [by constructor|].
    constructor; [done|].
    apply Forall_forall. intros z Hz. eapply Forall_forall in Hy; [|done].
    destruct Hswo as (_ & _ & Hn). eapply (Hn z y x); [set_solver..|done|done].
Qed.

Lemma insertion_sort_sorted (l : list A) :
  strict_weak_order_on comp l → sorted_by comp (insertion_sort comp l).
Proof.
  unfold insertion_sort. induction l as [|x l IH]; intros Hswo; simpl.
  { constructor. }
  apply linear_insert_sorted.
  - eapply strict_weak_order_on_perm; [|done].
    constructor. apply insertion_sort_perm.
  - apply IH. eapply strict_weak_order_on_mono; [|done]. set_solver.
Qed.

End InsertionSort.

(** Insertion sort stands for [std::sort] in the evaluations on concrete
    stores: it is the result of every stable implementation. *)
Definition insertion_StdSort : StdSort := {|
  std_sort := @insertion_sort;
  std_sort_perm := λ A comp l _, insertion_sort_perm comp l;
  std_sort_sorted := @insertion_sort_sorted;
|}.

(** ** The sort of the GNU library meets the contract of [std::sort] *)

Lemma outcome_bind_Returns {A B} (k : A → outcome B) (c : outcome A) (b : B) :
  c ≫= k = Returns b → ∃ a, c = Returns a ∧ k a = Returns b.
Proof. destruct c; simpl; [eauto|done..]. Qed.

(** Takes a run that returns apart into the calls it is made of. *)
Ltac returns_inv H :=
  repeat match type of H with
         | _ ≫= _ = Returns _ =>
             let x := fresh "x" in let Hx := fresh "H" x in
             apply outcome_bind_Returns in H as (x & Hx & H)
         end.

Lemma for_each_Returns_ind {A S} (P : S → Prop) (body : S → A → outcome S)
    (l : list A) (s s' : S) :
  (∀ s x s', P s → body s x = Returns s' → P s') →
  P s → for_each body s l = Returns s' → P s'.
Proof.
  intros Hbody. revert s. induction l as [|x l IH]; intros s Hs Hrun; simpl in Hrun.
  - by injection Hrun as <-.
  - apply outcome_bind_Returns in Hrun as (s1 & Hs1 & Hrun). eauto.
Qed.

Lemma for_each_seq_Returns_ind {St} (P : nat → St → Prop)
    (body : St → nat → outcome St) (a n : nat) (s s' : St) :
  (∀ i s s', (a ≤ i < a + n)%nat → P i s → body s i = Returns s' → P (S i) s') →
  P a s → for_each body s (seq a n) = Returns s' → P (a + n)%nat s'.
Proof.
  revert a s. induction n as [|n IH]; intros a s Hbody Hs Hrun; simpl in Hrun.
  - injection Hrun as <-. by rewrite Nat.add_0_r.
  - apply outcome_bind_Returns in Hrun as (s1 & Hs1 & Hrun).
    rewrite <-Nat.add_succ_comm. apply (IH (S a) s1); [|by eapply Hbody; [lia|..]|done].
    intros i t t' Hi. apply Hbody. lia.
Qed.

Section LibstdcxxSort.
Context {A : Type} (comp : A → A → bool).
Implicit Types v : list A.
Local Open Scope nat_scope.

Lemma deref_Returns v i x : libstdcxx.deref v i = Returns x → v !! i = Some x.
Proof. unfold libstdcxx.deref. destruct (v !! i); [by intros [= ->]|done]. Qed.

Lemma assign_Returns v i x v' :
  libstdcxx.assign v i x = Returns v' → i < length v ∧ v' = <[i := x]> v.
Proof.
  unfold libstdcxx.assign. destruct (v !! i) eqn:Hi; [|done].
  intros [= <-]. split; [by eapply lookup_lt_Some|done].
Qed.

(** Moving the hole: the value that is held goes where [y] was, [y] goes
    into the hole. *)
Lemma insert_hole_Permutation v i j x y :
  i < length v → v !! j = Some y →
  <[j := x]> (<[i := y]> v) ≡ₚ <[i := x]> v.
Proof.
  intros Hi Hj. destruct (decide (i = j)) as [->|Hne].
  { by rewrite list_insert_insert_eq. }
  rewrite <-(list_insert_insert_eq v i y x).
  apply Permutation_insert_swap.
  - by rewrite list_lookup_insert_eq.
  - by rewrite list_lookup_insert_ne.
Qed.

Lemma iter_swap_Permutation v a b v' :
  libstdcxx.iter_swap v a b = Returns v' → v' ≡ₚ v.
Proof.
  unfold libstdcxx.iter_swap. intros H. returns_inv H.
  apply deref_Returns in Hx, Hx0.
  apply assign_Returns in Hx1 as [_ ->]. apply assign_Returns in H as [_ ->].
  by apply Permutation_insert_swap.
Qed.

Lemma move_median_to_first_Permutation v result a b c v' :
  libstdcxx.move_median_to_first comp v result a b c = Returns v' → v' ≡ₚ v.
Proof.
  unfold libstdcxx.move_median_to_first. intros H.
  apply outcome_bind_Returns in H as ([] & _ & H);
    apply outcome_bind_Returns in H as ([] & _ & H);
    try (by eapply iter_swap_Permutation);
    apply outcome_bind_Returns in H as ([] & _ & H);
    by eapply iter_swap_Permutation.
Qed.

Lemma unguarded_partition_loop_Permutation n v first last pivot cut v' :
  libstdcxx.unguarded_partition_loop comp n v first last pivot = Returns (cut, v') →
  v' ≡ₚ v.
Proof.
  revert v first last. induction n as [|n IH]; intros v first last H; [done|].
  cbn [libstdcxx.unguarded_partition_loop] in H. returns_inv H.
  destruct last as [|last]; [done|].
  returns_inv H. destruct (negb _).
  - by injection H as _ <-.
  - returns_inv H. apply IH in H. rewrite H. by eapply iter_swap_Permutation.
Qed.

Lemma unguarded_partition_pivot_Permutation v first last cut v' :
  libstdcxx.unguarded_partition_pivot comp v first last = Returns (cut, v') →
  v' ≡ₚ v.
Proof.
  unfold libstdcxx.unguarded_partition_pivot, libstdcxx.unguarded_partition.
  intros H. returns_inv H.
  apply unguarded_partition_loop_Permutation in H.
  apply move_median_to_first_Permutation in Hx. by rewrite H.
Qed.

Lemma push_heap_loop_Permutation n v first holeIndex topIndex value v' :
  libstdcxx.push_heap_loop comp n v first holeIndex topIndex value = Returns v' →
  v' ≡ₚ <[first + holeIndex := value]> v.
Proof.
  revert v holeIndex. induction n as [|n IH]; intros v holeIndex H; [done|].
  cbn [libstdcxx.push_heap_loop] in H. cbv zeta in H. destruct (topIndex <? holeIndex).
  - returns_inv H. apply deref_Returns in Hx. destruct (comp x value).
    + returns_inv H. apply assign_Returns in Hx0 as [Hlt ->].
      apply IH in H. rewrite H. by apply insert_hole_Permutation.
    + by apply assign_Returns in H as [_ ->].
  - by apply assign_Returns in H as [_ ->].
Qed.

Lemma adjust_heap_loop_Permutation n v first len holeIndex secondChild
    v' holeIndex' secondChild' value :
  libstdcxx.adjust_heap_loop comp n v first len holeIndex secondChild
    = Returns (v', holeIndex', secondChild') →
  <[first + holeIndex' := value]> v' ≡ₚ <[first + holeIndex := value]> v.
Proof.
  revert v holeIndex secondChild. induction n as [|n IH];
    intros v holeIndex secondChild H; [done|].
  cbn [libstdcxx.adjust_heap_loop] in H. destruct (secondChild <? _).
  - cbv zeta in H. returns_inv H. apply deref_Returns in Hx0.
    apply assign_Returns in Hx1 as [Hlt ->]. apply IH in H. rewrite H.
    by apply insert_hole_Permutation.
  - by injection H as <- <- <-.
Qed.

Lemma adjust_heap_Permutation v first holeIndex len value v' :
  libstdcxx.adjust_heap comp v first holeIndex len value = Returns v' →
  v' ≡ₚ <[first + holeIndex := value]> v.
Proof.
  unfold libstdcxx.adjust_heap, libstdcxx.push_heap. cbv zeta. intros H.
  apply outcome_bind_Returns in H as ([[v1 h1] s1] & Hloop & H).
  apply (adjust_heap_loop_Permutation _ _ _ _ _ _ _ _ _ value) in Hloop.
  apply outcome_bind_Returns in H as ([v2 h2] & Htail & H).
  apply push_heap_loop_Permutation in H. rewrite H, <-Hloop.
  destruct (_ && _).
  - returns_inv Htail. injection Htail as <- <-.
    apply deref_Returns in Hx. apply assign_Returns in Hx0 as [Hlt ->].
    by apply insert_hole_Permutation.
  - by injection Htail as <- <-.
Qed.

Lemma pop_heap_Permutation v first last result v' :
  libstdcxx.pop_heap comp v first last result = Returns v' → v' ≡ₚ v.
Proof.
  unfold libstdcxx.pop_heap. intros H. returns_inv H.
  apply deref_Returns in Hx, Hx0. apply assign_Returns in Hx1 as [Hlt ->].
  apply adjust_heap_Permutation in H. rewrite H, Nat.add_0_r.
  rewrite insert_hole_Permutation by done. by rewrite list_insert_id.
Qed.

Lemma make_heap_loop_Permutation v first len parent v' :
  libstdcxx.make_heap_loop comp v first len parent = Returns v' → v' ≡ₚ v.
Proof.
  revert v. induction parent as [|parent IH]; intros v H;
    cbn [libstdcxx.make_heap_loop] in H; returns_inv H.
  - apply deref_Returns in Hx. apply adjust_heap_Permutation in H.
    by rewrite H, Nat.add_0_r, list_insert_id.
  - apply deref_Returns in Hx. apply adjust_heap_Permutation in Hx0.
    apply IH in H. by rewrite H, Hx0, list_insert_id.
Qed.

Lemma make_heap_Permutation v first last v' :
  libstdcxx.make_heap comp v first last = Returns v' → v' ≡ₚ v.
Proof.
  unfold libstdcxx.make_heap. destruct (_ <? 2); [by intros [= <-]|].
  apply make_heap_loop_Permutation.
Qed.

Lemma sort_heap_loop_Permutation len v first v' :
  libstdcxx.sort_heap_loop comp len v first = Returns v' → v' ≡ₚ v.
Proof.
  revert v. induction len as [|len IH]; intros v H;
    cbn [libstdcxx.sort_heap_loop] in H.
  { by injection H as <-. }
  destruct (1 <? S len); [|by injection H as <-].
  cbv zeta in H. returns_inv H. apply pop_heap_Permutation in Hx.
  apply IH in H. by rewrite H.
Qed.

Lemma partial_sort_Permutation v first middle last v' :
  libstdcxx.partial_sort comp v first middle last = Returns v' → v' ≡ₚ v.
Proof.
  unfold libstdcxx.partial_sort, libstdcxx.heap_select, libstdcxx.sort_heap.
  intros H. returns_inv H. returns_inv Hx. apply sort_heap_loop_Permutation in H.
  apply make_heap_Permutation in Hx0. rewrite H, <-Hx0.
  revert Hx. apply (for_each_Returns_ind (λ s, s ≡ₚ x0)); [|done].
  intros s i s' Hs Hround. apply outcome_bind_Returns in Hround as ([] & _ & Hround).
  - apply pop_heap_Permutation in Hround. by rewrite Hround.
  - by injection Hround as <-.
Qed.

Lemma introsort_loop_Permutation depth_limit v first last v' :
  libstdcxx.introsort_loop comp depth_limit v first last = Returns v' → v' ≡ₚ v.
Proof.
  revert v first last v'.
  induction depth_limit as [|d IH]; intros v first last v' H;
    cbn [libstdcxx.introsort_loop] in H; destruct (_ <? _);
    try (by injection H as <-).
  - by eapply partial_sort_Permutation.
  - apply outcome_bind_Returns in H as ([cut v1] & Hcut & H). returns_inv H.
    apply unguarded_partition_pivot_Permutation in Hcut.
    apply IH in Hx, H. by rewrite H, Hx.
Qed.

End LibstdcxxSort.

Section LibstdcxxRounds.
Context {A : Type} (comp : A → A → bool).
Implicit Types v : list A.
Local Open Scope nat_scope.

Lemma scan_down_le (p : A) v last i :
  libstdcxx.scan_down comp p v last = Returns i → i ≤ last.
Proof.
  induction last as [|last IH]; cbn [libstdcxx.scan_down]; intros H; returns_inv H.
  - destruct (comp p x); [done|]. by injection H as <-.
  - destruct (comp p x); [apply IH in H; lia|]. by injection H as <-.
Qed.

(** The rounds given to the loops are enough: with more of them the result
    is the same. *)
Lemma unguarded_partition_loop_rounds n m v first last pivot :
  last < n → last < m →
  libstdcxx.unguarded_partition_loop comp n v first last pivot
  = libstdcxx.unguarded_partition_loop comp m v first last pivot.
Proof.
  revert m v first last. induction n as [|n IH]; intros m v first last Hn Hm; [lia|].
  destruct m as [|m]; [lia|].
  cbn [libstdcxx.unguarded_partition_loop].
  destruct (libstdcxx.deref v pivot) as [p| |]; [|done..]. cbn [mbind outcome_bind].
  destruct (libstdcxx.scan_up comp p first (drop first v)) as [first'| |]; [|done..].
  cbn [mbind outcome_bind]. destruct last as [|last]; [done|].
  destruct (libstdcxx.scan_down comp p v last) as [last'| |] eqn:Hdown; [|done..].
  cbn [mbind outcome_bind]. apply scan_down_le in Hdown.
  destruct (negb _); [done|].
  destruct (libstdcxx.iter_swap v first' last') as [v'| |]; [|done..].
  cbn [mbind outcome_bind]. apply IH; lia.
Qed.

Lemma push_heap_loop_rounds n m v first holeIndex topIndex value :
  holeIndex < n → holeIndex < m →
  libstdcxx.push_heap_loop comp n v first holeIndex topIndex value
  = libstdcxx.push_heap_loop comp m v first holeIndex topIndex value.
Proof.
  revert m v holeIndex. induction n as [|n IH]; intros m v holeIndex Hn Hm; [lia|].
  destruct m as [|m]; [lia|]. cbn [libstdcxx.push_heap_loop]. cbv zeta.
  destruct (topIndex <? holeIndex) eqn:Htop; [|done]. apply Nat.ltb_lt in Htop.
  destruct (libstdcxx.deref v (first + (holeIndex - 1) / 2)) as [y| |]; [|done..].
  cbn [mbind outcome_bind]. destruct (comp y value); [|done].
  destruct (libstdcxx.assign v (first + holeIndex) y) as [v'| |]; [|done..].
  cbn [mbind outcome_bind].
  assert ((holeIndex - 1) / 2 ≤ holeIndex - 1) by (apply Nat.Div0.div_le_upper_bound; lia).
  apply IH; lia.
Qed.

Lemma adjust_heap_loop_rounds n m v first len holeIndex secondChild :
  (len - 1) / 2 - secondChild < n → (len - 1) / 2 - secondChild < m →
  libstdcxx.adjust_heap_loop comp n v first len holeIndex secondChild
  = libstdcxx.adjust_heap_loop comp m v first len holeIndex secondChild.
Proof.
  revert m v holeIndex secondChild.
  induction n as [|n IH]; intros m v holeIndex secondChild Hn Hm; [lia|].
  destruct m as [|m]; [lia|]. cbn [libstdcxx.adjust_heap_loop].
  destruct (secondChild <? (len - 1) / 2) eqn:Hlt; [|done]. apply Nat.ltb_lt in Hlt.
  cbv zeta.
  destruct (libstdcxx.comp_iter _ _ _ _) as [c| |]; [|done..]. cbn [mbind outcome_bind].
  destruct (libstdcxx.deref _ _) as [y| |]; [|done..]. cbn [mbind outcome_bind].
  destruct (libstdcxx.assign _ _ _) as [v'| |]; [|done..]. cbn [mbind outcome_bind].
  apply IH; destruct c; lia.
Qed.

End LibstdcxxRounds.

Section LibstdcxxInsertion.
Context {A : Type} (comp : A → A → bool).
Implicit Types v pre post : list A.
Local Open Scope nat_scope.

Lemma lookup_length_middle pre (h : A) post :
  (pre ++ h :: post) !! length pre = Some h.
Proof. by rewrite list_lookup_middle. Qed.

Lemma insert_length_middle pre (h x : A) post :
  <[length pre := x]> (pre ++ h :: post) = pre ++ x :: post.
Proof.
  rewrite <-(Nat.add_0_r (length pre)) at 1. by rewrite insert_app_r.
Qed.

(** The loop of [__unguarded_linear_insert] on a vector [pre ++ h :: post]
    with the hole [h]: [val] goes behind the last element of [pre] that it
    is not less than; there has to be one. *)
Lemma unguarded_linear_insert_loop_spec val pre h post v' :
  libstdcxx.unguarded_linear_insert_loop comp val (pre ++ h :: post) (length pre)
    = Returns v' →
  ∃ pre1 y pre2,
    pre = pre1 ++ y :: pre2 ∧ v' = pre1 ++ y :: val :: pre2 ++ post ∧
    comp val y = false ∧ Forall (λ z, comp val z = true) pre2.
Proof.
  revert h post. induction pre as [|y pre IH] using rev_ind; intros h post H.
  { done. }
  assert (length (pre ++ [y]) = S (length pre)) as Hlen.
  { rewrite length_app. simpl. lia. }
  rewrite Hlen in H.
  cbn [libstdcxx.unguarded_linear_insert_loop] in H. returns_inv H.
  apply deref_Returns in Hx.
  rewrite <-app_assoc in Hx. cbn [app] in Hx.
  rewrite lookup_length_middle in Hx. injection Hx as <-.
  destruct (comp val y) eqn:Hy.
  - returns_inv H. apply assign_Returns in Hx as [_ ->].
    rewrite <-Hlen, insert_length_middle, <-app_assoc in H. cbn [app] in H.
    apply IH in H as (pre1 & y1 & pre2 & -> & -> & Hy1 & Hall).
    exists pre1, y1, (pre2 ++ [y]). split_and!; [| |done|].
    + by rewrite <-!app_assoc.
    + by rewrite <-!app_assoc.
    + apply Forall_app. split; [done|by constructor].
  - apply assign_Returns in H as [_ ->].
    rewrite <-Hlen, insert_length_middle.
    exists pre, y, []. split_and!; [done| |done|constructor].
    by rewrite <-app_assoc.
Qed.

Lemma sorted_by_insert pre1 pre2 (val : A) :
  sorted_by comp (pre1 ++ pre2) →
  (∀ x, x ∈ pre1 → comp val x = false) →
  (∀ z, z ∈ pre2 → comp z val = false) →
  sorted_by comp (pre1 ++ val :: pre2).
Proof.
  unfold sorted_by. intros (Hcross & H1 & H2)%StronglySorted_app Hpre1 Hpre2.
  apply StronglySorted_app_2; [|done|].
  - intros x1 x2 Hx1 [->|Hx2]%elem_of_cons; auto.
  - constructor; [done|]. by apply Forall_forall.
Qed.

(** One round of the two insertion loops, on the whole vector: the element
    [i] goes into the sorted elements before it. *)
Lemma insertion_round_sorted v i v' :
  strict_weak_order_on comp v →
  sorted_by comp (take i v) →
  (0 < i ∧ libstdcxx.insertion_sort_round comp 0 v i = Returns v')
  ∨ libstdcxx.unguarded_linear_insert comp v i = Returns v' →
  v' ≡ₚ v ∧ sorted_by comp (take (S i) v').
Proof.
  intros Hswo Hsorted Hround.
  assert (∀ val, v !! i = Some val →
    libstdcxx.unguarded_linear_insert_loop comp val v i = Returns v' →
    v' ≡ₚ v ∧ sorted_by comp (take (S i) v')) as Hunguarded.
  { intros val Hval Hloop.
    pose proof (take_drop_middle v i val Hval) as Hv.
    pose proof (lookup_lt_Some _ _ _ Hval) as Hi.
    assert (length (take i v) = i) as Hlen by (rewrite length_take; lia).
    assert (libstdcxx.unguarded_linear_insert_loop comp val
              (take i v ++ val :: drop (S i) v) (length (take i v)) = Returns v')
      as Hloop' by (by rewrite Hv, Hlen).
    apply unguarded_linear_insert_loop_spec in Hloop'
      as (pre1 & y & pre2 & Hpre & -> & Hy & Hall).
    assert (take (S i) (pre1 ++ y :: val :: pre2 ++ drop (S i) v)
            = (pre1 ++ [y]) ++ val :: pre2) as ->.
    { replace (pre1 ++ y :: val :: pre2 ++ drop (S i) v)
        with (((pre1 ++ [y]) ++ val :: pre2) ++ drop (S i) v)
        by (by rewrite <-!app_assoc).
      apply take_app_length'.
      rewrite <-Hlen, Hpre, !length_app. simpl. lia. }
    split.
    { rewrite <-Hv at 2. rewrite Hpre, <-!app_assoc. cbn [app].
      do 2 f_equiv. apply Permutation_middle. }
    assert (∀ x, x ∈ take i v → x ∈ v) as Hin.
    { intros x Hx. rewrite <-(take_drop i v). set_solver. }
    assert (val ∈ v) as Hvalin by (by eapply list_elem_of_lookup_2).
    rewrite Hpre in Hsorted, Hin.
    apply sorted_by_insert.
    - by rewrite <-app_assoc.
    - intros x [Hx| ->%list_elem_of_singleton]%elem_of_app; [|done].
      destruct Hswo as (_ & _ & Hneg).
      apply (Hneg val y x); [done|apply Hin; set_solver..|done|].
      unfold sorted_by in Hsorted.
      exact (StronglySorted_app_1_elem_of _ pre1 (y :: pre2) x y Hsorted Hx
               (list_elem_of_here _ _)).
    - intros z Hz. eapply Forall_forall in Hall; [|done].
      eapply strict_weak_order_asym; [done|done|apply Hin; set_solver|done]. }
  destruct Hround as [[Hpos Hround]|Hround].
  - unfold libstdcxx.insertion_sort_round in Hround.
    apply outcome_bind_Returns in Hround as (c & Hc & Hround).
    unfold libstdcxx.comp_iter in Hc. returns_inv Hc. injection Hc as <-.
    apply deref_Returns in Hx, Hx0.
    destruct (comp x x0) eqn:Hlt.
    + returns_inv Hround. apply deref_Returns in Hx1.
      assert (x1 = x) as -> by congruence.
      injection Hround as <-. rewrite Nat.sub_0_r, drop_0.
      pose proof (take_drop_middle v i x Hx) as Hv.
      pose proof (lookup_lt_Some _ _ _ Hx) as Hi.
      assert (length (take i v) = i) as Hlen by (rewrite length_take; lia).
      split.
      { rewrite <-Hv at 3. apply Permutation_middle. }
      assert (take (S i) (x :: take i v ++ drop (S i) v) = [] ++ x :: take i v) as ->.
      { rewrite firstn_cons. cbn [app]. f_equal. by rewrite take_app_length'. }
      assert (∀ z, z ∈ take i v → z ∈ v) as Hin.
      { intros z Hz. rewrite <-(take_drop i v). set_solver. }
      assert (x ∈ v) as Hxin by (by eapply list_elem_of_lookup_2).
      assert (x0 ∈ v) as Hx0in by (by eapply list_elem_of_lookup_2).
      apply sorted_by_insert; [done|set_solver|].
      destruct (take i v) as [|z0 pre] eqn:Hpre.
      { set_solver. }
      assert (z0 = x0) as ->.
      { assert (take i v !! 0 = Some x0) as H0 by (by rewrite lookup_take_lt).
        rewrite Hpre in H0. by injection H0. }
      pose proof (strict_weak_order_asym comp v x x0 Hswo Hxin Hx0in Hlt) as Hgt.
      intros z [->|Hz]%elem_of_cons; [done|].
      destruct Hswo as (_ & _ & Hneg).
      apply (Hneg z x0 x); [apply Hin; set_solver|done..| |done].
      apply StronglySorted_inv in Hsorted as [_ Hall].
      by eapply Forall_forall in Hall.
    + unfold libstdcxx.unguarded_linear_insert in Hround. returns_inv Hround.
      apply deref_Returns in Hx1. by eapply Hunguarded.
  - unfold libstdcxx.unguarded_linear_insert in Hround. returns_inv Hround.
    apply deref_Returns in Hx. by eapply Hunguarded.
Qed.

Lemma sorted_up_to_round v0 v i v' :
  strict_weak_order_on comp v0 →
  sorted_up_to comp v0 i v →
  (0 < i ∧ libstdcxx.insertion_sort_round comp 0 v i = Returns v')
  ∨ libstdcxx.unguarded_linear_insert comp v i = Returns v' →
  sorted_up_to comp v0 (S i) v'.
Proof.
  intros Hswo [Hperm Hsorted] Hround.
  destruct (insertion_round_sorted v i v') as [Hperm' Hsorted']; [|done..|].
  { by eapply strict_weak_order_on_perm. }
  split; [by rewrite Hperm'|done].
Qed.

Lemma insertion_sort_sorted_up_to v0 v last v' :
  strict_weak_order_on comp v0 → v ≡ₚ v0 →
  libstdcxx.insertion_sort comp v 0 last = Returns v' →
  sorted_up_to comp v0 last v'.
Proof.
  intros Hswo Hperm. unfold libstdcxx.insertion_sort.
  destruct last as [|last]; cbn [Nat.eqb].
  { intros [= <-]. split; [done|]. rewrite take_0. constructor. }
  cbn [Nat.add Nat.sub]. rewrite Nat.sub_0_r. intros Hrun.
  apply (for_each_seq_Returns_ind (sorted_up_to comp v0)) in Hrun; [done| |].
  - intros i s s' Hi Hs Hround. apply (sorted_up_to_round v0 s); [done..|].
    left. split; [lia|done].
  - split; [done|]. destruct v as [|x [|y v]]; repeat constructor.
Qed.

Lemma final_insertion_sort_sorted v0 v v' :
  strict_weak_order_on comp v0 → v ≡ₚ v0 →
  libstdcxx.final_insertion_sort comp v 0 (length v) = Returns v' →
  v' ≡ₚ v0 ∧ sorted_by comp v'.
Proof.
  intros Hswo Hperm. unfold libstdcxx.final_insertion_sort.
  assert (∀ v', sorted_up_to comp v0 (length v) v' → v' ≡ₚ v0 ∧ sorted_by comp v') as Hend.
  { intros w [Hw Hsorted]. split; [done|].
    rewrite take_ge in Hsorted; [done|]. by rewrite Hw, Hperm. }
  rewrite Nat.sub_0_r. destruct (_ <? length v) eqn:Hlong.
  - apply Nat.ltb_lt in Hlong. unfold libstdcxx.S_threshold in *.
    intros Hrun. returns_inv Hrun. cbn [Nat.add] in *.
    apply (insertion_sort_sorted_up_to v0) in Hx; [|done..].
    unfold libstdcxx.unguarded_insertion_sort in Hrun.
    apply (for_each_seq_Returns_ind (sorted_up_to comp v0)) in Hrun.
    + apply Hend. by replace (16 + (length v - 16)) with (length v) in Hrun by lia.
    + intros i s s' Hi Hs Hround. apply (sorted_up_to_round v0 s); [done..|by right].
    + done.
  - intros Hrun. apply Hend. by eapply insertion_sort_sorted_up_to.
Qed.

(** A call of the library's sort that returns has rearranged the range
    into a sorted one. *)
Lemma libstdcxx_sort_contract (l r : list A) :
  strict_weak_order_on comp l →
  libstdcxx.sort comp l = Returns r →
  r ≡ₚ l ∧ sorted_by comp r.
Proof.
  intros Hswo. unfold libstdcxx.sort. cbv zeta.
  destruct (0 =? length l) eqn:Hempty.
  { intros [= <-]. split; [done|]. apply Nat.eqb_eq in Hempty.
    destruct l; [constructor|done]. }
  intros Hrun. returns_inv Hrun.
  apply introsort_loop_Permutation in Hx.
  rewrite <-(Permutation_length Hx) in Hrun.
  by apply (final_insertion_sort_sorted l) in Hrun.
Qed.

End LibstdcxxInsertion.

(** ** The sort of the GNU library returns *)

(** On a strict weak ordering the unguarded loops stay in the range: the call
    returns.  The vector holds elements of [l0] throughout. *)

Section LibstdcxxRange.
Context {A : Type} (comp : A → A → bool) (l0 : list A).
Hypothesis Hswo : strict_weak_order_on comp l0.
Implicit Types v : list A.
Local Open Scope nat_scope.

Lemma comp_irrefl x : x ∈ l0 → comp x x = false.
Proof. destruct Hswo as (Hi & _). auto. Qed.

Lemma comp_trans x y z :
  x ∈ l0 → y ∈ l0 → z ∈ l0 → comp x y = true → comp y z = true → comp x z = true.
Proof. destruct Hswo as (_ & Ht & _). eauto. Qed.

Lemma comp_negtrans x y z :
  x ∈ l0 → y ∈ l0 → z ∈ l0 → comp x y = false → comp y z = false → comp x z = false.
Proof. destruct Hswo as (_ & _ & Hn). eauto. Qed.

Lemma comp_asym x y : x ∈ l0 → y ∈ l0 → comp x y = true → comp y x = false.
Proof. intros. by eapply strict_weak_order_asym. Qed.

(** [x < y] and not [x < z]: then not [y < z]. *)
Lemma comp_lt_not_lt x y z :
  x ∈ l0 → y ∈ l0 → z ∈ l0 → comp x y = true → comp x z = false → comp y z = false.
Proof.
  intros Hx Hy Hz Hxy Hxz. destruct (comp y z) eqn:Hyz; [|done].
  by rewrite (comp_trans x y z) in Hxz.
Qed.

Lemma within_lookup v i x : within l0 v → v !! i = Some x → x ∈ l0.
Proof. intros Hv Hx. by eapply Hv, list_elem_of_lookup_2. Qed.

Lemma within_insert v i x : within l0 v → x ∈ l0 → within l0 (<[i := x]> v).
Proof.
  intros Hv Hx y [j Hj]%list_elem_of_lookup_1.
  destruct (decide (j = i)) as [->|Hne].
  - destruct (decide (i < length v)).
    + rewrite list_lookup_insert_eq in Hj by done. by injection Hj as <-.
    + rewrite list_insert_ge in Hj by lia. by eapply within_lookup.
  - rewrite list_lookup_insert_ne in Hj by done. by eapply within_lookup.
Qed.

Lemma within_Permutation v v' : v' ≡ₚ v → within l0 v → within l0 v'.
Proof. intros Hp Hv x Hx. apply Hv. by rewrite <-Hp. Qed.

Lemma same_outside_refl first last v : same_outside first last v v.
Proof. by split. Qed.

Lemma same_outside_trans first last v1 v2 v3 :
  same_outside first last v1 v2 → same_outside first last v2 v3 →
  same_outside first last v1 v3.
Proof.
  intros [Hl1 H1] [Hl2 H2]. split; [congruence|].
  intros i Hi. by rewrite H2, H1.
Qed.

Lemma same_outside_mono first last first' last' v v' :
  first' ≤ first → last ≤ last' →
  same_outside first last v v' → same_outside first' last' v v'.
Proof. intros ?? [Hl H]. split; [done|]. intros i Hi. apply H. lia. Qed.

Lemma same_outside_insert first last v i x :
  first ≤ i < last → same_outside first last v (<[i := x]> v).
Proof.
  intros Hi. split; [apply length_insert|].
  intros j Hj. apply list_lookup_insert_ne. lia.
Qed.

Lemma elem_of_seg first last v x :
  x ∈ seg first last v ↔ ∃ i, first ≤ i < last ∧ v !! i = Some x.
Proof.
  unfold seg. rewrite list_elem_of_lookup. split.
  - intros [k Hk]. apply lookup_take_Some in Hk as [Hk Hlt].
    rewrite lookup_drop in Hk. exists (first + k). split; [lia|done].
  - intros (i & Hi & Hx). exists (i - first).
    rewrite lookup_take_lt by lia. rewrite lookup_drop.
    by replace (first + (i - first)) with i by lia.
Qed.

Lemma seg_Permutation first last v v' :
  first ≤ last ≤ length v → v' ≡ₚ v → same_outside first last v v' →
  seg first last v' ≡ₚ seg first last v.
Proof.
  intros Hr Hp [Hlen Hout].
  assert (∀ w : list A, length w = length v →
            w = take first w ++ seg first last w ++ drop last w) as Hsplit.
  { intros w Hw. unfold seg.
    rewrite <-(take_drop first w) at 1. f_equal.
    rewrite <-(take_drop (last - first) (drop first w)) at 1. f_equal.
    rewrite drop_drop. f_equal. lia. }
  assert (take first v' = take first v) as Htake.
  { apply list_eq. intros i. destruct (decide (i < first)).
    - rewrite !lookup_take_lt by done. apply Hout. lia.
    - by rewrite !lookup_take_ge by lia. }
  assert (drop last v' = drop last v) as Hdrop.
  { apply list_eq. intros i. rewrite !lookup_drop. apply Hout. lia. }
  assert (take first v' ++ seg first last v' ++ drop last v'
          ≡ₚ take first v ++ seg first last v ++ drop last v) as Hp'.
  { by rewrite <-(Hsplit v' Hlen), <-(Hsplit v eq_refl). }
  rewrite Htake, Hdrop in Hp'.
  apply Permutation_app_inv_l in Hp'. by apply Permutation_app_inv_r in Hp'.
Qed.

(** Calls inside the vector return. *)
Lemma deref_lt v i : i < length v → ∃ x, libstdcxx.deref v i = Returns x ∧ v !! i = Some x.
Proof.
  intros Hi. destruct (lookup_lt_is_Some_2 v i Hi) as [x Hx].
  exists x. unfold libstdcxx.deref. by rewrite Hx.
Qed.

Lemma deref_Some v i x : v !! i = Some x → libstdcxx.deref v i = Returns x.
Proof. unfold libstdcxx.deref. by intros ->. Qed.

Lemma assign_lt v i x : i < length v → libstdcxx.assign v i x = Returns (<[i := x]> v).
Proof.
  intros Hi. destruct (lookup_lt_is_Some_2 v i Hi) as [y Hy].
  unfold libstdcxx.assign. by rewrite Hy.
Qed.

Lemma comp_iter_Some v a b x y :
  v !! a = Some x → v !! b = Some y → libstdcxx.comp_iter comp v a b = Returns (comp x y).
Proof.
  intros Ha Hb. unfold libstdcxx.comp_iter.
  by rewrite (deref_Some v a x), (deref_Some v b y).
Qed.

(** *** The heap *)

Lemma parent_children (i h : nat) :
  0 < i → (i - 1) / 2 = h → i = 2 * h + 1 ∨ i = 2 * h + 2.
Proof.
  intros Hi <-. pose proof (Nat.div_mod_eq (i - 1) 2).
  pose proof (Nat.mod_upper_bound (i - 1) 2). lia.
Qed.

Lemma parent_left (h : nat) : (2 * h + 1 - 1) / 2 = h.
Proof.
  replace (2 * h + 1 - 1) with (h * 2) by lia. apply Nat.div_mul. lia.
Qed.

Lemma parent_right (h : nat) : (2 * h + 2 - 1) / 2 = h.
Proof.
  replace (2 * h + 2 - 1) with (1 + h * 2) by lia.
  rewrite Nat.div_add by lia. done.
Qed.

Lemma parent_lt (i : nat) : 0 < i → (i - 1) / 2 < i.
Proof.
  intros Hi. pose proof (Nat.div_mod_eq (i - 1) 2).
  pose proof (Nat.mod_upper_bound (i - 1) 2). lia.
Qed.

Lemma half_bounds (n : nat) : 2 * (n / 2) ≤ n < 2 * (n / 2) + 2.
Proof.
  pose proof (Nat.div_mod_eq n 2). pose proof (Nat.mod_upper_bound n 2). lia.
Qed.

Lemma descends_le k h : descends k h → k ≤ h.
Proof. induction 1; lia. Qed.

Lemma descends_parent k h : descends k h → k < h → descends k ((h - 1) / 2).
Proof.
  destruct 1 as [|h Hh|h Hh]; intros Hlt; [lia|..].
  - by rewrite parent_left.
  - by rewrite parent_right.
Qed.

(** The second loop of [__adjust_heap], which is [__push_heap]: over the
    hole the heap is in order, and [value] is not less than the elements
    under the hole. *)
Lemma push_heap_loop_heap n v first len k holeIndex value :
  first + len ≤ length v → descends k holeIndex → holeIndex < len → holeIndex < n →
  within l0 v → value ∈ l0 →
  heap_from comp first len k v →
  (∀ i y, 0 < i < len → (i - 1) / 2 = holeIndex →
     v !! (first + i) = Some y → comp value y = false) →
  ∃ v', libstdcxx.push_heap_loop comp n v first holeIndex k value = Returns v' ∧
        heap_from comp first len k v' ∧ same_outside first (first + len) v v' ∧
        within l0 v'.
Proof.
  revert v holeIndex. induction n as [|n IH];
    intros v h Hlen Hdesc Hh Hn Hv Hvalue Hheap Hunder; [lia|].
  pose proof (descends_le k h Hdesc) as Hkh.
  cbn [libstdcxx.push_heap_loop]. cbv zeta.
  assert (∃ v', libstdcxx.assign v (first + h) value = Returns v' ∧
            ((k < h → ∀ x, v !! (first + (h - 1) / 2) = Some x → comp x value = false) →
             heap_from comp first len k v' ∧ same_outside first (first + len) v v' ∧
             within l0 v')) as Hstop.
  { exists (<[first + h := value]> v). split; [apply assign_lt; lia|].
    intros Hparent. split_and!.
    - intros i x y Hi Hk Hx Hy.
      destruct (decide (i = h)) as [->|Hih].
      + rewrite list_lookup_insert_eq in Hy by lia. injection Hy as <-.
        pose proof (parent_lt h ltac:(lia)).
        rewrite list_lookup_insert_ne in Hx by lia.
        apply (Hparent ltac:(lia) x Hx).
      + rewrite list_lookup_insert_ne in Hy by lia.
        destruct (decide ((i - 1) / 2 = h)) as [Hp|Hp].
        * rewrite Hp, list_lookup_insert_eq in Hx by lia. injection Hx as <-.
          by eapply Hunder.
        * rewrite list_lookup_insert_ne in Hx by lia. by eapply Hheap.
    - apply same_outside_insert. lia.
    - by apply within_insert. }
  destruct (k <? h) eqn:Htop.
  2:{ destruct Hstop as (v' & -> & Hpost). exists v'. split; [done|].
      apply Hpost. apply Nat.ltb_ge in Htop. lia. }
  apply Nat.ltb_lt in Htop.
  pose proof (parent_lt h ltac:(lia)) as Hplt.
  set (q := (h - 1) / 2) in *.
  destruct (deref_lt v (first + q) ltac:(lia)) as (xq & -> & Hq).
  cbn [mbind outcome_bind].
  destruct (comp xq value) eqn:Hlt.
  2:{ destruct Hstop as (v' & -> & Hpost). exists v'. split; [done|].
      apply Hpost. intros _ x Hx. congruence. }
  rewrite assign_lt by lia. cbn [mbind outcome_bind].
  assert (xq ∈ l0) as Hxq by (by eapply within_lookup).
  pose proof (descends_parent k h Hdesc Htop) as Hdq. fold q in Hdq.
  pose proof (descends_le k q Hdq) as Hkq.
  destruct (IH (<[first + h := xq]> v) q) as (v' & Hrun & Hheap' & Hout & Hv').
  - by rewrite length_insert.
  - done.
  - lia.
  - lia.
  - by apply within_insert.
  - done.
  - intros i x y Hi Hk Hx Hy.
    destruct (decide (i = h)) as [->|Hih].
    + rewrite list_lookup_insert_eq in Hy by lia. injection Hy as <-.
      rewrite list_lookup_insert_ne in Hx by lia. fold q in Hx.
      assert (x = xq) as -> by congruence. by apply comp_irrefl.
    + rewrite list_lookup_insert_ne in Hy by lia.
      destruct (decide ((i - 1) / 2 = h)) as [Hp|Hp].
      * rewrite Hp, list_lookup_insert_eq in Hx by lia. injection Hx as <-.
        destruct (lookup_lt_is_Some_2 v (first + h) ltac:(lia)) as [xh Hxh].
        apply (comp_negtrans xq xh y); [done|by eapply within_lookup..| |].
        -- apply (Hheap h xq xh); [lia|done|done|done].
        -- apply (Hheap i xh y); [done|lia| |done]. by rewrite Hp.
      * rewrite list_lookup_insert_ne in Hx by lia. by eapply Hheap.
  - intros i y Hi Hp Hy.
    destruct (decide (i = h)) as [->|Hih].
    + rewrite list_lookup_insert_eq in Hy by lia. injection Hy as <-.
      by apply comp_asym.
    + rewrite list_lookup_insert_ne in Hy by lia.
      apply (comp_lt_not_lt xq value y); [done|done|by eapply within_lookup|done|].
      apply (Hheap i xq y); [done|lia| |done]. by rewrite Hp.
  - exists v'. split; [done|]. split_and!; [done| |done].
    eapply same_outside_trans; [|done]. apply same_outside_insert. lia.
Qed.

(** The first loop of [__adjust_heap]: the hole goes down to the greater
    child. *)
Lemma adjust_heap_loop_heap n v first len k h :
  first + len ≤ length v → descends k h → h < len → (len - 1) / 2 - h < n →
  within l0 v → heap_but comp first len k h v →
  ∃ v1 h1,
    libstdcxx.adjust_heap_loop comp n v first len h h = Returns (v1, h1, h1) ∧
    descends k h1 ∧ h1 < len ∧ (len - 1) / 2 ≤ h1 ∧ within l0 v1 ∧
    same_outside first (first + len) v v1 ∧ heap_but comp first len k h1 v1.
Proof.
  revert v h. induction n as [|n IH]; intros v h Hlen Hdesc Hh Hn Hv Hheap; [lia|].
  pose proof (descends_le k h Hdesc) as Hkh.
  cbn [libstdcxx.adjust_heap_loop].
  destruct (h <? (len - 1) / 2) eqn:Hlt.
  2:{ apply Nat.ltb_ge in Hlt. exists v, h.
      split_and!; [done..|apply same_outside_refl|done]. }
  apply Nat.ltb_lt in Hlt. cbv zeta.
  pose proof (half_bounds (len - 1)) as Hhalf.
  replace (2 * (h + 1)) with (2 * h + 2) by lia.
  replace (2 * h + 2 - 1) with (2 * h + 1) by lia.
  destruct (lookup_lt_is_Some_2 v (first + (2 * h + 2)) ltac:(lia)) as [xr Hxr].
  destruct (lookup_lt_is_Some_2 v (first + (2 * h + 1)) ltac:(lia)) as [xl Hxl].
  rewrite (comp_iter_Some v _ _ xr xl) by done. cbn [mbind outcome_bind].
  assert (xr ∈ l0) as Hxrin by (by eapply within_lookup).
  assert (xl ∈ l0) as Hxlin by (by eapply within_lookup).
  set (c := if comp xr xl then 2 * h + 1 else 2 * h + 2).
  assert (∃ xc xo o, v !! (first + c) = Some xc ∧ v !! (first + o) = Some xo ∧
            comp xc xo = false ∧ xc ∈ l0 ∧
            (c = 2 * h + 1 ∧ o = 2 * h + 2 ∨ c = 2 * h + 2 ∧ o = 2 * h + 1))
    as (xc & xo & o & Hxc & Hxo & Hco & Hxcin & Hc).
  { unfold c. destruct (comp xr xl) eqn:Hrl.
    - exists xl, xr, (2 * h + 2). split_and!; [done|done| |done|lia].
      by apply comp_asym.
    - exists xr, xl, (2 * h + 1). split_and!; [done|done|done|done|lia]. }
  replace (if comp xr xl then 2 * h + 2 - 1 else 2 * h + 2) with c.
  2:{ unfold c. destruct (comp xr xl); lia. }
  rewrite (deref_Some v _ xc Hxc). cbn [mbind outcome_bind].
  rewrite assign_lt by lia. cbn [mbind outcome_bind].
  destruct (IH (<[first + h := xc]> v) c) as (v1 & h1 & Hrun & Hd1 & Hh1 & Hge & Hv1 & Hout & Hheap1).
  - by rewrite length_insert.
  - destruct Hc as [[-> _]|[-> _]]; by constructor.
  - lia.
  - lia.
  - by apply within_insert.
  - intros i x y Hi Hk _ Hx Hy.
    destruct (decide ((i - 1) / 2 = h)) as [Hp|Hp].
    + rewrite Hp, list_lookup_insert_eq in Hx by lia. injection Hx as <-.
      pose proof (parent_lt i ltac:(lia)).
      rewrite list_lookup_insert_ne in Hy by lia.
      destruct (parent_children i h ltac:(lia) Hp) as [->| ->];
        destruct Hc as [[Hc ->]|[Hc ->]]; rewrite ?Hc in *;
        first [ assert (y = xc) as -> by congruence; by apply comp_irrefl
              | assert (y = xo) as -> by congruence; done ].
    + rewrite list_lookup_insert_ne in Hx by lia.
      destruct (decide (i = h)) as [->|Hih].
      * rewrite list_lookup_insert_eq in Hy by lia. injection Hy as <-.
        pose proof (parent_lt h ltac:(lia)).
        destruct (lookup_lt_is_Some_2 v (first + h) ltac:(lia)) as [xh Hxh].
        apply (comp_negtrans x xh xc); [by eapply within_lookup..|done| |].
        -- apply (Hheap h x xh); [lia|done|lia|done|done].
        -- apply (Hheap c xh xc); [lia| | | |done].
           ++ destruct Hc as [[-> _]|[-> _]]; rewrite ?parent_left, ?parent_right; lia.
           ++ destruct Hc as [[-> _]|[-> _]]; rewrite ?parent_left, ?parent_right; lia.
           ++ destruct Hc as [[-> _]|[-> _]]; by rewrite ?parent_left, ?parent_right.
      * rewrite list_lookup_insert_ne in Hy by lia.
        apply (Hheap i x y); [done|done|lia|done|done].
  - exists v1, h1. split_and!; [done..| |done].
    eapply same_outside_trans; [|done]. apply same_outside_insert. lia.
Qed.

(** [__adjust_heap] puts [value] in its place under [k]: when the heap was in
    order after [k], it is in order from [k] on. *)
Lemma adjust_heap_heap v first k len value :
  first + len ≤ length v → k < len → within l0 v → value ∈ l0 →
  heap_from comp first len (S k) v →
  ∃ v', libstdcxx.adjust_heap comp v first k len value = Returns v' ∧
        heap_from comp first len k v' ∧ same_outside first (first + len) v v' ∧
        within l0 v'.
Proof.
  intros Hlen Hk Hv Hvalue Hheap. unfold libstdcxx.adjust_heap. cbv zeta.
  destruct (adjust_heap_loop_heap (S len) v first len k k)
    as (v1 & h1 & -> & Hd1 & Hh1 & Hge & Hv1 & Hout1 & Hheap1);
    [done|constructor|done|pose proof (half_bounds (len - 1)); lia|done| |].
  { intros i x y Hi Hp Hne Hx Hy. apply (Hheap i x y); [done| |done..].
    specialize (Hne eq_refl). lia. }
  cbn [mbind outcome_bind].
  pose proof (descends_le k h1 Hd1) as Hkh1.
  pose proof (half_bounds (len - 1)) as Hhalf1.
  pose proof (half_bounds (len - 2)) as Hhalf2.
  pose proof (Nat.div_mod_eq len 2) as Hmod.
  pose proof (Nat.mod_upper_bound len 2 ltac:(lia)) as Hmod2.
  pose proof (proj1 Hout1) as Hl1.
  assert (∃ v2 h2,
            (if (len mod 2 =? 0) && (h1 =? (len - 2) / 2)
             then
               libstdcxx.deref v1 (first + (2 * (h1 + 1) - 1)) ≫= λ y,
               libstdcxx.assign v1 (first + h1) y ≫= λ v, Returns (v, 2 * (h1 + 1) - 1)
             else Returns (v1, h1)) = Returns (v2, h2) ∧
            descends k h2 ∧ h2 < len ∧ len ≤ 2 * h2 + 1 ∧ within l0 v2 ∧
            same_outside first (first + len) v1 v2 ∧ heap_from comp first len k v2)
    as (v2 & h2 & -> & Hd2 & Hh2 & Hleaf & Hv2 & Hout2 & Hheap2).
  { destruct ((len mod 2 =? 0) && (h1 =? (len - 2) / 2)) eqn:Htail.
    - apply andb_true_iff in Htail as [Heven Hlast].
      apply Nat.eqb_eq in Heven, Hlast.
      replace (2 * (h1 + 1) - 1) with (2 * h1 + 1) by lia.
      destruct (deref_lt v1 (first + (2 * h1 + 1))) as (y & -> & Hy); [lia|].
      cbn [mbind outcome_bind]. rewrite assign_lt by lia. cbn [mbind outcome_bind].
      assert (y ∈ l0) as Hyin by (by eapply within_lookup).
      exists (<[first + h1 := y]> v1), (2 * h1 + 1).
      split_and!; [done|by constructor|lia|lia|by apply within_insert| |].
      { apply same_outside_insert. lia. }
      intros i x z Hi Hp Hx Hz.
      destruct (decide ((i - 1) / 2 = h1)) as [Hp1|Hp1].
      + rewrite Hp1, list_lookup_insert_eq in Hx by lia. injection Hx as <-.
        destruct (parent_children i h1 ltac:(lia) Hp1) as [->| ->]; [|lia].
        rewrite list_lookup_insert_ne in Hz by lia.
        assert (z = y) as -> by congruence. by apply comp_irrefl.
      + rewrite list_lookup_insert_ne in Hx by lia.
        destruct (decide (i = h1)) as [->|Hih].
        * rewrite list_lookup_insert_eq in Hz by lia. injection Hz as <-.
          pose proof (parent_lt h1 ltac:(lia)).
          destruct (lookup_lt_is_Some_2 v1 (first + h1) ltac:(lia)) as [xh Hxh].
          apply (comp_negtrans x xh y); [by eapply within_lookup..|done| |].
          -- apply (Hheap1 h1 x xh); [lia|done|lia|done|done].
          -- apply (Hheap1 (2 * h1 + 1) xh y); rewrite ?parent_left; [lia|lia|lia|done|done].
        * rewrite list_lookup_insert_ne in Hz by lia.
          apply (Hheap1 i x z); [done|done|lia|done|done].
    - apply andb_false_iff in Htail.
      assert (len ≤ 2 * h1 + 1) as Hleaf.
      { destruct Htail as [Hodd%Nat.eqb_neq|Hnot%Nat.eqb_neq]; lia. }
      exists v1, h1. split_and!; [done..|apply same_outside_refl|].
      intros i x y Hi Hp Hx Hy. apply (Hheap1 i x y); [done|done| |done|done].
      intros ->. intros Hpk. destruct (parent_children i k ltac:(lia) Hpk); lia. }
  cbn [mbind outcome_bind]. unfold libstdcxx.push_heap.
  destruct (push_heap_loop_heap (S h2) v2 first len k h2 value)
    as (v' & -> & Hheap' & Hout' & Hv'); [|done|done|lia|done|done|done| |].
  { destruct Hout2 as [-> _]. by destruct Hout1 as [-> _]. }
  { intros i y Hi Hp. destruct (parent_children i h2 ltac:(lia) Hp); lia. }
  exists v'. split_and!; [done|done| |done].
  eapply same_outside_trans; [|done]. by eapply same_outside_trans.
Qed.

Lemma make_heap_loop_heap v first len k :
  first + len ≤ length v → k < len → within l0 v → heap_from comp first len (S k) v →
  ∃ v', libstdcxx.make_heap_loop comp v first len k = Returns v' ∧
        heap_from comp first len 0 v' ∧ v' ≡ₚ v ∧ same_outside first (first + len) v v'.
Proof.
  revert v. induction k as [|k IH]; intros v Hlen Hk Hv Hheap;
    cbn [libstdcxx.make_heap_loop].
  - destruct (deref_lt v first ltac:(lia)) as (value & -> & Hvalue).
    cbn [mbind outcome_bind].
    destruct (adjust_heap_heap v first 0 len value) as (v' & Hrun & Hheap' & Hout & Hv');
      [done|done|done|by eapply within_lookup|done|].
    exists v'. split_and!; [done|done| |done].
    apply adjust_heap_Permutation in Hrun. by rewrite Hrun, Nat.add_0_r, list_insert_id.
  - destruct (deref_lt v (first + S k) ltac:(lia)) as (value & -> & Hvalue).
    cbn [mbind outcome_bind].
    destruct (adjust_heap_heap v first (S k) len value)
      as (v1 & Hrun & Hheap1 & Hout1 & Hv1);
      [done|done|done|by eapply within_lookup|done|].
    rewrite Hrun. cbn [mbind outcome_bind].
    apply adjust_heap_Permutation in Hrun. rewrite list_insert_id in Hrun by done.
    destruct (IH v1) as (v' & -> & Hheap' & Hperm & Hout);
      [by rewrite (proj1 Hout1)|lia|done|done|].
    exists v'. split_and!; [done|done|by rewrite Hperm|].
    by eapply same_outside_trans.
Qed.

Lemma make_heap_heap v first last :
  first ≤ last ≤ length v → within l0 v →
  ∃ v', libstdcxx.make_heap comp v first last = Returns v' ∧
        heap_from comp first (last - first) 0 v' ∧ v' ≡ₚ v ∧ same_outside first last v v'.
Proof.
  intros Hr Hv. unfold libstdcxx.make_heap.
  destruct (last - first <? 2) eqn:Hshort.
  - apply Nat.ltb_lt in Hshort. exists v.
    split_and!; [done| |done|apply same_outside_refl].
    intros i x y Hi. lia.
  - apply Nat.ltb_ge in Hshort. cbv zeta.
    pose proof (half_bounds (last - first - 2)) as Hhalf.
    destruct (make_heap_loop_heap v first (last - first) ((last - first - 2) / 2))
      as (v' & -> & Hheap & Hperm & Hout); [lia|lia|done| |].
    { intros i x y Hi Hp. pose proof (half_bounds (i - 1)). lia. }
    exists v'. split_and!; [done..|].
    by replace (first + (last - first)) with last in Hout by lia.
Qed.

(** No element of a heap is greater than the first. *)
Lemma heap_root_max v first len i x y :
  first + len ≤ length v → within l0 v → heap_from comp first len 0 v →
  i < len → v !! first = Some x → v !! (first + i) = Some y → comp x y = false.
Proof.
  intros Hlen Hv Hheap. revert y.
  induction i as [i IH] using lt_wf_ind. intros y Hi Hx Hy.
  destruct (decide (i = 0)) as [->|Hpos].
  { rewrite Nat.add_0_r in Hy. assert (y = x) as -> by congruence.
    apply comp_irrefl. by eapply within_lookup. }
  pose proof (parent_lt i ltac:(lia)) as Hplt.
  destruct (lookup_lt_is_Some_2 v (first + (i - 1) / 2) ltac:(lia)) as [z Hz].
  apply (comp_negtrans x z y); [by eapply within_lookup..| |].
  - apply (IH ((i - 1) / 2)); [done|lia|done|done].
  - apply (Hheap i z y); [lia|lia|done|done].
Qed.

Lemma sort_heap_loop_sorted m v first len :
  m ≤ len → first + len ≤ length v → within l0 v →
  heap_from comp first m 0 v → sorted_tail comp first m len v →
  ∃ v', libstdcxx.sort_heap_loop comp m v first = Returns v' ∧
        v' ≡ₚ v ∧ same_outside first (first + len) v v' ∧
        ∀ i j x y, i < j → j < len →
          v' !! (first + i) = Some x → v' !! (first + j) = Some y → comp y x = false.
Proof.
  revert v. induction m as [|m IH]; intros v Hm Hlen Hv Hheap [Htail Hcross];
    cbn [libstdcxx.sort_heap_loop].
  { exists v. split_and!; [done|done|apply same_outside_refl|].
    intros i j x y Hij Hj. apply Htail; lia. }
  destruct (1 <? S m) eqn:Hlong.
  2:{ apply Nat.ltb_ge in Hlong. assert (m = 0) as -> by lia.
      exists v. split_and!; [done|done|apply same_outside_refl|].
      intros i j x y Hij Hj Hx Hy. destruct (decide (i = 0)) as [->|Hi].
      - apply (Hcross x j y); [|lia|done]. apply elem_of_seg. exists first.
        rewrite Nat.add_0_r in Hx. split; [lia|done].
      - apply (Htail i j x y); [lia|done..]. }
  apply Nat.ltb_lt in Hlong. cbv zeta. unfold libstdcxx.pop_heap.
  destruct (deref_lt v (first + m) ltac:(lia)) as (value & -> & Hvalue).
  cbn [mbind outcome_bind].
  destruct (deref_lt v first ltac:(lia)) as (root & -> & Hroot).
  cbn [mbind outcome_bind]. rewrite assign_lt by lia. cbn [mbind outcome_bind].
  replace (first + m - first) with m by lia.
  set (v1 := <[first + m := root]> v).
  assert (length v1 = length v) as Hl1 by apply length_insert.
  assert (root ∈ l0) as Hrootin by (by eapply within_lookup).
  assert (value ∈ l0) as Hvaluein by (by eapply within_lookup).
  assert (within l0 v1) as Hv1 by (by apply within_insert).
  destruct (adjust_heap_heap v1 first 0 m value)
    as (v2 & Hrun & Hheap2 & Hout2 & Hv2); [lia|lia|done|done| |].
  { intros i x y Hi Hp Hx Hy. pose proof (parent_lt i ltac:(lia)).
    unfold v1 in Hx, Hy. rewrite list_lookup_insert_ne in Hx, Hy by lia.
    apply (Hheap i x y); [lia|lia|done|done]. }
  rewrite Hrun. cbn [mbind outcome_bind].
  pose proof (proj1 Hout2) as Hl2.
  assert (v2 ≡ₚ v) as Hperm2.
  { apply adjust_heap_Permutation in Hrun. rewrite Hrun, Nat.add_0_r. unfold v1.
    rewrite insert_hole_Permutation by (done || lia). by rewrite list_insert_id. }
  assert (∀ e, e ∈ seg first (first + m) v2 → e ∈ seg first (first + S m) v) as Hsub.
  { intros e He.
    assert (seg first (first + m) v2 ≡ₚ seg first (first + m) (<[first := value]> v1))
      as Hseg.
    { apply seg_Permutation.
      - rewrite length_insert. lia.
      - apply adjust_heap_Permutation in Hrun. by rewrite Nat.add_0_r in Hrun.
      - split; [by rewrite length_insert|].
        intros i Hi. rewrite (proj2 Hout2) by lia.
        symmetry. apply list_lookup_insert_ne. lia. }
    rewrite Hseg in He. apply elem_of_seg in He as (i & Hi & He).
    apply elem_of_seg. destruct (decide (i = first)) as [->|Hne].
    - rewrite list_lookup_insert_eq in He by lia. injection He as <-.
      exists (first + m). split; [lia|done].
    - rewrite list_lookup_insert_ne in He by done. unfold v1 in He.
      rewrite list_lookup_insert_ne in He by lia. exists i. split; [lia|done]. }
  destruct (IH v2) as (v' & -> & Hperm & Hout & Hsorted); [lia|lia|done|done| |].
  { split.
    - intros i j x y Hij Hj Hx Hy.
      rewrite (proj2 Hout2) in Hx, Hy by lia. unfold v1 in Hx, Hy.
      rewrite list_lookup_insert_ne in Hy by lia.
      destruct (decide (i = m)) as [->|Hi].
      + rewrite list_lookup_insert_eq in Hx by lia. injection Hx as <-.
        apply (Hcross root j y); [|lia|done].
        apply elem_of_seg. exists first. split; [lia|done].
      + rewrite list_lookup_insert_ne in Hx by lia.
        apply (Htail i j x y); [lia|done..].
    - intros e j z He Hj Hz. pose proof (Hsub e He) as He'.
      rewrite (proj2 Hout2) in Hz by lia. unfold v1 in Hz.
      destruct (decide (j = m)) as [->|Hjm].
      + rewrite list_lookup_insert_eq in Hz by lia. injection Hz as <-.
        apply elem_of_seg in He' as (i & Hi & He').
        apply (heap_root_max v first (S m) (i - first) root e); [lia|done|done|lia|done|].
        by replace (first + (i - first)) with i by lia.
      + rewrite list_lookup_insert_ne in Hz by lia.
        apply (Hcross e j z); [done|lia|done]. }
  exists v'. split_and!; [done|by rewrite Hperm| |done].
  eapply same_outside_trans; [|done].
  eapply same_outside_trans.
  - apply (same_outside_insert first (first + len) v (first + m) root). lia.
  - eapply same_outside_mono; [| |done]; lia.
Qed.

(** [__partial_sort(first, last, last)] is heap sort: it puts the range in
    order. *)
Lemma partial_sort_sorted v first last :
  first ≤ last ≤ length v → within l0 v →
  ∃ v', libstdcxx.partial_sort comp v first last last = Returns v' ∧
        v' ≡ₚ v ∧ same_outside first last v v' ∧
        ∀ i j x y, first ≤ i → i < j → j < last →
          v' !! i = Some x → v' !! j = Some y → comp y x = false.
Proof.
  intros Hr Hv. unfold libstdcxx.partial_sort, libstdcxx.heap_select, libstdcxx.sort_heap.
  destruct (make_heap_heap v first last Hr Hv) as (v1 & -> & Hheap & Hperm1 & Hout1).
  cbn [mbind outcome_bind]. rewrite Nat.sub_diag. cbn [seq for_each mbind outcome_bind].
  destruct (sort_heap_loop_sorted (last - first) v1 first (last - first))
    as (v' & -> & Hperm & Hout & Hsorted).
  - done.
  - rewrite (proj1 Hout1). lia.
  - by eapply within_Permutation.
  - done.
  - split; [intros; lia|intros; lia].
  - exists v'. split_and!; [done|by rewrite Hperm| |].
    + eapply same_outside_trans; [done|].
      by replace (first + (last - first)) with last in Hout by lia.
    + intros i j x y Hi Hij Hj Hx Hy.
      apply (Hsorted (i - first) (j - first) x y); [lia|lia|..].
      * by replace (first + (i - first)) with i by lia.
      * by replace (first + (j - first)) with j by lia.
Qed.
(** *** The partition *)

Lemma scan_up_stops p v f u xu :
  f ≤ u → v !! u = Some xu → comp xu p = false →
  ∃ f', libstdcxx.scan_up comp p f (drop f v) = Returns f' ∧ f ≤ f' ≤ u ∧
        (∃ x, v !! f' = Some x ∧ comp x p = false) ∧
        ∀ i x, f ≤ i < f' → v !! i = Some x → comp x p = true.
Proof.
  intros Hfu Hu Hstop. remember (u - f) as d eqn:Hd. revert f Hfu Hd.
  induction d as [|d IH]; intros f Hfu Hd.
  - assert (f = u) as -> by lia. rewrite (drop_S v xu u Hu).
    cbn [libstdcxx.scan_up]. rewrite Hstop. exists u.
    split_and!; [done|lia|lia|by exists xu|intros; lia].
  - pose proof (lookup_lt_Some _ _ _ Hu) as Hulen.
    destruct (lookup_lt_is_Some_2 v f ltac:(lia)) as [x Hx].
    rewrite (drop_S v x f Hx). cbn [libstdcxx.scan_up].
    destruct (comp x p) eqn:Hxp.
    + destruct (IH (S f)) as (f' & -> & Hf' & Hstop' & Hpassed); [lia|lia|].
      exists f'. split_and!; [done|lia|lia|done|].
      intros i y Hi Hy. destruct (decide (i = f)) as [->|Hne].
      * congruence.
      * apply (Hpassed i y); [lia|done].
    + exists f. split_and!; [done|lia|lia|by exists x|intros; lia].
Qed.

Lemma scan_down_stops p v l d xd :
  d ≤ l → l < length v → v !! d = Some xd → comp p xd = false →
  ∃ l', libstdcxx.scan_down comp p v l = Returns l' ∧ d ≤ l' ≤ l ∧
        (∃ y, v !! l' = Some y ∧ comp p y = false) ∧
        ∀ j y, l' < j ≤ l → v !! j = Some y → comp p y = true.
Proof.
  intros Hdl Hl Hd Hstop. induction l as [|l IH]; cbn [libstdcxx.scan_down].
  - assert (d = 0) as -> by lia. rewrite (deref_Some v 0 xd Hd).
    cbn [mbind outcome_bind]. rewrite Hstop. exists 0.
    split_and!; [done|lia|lia|by exists xd|intros; lia].
  - destruct (deref_lt v (S l) Hl) as (y & -> & Hy). cbn [mbind outcome_bind].
    destruct (comp p y) eqn:Hpy.
    + assert (d ≠ S l) as Hne by (intros ->; congruence).
      destruct IH as (l' & -> & Hl' & Hstop' & Hpassed); [lia|lia|].
      exists l'. split_and!; [done|lia|lia|done|].
      intros j z Hj Hz. destruct (decide (j = S l)) as [->|Hjl].
      * congruence.
      * apply (Hpassed j z); [lia|done].
    + exists (S l). split_and!; [done|lia|lia|by exists y|intros; lia].
Qed.

Lemma iter_swap_Some v a b xa xb :
  v !! a = Some xa → v !! b = Some xb →
  libstdcxx.iter_swap v a b = Returns (<[b := xa]> (<[a := xb]> v)).
Proof.
  intros Ha Hb. unfold libstdcxx.iter_swap.
  rewrite (deref_Some v a xa Ha), (deref_Some v b xb Hb). cbn [mbind outcome_bind].
  rewrite assign_lt by (by eapply lookup_lt_Some). cbn [mbind outcome_bind].
  apply assign_lt. rewrite length_insert. by eapply lookup_lt_Some.
Qed.

(** The loop of [__unguarded_partition] with the pivot [p] at [pivot]: the
    elements before [f] are not greater than [p], those from [l] on are not
    less, and each of the two scans has an element that stops it. *)
Lemma unguarded_partition_loop_spec n v f l pivot p last :
  within l0 v → v !! pivot = Some p → pivot < f → l ≤ last → last ≤ length v → l < n →
  (∀ i x, pivot < i < f → v !! i = Some x → comp p x = false) →
  (∀ j y, l ≤ j < last → v !! j = Some y → comp y p = false) →
  (∃ u xu, f ≤ u < last ∧ v !! u = Some xu ∧ comp xu p = false) →
  (∃ d xd, pivot < d < l ∧ v !! d = Some xd ∧ comp p xd = false) →
  ∃ cut v',
    libstdcxx.unguarded_partition_loop comp n v f l pivot = Returns (cut, v') ∧
    pivot < cut < last ∧ same_outside (S pivot) last v v' ∧
    (∀ i x, pivot < i < cut → v' !! i = Some x → comp p x = false) ∧
    (∀ j y, cut ≤ j < last → v' !! j = Some y → comp y p = false).
Proof.
  revert v f l. induction n as [|n IH];
    intros v f l Hv Hp Hf Hl Hlast Hn Hleft Hright (u & xu & Hu & Hxu & Hup)
      (d & xd & Hd & Hxd & Hdown); [lia|].
  assert (p ∈ l0) as Hpin by (by eapply within_lookup).
  cbn [libstdcxx.unguarded_partition_loop].
  rewrite (deref_Some v pivot p Hp). cbn [mbind outcome_bind].
  destruct (scan_up_stops p v f u xu) as (f' & -> & Hf' & (xf & Hxf & Hfstop) & Hfpassed);
    [lia|done|done|].
  cbn [mbind outcome_bind]. destruct l as [|l]; [lia|].
  destruct (scan_down_stops p v l d xd) as (l' & -> & Hl' & (xl & Hxl & Hlstop) & Hlpassed);
    [lia|lia|done|done|].
  cbn [mbind outcome_bind].
  assert (∀ i x, pivot < i < f' → v !! i = Some x → comp p x = false) as Hleft'.
  { intros i x Hi Hx. destruct (decide (i < f)); [apply (Hleft i x); [lia|done]|].
    apply comp_asym; [by eapply within_lookup|done|]. apply (Hfpassed i x); [lia|done]. }
  assert (∀ j y, l' < j < last → v !! j = Some y → comp y p = false) as Hright'.
  { intros j y Hj Hy. destruct (decide (S l ≤ j)); [apply (Hright j y); [lia|done]|].
    apply comp_asym; [done|by eapply within_lookup|]. apply (Hlpassed j y); [lia|done]. }
  destruct (f' <? l') eqn:Hcross; cbn [negb].
  - apply Nat.ltb_lt in Hcross.
    rewrite (iter_swap_Some v f' l' xf xl) by done. cbn [mbind outcome_bind].
    set (v2 := <[l' := xf]> (<[f' := xl]> v)).
    assert (length v2 = length v) as Hl2 by (unfold v2; by rewrite !length_insert).
    assert (∀ i, i ≠ f' → i ≠ l' → v2 !! i = v !! i) as Hother.
    { intros i ??. unfold v2. by rewrite !list_lookup_insert_ne. }
    assert (v2 !! f' = Some xl) as Hv2f.
    { unfold v2. rewrite list_lookup_insert_ne by lia.
      apply list_lookup_insert_eq. lia. }
    assert (v2 !! l' = Some xf) as Hv2l.
    { unfold v2. apply list_lookup_insert_eq. rewrite length_insert. lia. }
    destruct (IH v2 (S f') l') as (cut & v' & -> & Hcut & Hout & HL & HR).
    + unfold v2. apply within_insert; [apply within_insert; [done|]|];
        by eapply within_lookup.
    + rewrite Hother by lia. done.
    + lia.
    + lia.
    + lia.
    + lia.
    + intros i x Hi Hx. destruct (decide (i = f')) as [->|Hne].
      * congruence.
      * rewrite Hother in Hx by lia. apply (Hleft' i x); [lia|done].
    + intros j y Hj Hy. destruct (decide (j = l')) as [->|Hne].
      * congruence.
      * rewrite Hother in Hy by lia. apply (Hright' j y); [lia|done].
    + exists l', xf. split_and!; [lia|lia|done|done].
    + exists f', xl. split_and!; [lia|lia|done|done].
    + exists cut, v'. split_and!; [done|lia|lia| |done|done].
      eapply same_outside_trans; [|done]. split; [done|].
      intros i Hi. apply Hother; lia.
  - apply Nat.ltb_ge in Hcross. exists f', v.
    split_and!; [done|lia|lia|apply same_outside_refl|done|].
    intros j y Hj Hy. destruct (decide (l' < j)); [apply (Hright' j y); [lia|done]|].
    assert (j = f') as -> by lia. congruence.
Qed.

(** [__move_median_to_first] puts at [first] one of the three elements, and
    of the other two one is not less than it and one is not greater. *)
Lemma move_median_to_first_spec v first a b c :
  within l0 v → first < a → a < b → b < c → c < length v →
  ∃ v' p,
    libstdcxx.move_median_to_first comp v first a b c = Returns v' ∧
    v' !! first = Some p ∧ same_outside first (S c) v v' ∧
    (∃ u xu, (u = a ∨ u = b ∨ u = c) ∧ v' !! u = Some xu ∧ comp xu p = false) ∧
    (∃ d xd, (d = a ∨ d = b ∨ d = c) ∧ v' !! d = Some xd ∧ comp p xd = false).
Proof.
  intros Hv Hfa Hab Hbc Hc.
  destruct (lookup_lt_is_Some_2 v first ltac:(lia)) as [x0 H0].
  destruct (lookup_lt_is_Some_2 v a ltac:(lia)) as [xa Ha].
  destruct (lookup_lt_is_Some_2 v b ltac:(lia)) as [xb Hb].
  destruct (lookup_lt_is_Some_2 v c ltac:(lia)) as [xc Hxc].
  assert (xa ∈ l0 ∧ xb ∈ l0 ∧ xc ∈ l0) as (Hain & Hbin & Hcin).
  { split_and!; by eapply within_lookup. }
  assert (∀ m xm, (m = a ∨ m = b ∨ m = c) → v !! m = Some xm →
            ∃ v', libstdcxx.iter_swap v first m = Returns v' ∧
                  v' !! first = Some xm ∧ same_outside first (S c) v v' ∧
                  ∀ i, i ≠ first → i ≠ m → v' !! i = v !! i) as Hswap.
  { intros m xm Hm Hxm. exists (<[m := x0]> (<[first := xm]> v)).
    split_and!; [by apply iter_swap_Some| | |].
    - rewrite list_lookup_insert_ne by lia. apply list_lookup_insert_eq. lia.
    - split; [by rewrite !length_insert|].
      intros i Hi. rewrite !list_lookup_insert_ne by lia. done.
    - intros i ??. by rewrite !list_lookup_insert_ne. }
  unfold libstdcxx.move_median_to_first.
  rewrite (comp_iter_Some v a b xa xb), (comp_iter_Some v b c xb xc),
    (comp_iter_Some v a c xa xc) by done.
  cbn [mbind outcome_bind].
  destruct (comp xa xb) eqn:Hxab; [destruct (comp xb xc) eqn:Hxbc|];
    [|destruct (comp xa xc) eqn:Hxac| destruct (comp xa xc) eqn:Hxac;
                                       [|destruct (comp xb xc) eqn:Hxbc]].
  - destruct (Hswap b xb) as (v' & -> & Hp & Hout & Hother); [auto|done|].
    exists v', xb. split_and!; [done..| |].
    + exists c, xc. rewrite Hother by lia. split_and!; [auto|done|by apply comp_asym].
    + exists a, xa. rewrite Hother by lia. split_and!; [auto|done|by apply comp_asym].
  - destruct (Hswap c xc) as (v' & -> & Hp & Hout & Hother); [auto|done|].
    exists v', xc. split_and!; [done..| |].
    + exists b, xb. rewrite Hother by lia. split_and!; [auto|done|done].
    + exists a, xa. rewrite Hother by lia. split_and!; [auto|done|by apply comp_asym].
  - destruct (Hswap a xa) as (v' & -> & Hp & Hout & Hother); [auto|done|].
    exists v', xa. split_and!; [done..| |].
    + exists b, xb. rewrite Hother by lia. split_and!; [auto|done|by apply comp_asym].
    + exists c, xc. rewrite Hother by lia. split_and!; [auto|done|done].
  - destruct (Hswap a xa) as (v' & -> & Hp & Hout & Hother); [auto|done|].
    exists v', xa. split_and!; [done..| |].
    + exists c, xc. rewrite Hother by lia. split_and!; [auto|done|by apply comp_asym].
    + exists b, xb. rewrite Hother by lia. split_and!; [auto|done|done].
  - destruct (Hswap c xc) as (v' & -> & Hp & Hout & Hother); [auto|done|].
    exists v', xc. split_and!; [done..| |].
    + exists a, xa. rewrite Hother by lia. split_and!; [auto|done|done].
    + exists b, xb. rewrite Hother by lia. split_and!; [auto|done|by apply comp_asym].
  - destruct (Hswap b xb) as (v' & -> & Hp & Hout & Hother); [auto|done|].
    exists v', xb. split_and!; [done..| |].
    + exists a, xa. rewrite Hother by lia. split_and!; [auto|done|done].
    + exists c, xc. rewrite Hother by lia. split_and!; [auto|done|done].
Qed.

(** [__unguarded_partition_pivot] on a range of at least four elements: no
    element before the cut is greater than an element from the cut on. *)
Lemma unguarded_partition_pivot_spec v first last :
  first + 4 ≤ last → last ≤ length v → within l0 v →
  ∃ cut v',
    libstdcxx.unguarded_partition_pivot comp v first last = Returns (cut, v') ∧
    first < cut < last ∧ v' ≡ₚ v ∧ same_outside first last v v' ∧
    ∀ i x j y, first ≤ i < cut → cut ≤ j < last →
      v' !! i = Some x → v' !! j = Some y → comp y x = false.
Proof.
  intros Hsize Hlast Hv. unfold libstdcxx.unguarded_partition_pivot. cbv zeta.
  pose proof (half_bounds (last - first)) as Hhalf.
  destruct (move_median_to_first_spec v first (first + 1)
              (first + (last - first) / 2) (last - 1))
    as (v1 & p & Hmedian & Hp & Hout1 & (u & xu & Hu & Hxu & Hup)
        & (d & xd & Hd & Hxd & Hdown)); [done|lia..|].
  rewrite Hmedian. cbn [mbind outcome_bind].
  pose proof (move_median_to_first_Permutation comp _ _ _ _ _ _ Hmedian) as Hperm1.
  assert (within l0 v1) as Hv1 by (by eapply within_Permutation).
  pose proof (proj1 Hout1) as Hl1.
  unfold libstdcxx.unguarded_partition.
  destruct (unguarded_partition_loop_spec (S last) v1 (first + 1) last first p last)
    as (cut & v' & Hloop & Hcut & Hout & Hleft & Hright);
    [done|done|lia|lia|lia|lia|intros; lia|intros; lia| | |].
  { exists u, xu. split_and!; [lia|lia|done|done]. }
  { exists d, xd. split_and!; [lia|lia|done|done]. }
  rewrite Hloop.
  pose proof (unguarded_partition_loop_Permutation comp _ _ _ _ _ _ _ Hloop) as Hperm.
  exists cut, v'. split_and!; [done|lia|lia|by rewrite Hperm| |].
  - eapply same_outside_trans.
    + eapply same_outside_mono; [| |exact Hout1]; lia.
    + eapply same_outside_mono; [| |exact Hout]; lia.
  - intros i x j y Hi Hj Hx Hy.
    assert (within l0 v') as Hv' by (by eapply within_Permutation).
    pose proof (within_lookup v1 first p Hv1 Hp) as Hpin.
    pose proof (within_lookup v' i x Hv' Hx) as Hxin.
    pose proof (within_lookup v' j y Hv' Hy) as Hyin.
    apply (comp_negtrans y p x); [done..| |].
    + apply (Hright j y); [lia|done].
    + destruct (decide (i = first)) as [->|Hne].
      * rewrite (proj2 Hout) in Hx by lia. assert (x = p) as -> by congruence.
        by apply comp_irrefl.
      * apply (Hleft i x); [lia|done].
Qed.
(** *** The loop of the introsort *)

Lemma introsort_loop_guarded depth_limit v first last :
  first ≤ last ≤ length v → within l0 v →
  ∃ v', libstdcxx.introsort_loop comp depth_limit v first last = Returns v' ∧
        v' ≡ₚ v ∧ same_outside first last v v' ∧ guarded comp first last v'.
Proof.
  revert v first last. induction depth_limit as [|d IH]; intros v first last Hr Hv;
    cbn [libstdcxx.introsort_loop]; unfold libstdcxx.S_threshold;
    destruct (16 <? last - first) eqn:Hlong;
    try (apply Nat.ltb_ge in Hlong; exists v;
         split_and!; [done|done|apply same_outside_refl|intros i x Hi; lia]).
  - destruct (partial_sort_sorted v first last Hr Hv) as (v' & -> & Hperm & Hout & Hsorted).
    exists v'. split_and!; [done..|].
    intros i x Hi Hx.
    destruct (lookup_lt_is_Some_2 v' (i - 1)) as [y Hy].
    { apply lookup_lt_Some in Hx. lia. }
    exists (i - 1), y. split_and!; [lia|lia|done|].
    apply (Hsorted (i - 1) i y x); [lia|lia|lia|done|done].
  - apply Nat.ltb_lt in Hlong.
    destruct (unguarded_partition_pivot_spec v first last)
      as (cut & v1 & -> & Hcut & Hperm1 & Hout1 & Hcross); [lia|lia|done|].
    cbn [mbind outcome_bind].
    pose proof (proj1 Hout1) as Hl1.
    assert (within l0 v1) as Hv1 by (by eapply within_Permutation).
    destruct (IH v1 cut last) as (v2 & -> & Hperm2 & Hout2 & Hg2); [lia|done|].
    cbn [mbind outcome_bind].
    pose proof (proj1 Hout2) as Hl2.
    assert (within l0 v2) as Hv2 by (by eapply within_Permutation).
    destruct (IH v2 first cut) as (v3 & -> & Hperm3 & Hout3 & Hg3); [lia|done|].
    exists v3. split_and!; [done|by rewrite Hperm3, Hperm2| |].
    { eapply same_outside_trans; [done|]. eapply same_outside_trans.
      - eapply same_outside_mono; [| |exact Hout2]; lia.
      - eapply same_outside_mono; [| |exact Hout3]; lia. }
    intros i x Hi Hx.
    destruct (decide (i < cut)) as [Hleft|Hright].
    { destruct (Hg3 i x) as (j & y & Hj & Hy & Hxy); [lia|done|].
      exists j, y. split_and!; [lia|lia|done|done]. }
    rewrite (proj2 Hout3) in Hx by lia.
    destruct (decide (cut + 16 ≤ i)) as [Hfar|Hnear].
    { destruct (Hg2 i x) as (j & y & Hj & Hy & Hxy); [lia|done|].
      exists j, y. rewrite (proj2 Hout3) by lia. split_and!; [lia|lia|done|done]. }
    destruct (lookup_lt_is_Some_2 v3 first) as [y Hy].
    { rewrite (proj1 Hout3). lia. }
    exists first, y. split_and!; [lia|lia|done|].
    assert (x ∈ seg cut last v1) as Hxseg.
    { rewrite <-(seg_Permutation cut last v1 v2); [|lia|done|done].
      apply elem_of_seg. exists i. split; [lia|done]. }
    assert (y ∈ seg first cut v2) as Hyseg.
    { rewrite <-(seg_Permutation first cut v2 v3); [|lia|done|done].
      apply elem_of_seg. exists first. split; [lia|done]. }
    apply elem_of_seg in Hxseg as (i' & Hi' & Hxi').
    apply elem_of_seg in Hyseg as (j' & Hj' & Hyj').
    rewrite (proj2 Hout2) in Hyj' by lia.
    apply (Hcross j' y i' x); [lia|lia|done|done].
Qed.

(** *** The insertion sort at the end *)

Lemma unguarded_linear_insert_loop_returns val v last :
  last < length v →
  (∃ j y, j < last ∧ v !! j = Some y ∧ comp val y = false) →
  ∃ v', libstdcxx.unguarded_linear_insert_loop comp val v last = Returns v' ∧
        v' ≡ₚ <[last := val]> v ∧ same_outside 0 (S last) v v'.
Proof.
  revert v. induction last as [|next IH]; intros v Hlast (j & y & Hj & Hy & Hstop);
    [lia|].
  cbn [libstdcxx.unguarded_linear_insert_loop].
  destruct (deref_lt v next ltac:(lia)) as (z & -> & Hz). cbn [mbind outcome_bind].
  destruct (comp val z) eqn:Hvz.
  - rewrite assign_lt by done. cbn [mbind outcome_bind].
    assert (j ≠ next) as Hne by (intros ->; congruence).
    destruct (IH (<[S next := z]> v)) as (v' & -> & Hperm & Hout).
    + rewrite length_insert. lia.
    + exists j, y. split_and!; [lia| |done]. by rewrite list_lookup_insert_ne by lia.
    + exists v'. split_and!; [done| |].
      * rewrite Hperm. by apply insert_hole_Permutation.
      * eapply same_outside_trans.
        -- apply (same_outside_insert 0 (S (S next)) v (S next) z). lia.
        -- eapply same_outside_mono; [| |exact Hout]; lia.
  - rewrite assign_lt by done. exists (<[S next := val]> v).
    split_and!; [done|done|]. apply same_outside_insert. lia.
Qed.

Lemma unguarded_linear_insert_returns v i :
  i < length v →
  (∃ j y, j < i ∧ v !! j = Some y ∧ ∀ val, v !! i = Some val → comp val y = false) →
  ∃ v', libstdcxx.unguarded_linear_insert comp v i = Returns v' ∧
        v' ≡ₚ v ∧ same_outside 0 (S i) v v'.
Proof.
  intros Hi (j & y & Hj & Hy & Hstop). unfold libstdcxx.unguarded_linear_insert.
  destruct (deref_lt v i Hi) as (val & -> & Hval). cbn [mbind outcome_bind].
  destruct (unguarded_linear_insert_loop_returns val v i Hi) as (v' & -> & Hperm & Hout).
  { exists j, y. split_and!; [done|done|by apply Hstop]. }
  exists v'. split_and!; [done| |done]. by rewrite Hperm, list_insert_id.
Qed.

Lemma insertion_sort_round_returns v i :
  0 < i < length v →
  ∃ v', libstdcxx.insertion_sort_round comp 0 v i = Returns v' ∧
        v' ≡ₚ v ∧ same_outside 0 (S i) v v'.
Proof.
  intros Hi. unfold libstdcxx.insertion_sort_round.
  destruct (lookup_lt_is_Some_2 v i ltac:(lia)) as [val Hval].
  destruct (lookup_lt_is_Some_2 v 0 ltac:(lia)) as [y Hy].
  rewrite (comp_iter_Some v i 0 val y) by done. cbn [mbind outcome_bind].
  destruct (comp val y) eqn:Hlt.
  - rewrite (deref_Some v i val Hval). cbn [mbind outcome_bind].
    rewrite Nat.sub_0_r, drop_0, take_0. cbn [app].
    eexists. split; [done|].
    pose proof (take_drop_middle v i val Hval) as Hv.
    split.
    + rewrite <-Hv at 3. apply Permutation_middle.
    + split.
      * rewrite <-Hv at 3. rewrite !length_app. simpl. rewrite !length_app. simpl. lia.
      * intros j Hj.
        assert (length (take i v) = i) as Hlen by (rewrite length_take; lia).
        rewrite lookup_cons_ne_0 by lia.
        rewrite lookup_app_r by (rewrite Hlen; lia).
        rewrite Hlen, lookup_drop. f_equal. lia.
  - apply unguarded_linear_insert_returns; [lia|].
    exists 0, y. split_and!; [lia|done|]. intros val' Hval'. congruence.
Qed.

Lemma final_insertion_sort_returns w :
  within l0 w → guarded comp 0 (length w) w →
  ∃ v', libstdcxx.final_insertion_sort comp w 0 (length w) = Returns v'.
Proof.
  intros Hw Hg.
  assert (∀ a n v, 0 < a → a + n ≤ length w → inserted_up_to w a v →
            ∃ v', for_each (libstdcxx.insertion_sort_round comp 0) v (seq a n)
                  = Returns v' ∧ inserted_up_to w (a + n) v') as Hguarded.
  { intros a n. revert a. induction n as [|n IHn]; intros a v Ha Han Hv.
    { exists v. by rewrite Nat.add_0_r. }
    destruct Hv as [Hperm Hout]. cbn [seq for_each].
    destruct (insertion_sort_round_returns v a) as (v1 & -> & Hperm1 & Hout1).
    { rewrite (proj1 Hout). lia. }
    cbn [mbind outcome_bind].
    destruct (IHn (S a) v1) as (v' & -> & Hv'); [lia|lia| |].
    - split; [by rewrite Hperm1|].
      eapply same_outside_trans.
      + eapply same_outside_mono; [| |exact Hout]; lia.
      + done.
    - exists v'. split; [done|]. by replace (a + S n) with (S a + n) by lia. }
  assert (∀ n a v, a + n ≤ length w → 16 ≤ a →
            inserted_up_to w a v →
            ∃ v', for_each (libstdcxx.unguarded_linear_insert comp) v (seq a n)
                  = Returns v') as Hunguarded.
  { induction n as [|n IHn]; intros a v Han Ha [Hperm Hout].
    { by exists v. }
    cbn [seq for_each].
    destruct (lookup_lt_is_Some_2 w a ltac:(lia)) as [x Hx].
    destruct (Hg a x) as (j & y & Hj & Hy & Hxy); [lia|done|].
    assert (y ∈ seg 0 a v) as Hyseg.
    { rewrite (seg_Permutation 0 a w v); [|lia|done|done].
      apply elem_of_seg. exists j. split; [lia|done]. }
    apply elem_of_seg in Hyseg as (j' & Hj' & Hyj').
    destruct (unguarded_linear_insert_returns v a) as (v1 & -> & Hperm1 & Hout1).
    { rewrite (proj1 Hout). lia. }
    { exists j', y. split_and!; [lia|done|].
      intros val Hval. rewrite (proj2 Hout) in Hval by lia. congruence. }
    cbn [mbind outcome_bind]. apply (IHn (S a) v1); [lia|lia|].
    split; [by rewrite Hperm1|].
    eapply same_outside_trans.
    - eapply same_outside_mono; [| |exact Hout]; lia.
    - done. }
  unfold libstdcxx.final_insertion_sort, libstdcxx.S_threshold.
  rewrite Nat.sub_0_r. destruct (16 <? length w) eqn:Hlong.
  - apply Nat.ltb_lt in Hlong. unfold libstdcxx.insertion_sort.
    cbn [Nat.add Nat.eqb Nat.sub].
    destruct (Hguarded 1 15 w) as (v1 & -> & Hv1); [lia|lia| |].
    { split; [done|apply same_outside_refl]. }
    cbn [mbind outcome_bind]. unfold libstdcxx.unguarded_insertion_sort.
    apply (Hunguarded (length w - 16) 16 v1); [lia|lia|done].
  - apply Nat.ltb_ge in Hlong. unfold libstdcxx.insertion_sort.
    destruct (0 =? length w) eqn:Hempty; [by eexists|].
    apply Nat.eqb_neq in Hempty. cbn [Nat.add].
    destruct (Hguarded 1 (length w - 1) w) as (v1 & -> & Hv1); [lia|lia| |].
    { split; [done|apply same_outside_refl]. }
    by eexists.
Qed.

(** The call returns. *)
Lemma libstdcxx_sort_returns : ∃ r, libstdcxx.sort comp l0 = Returns r.
Proof.
  unfold libstdcxx.sort. cbv zeta.
  destruct (0 =? length l0) eqn:Hempty; [by eexists|].
  destruct (introsort_loop_guarded (Nat.log2 (length l0 - 0) * 2) l0 0 (length l0))
    as (w & -> & Hperm & Hout & Hg); [lia|by intros x|].
  cbn [mbind outcome_bind].
  rewrite <-(proj1 Hout). apply final_insertion_sort_returns.
  - intros x. by rewrite Hperm.
  - by rewrite (proj1 Hout).
Qed.

End LibstdcxxRange.

(** The sort of the GNU library as a function: on a strict weak ordering, the
    result of the call. *)
Lemma libstdcxx_sort_run {A} (comp : A → A → bool) (l : list A) :
  strict_weak_order_on comp l →
  libstdcxx.sort comp l = Returns (libstdcxx_sort comp l).
Proof.
  intros Hswo. destruct (libstdcxx_sort_returns comp l Hswo) as [r Hr].
  unfold libstdcxx_sort. by rewrite Hr.
Qed.

Lemma libstdcxx_sort_perm {A} (comp : A → A → bool) (l : list A) :
  strict_weak_order_on comp l → libstdcxx_sort comp l ≡ₚ l.
Proof.
  intros Hswo. unfold libstdcxx_sort.
  destruct (libstdcxx.sort comp l) as [r| |] eqn:Hrun;
    [by apply (libstdcxx_sort_contract comp l r)|apply insertion_sort_perm..].
Qed.

Lemma libstdcxx_sort_sorted {A} (comp : A → A → bool) (l : list A) :
  strict_weak_order_on comp l → sorted_by comp (libstdcxx_sort comp l).
Proof.
  intros Hswo. unfold libstdcxx_sort.
  destruct (libstdcxx.sort comp l) as [r| |] eqn:Hrun;
    [by apply (libstdcxx_sort_contract comp l r)|by apply insertion_sort_sorted..].
Qed.

(** [std::sort] of the program as GCC builds it. *)
Definition libstdcxx_StdSort : StdSort := {|
  std_sort := @libstdcxx_sort;
  std_sort_perm := @libstdcxx_sort_perm;
  std_sort_sorted := @libstdcxx_sort_sorted;
|}.


(** ** The order on [std::string] *)

Lemma string_compare_refl (s : string) : String.compare s s = Eq.
Proof.
  induction s as [|a s IH]; simpl; [done|].
  unfold Ascii.compare. by rewrite N.compare_refl.
Qed.

Lemma string_compare_lt_trans (a b c : string) :
  String.compare a b = Lt → String.compare b c = Lt → String.compare a c = Lt.
Proof.
  revert b c. induction a as [|x a IH]; intros [|y b] [|z c]; simpl; try done.
  unfold Ascii.compare.
  destruct (N.compare_spec (Ascii.N_of_ascii x) (Ascii.N_of_ascii y)),
           (N.compare_spec (Ascii.N_of_ascii y) (Ascii.N_of_ascii z)),
           (N.compare_spec (Ascii.N_of_ascii x) (Ascii.N_of_ascii z));
    try done; try lia; eauto.
Qed.

Lemma string_ltb_irrefl (s : string) : String.ltb s s = false.
Proof. unfold String.ltb. by rewrite string_compare_refl. Qed.

Lemma string_ltb_trans (a b c : string) :
  String.ltb a b = true → String.ltb b c = true → String.ltb a c = true.
Proof.
  unfold String.ltb. intros Hab Hbc.
  rewrite (string_compare_lt_trans a b c); [done|..].
  - by destruct (String.compare a b).
  - by destruct (String.compare b c).
Qed.

Lemma string_ltb_total (a b : string) :
  String.ltb a b = false → String.ltb b a = false → a = b.
Proof.
  unfold String.ltb. rewrite (String.compare_antisym b a).
  destruct (String.compare a b) eqn:E; try done.
  intros _ _. by apply String.compare_eq_iff.
Qed.

Lemma string_ltb_asym (a b : string) :
  String.ltb a b = true → String.ltb b a = false.
Proof.
  intros Hab. destruct (String.ltb b a) eqn:Hba; [|done].
  by rewrite <-(string_ltb_irrefl a), (string_ltb_trans a b a).
Qed.

Lemma string_ltb_negtrans (a b c : string) :
  String.ltb a b = false → String.ltb b c = false → String.ltb a c = false.
Proof.
  intros Hab Hbc. destruct (String.ltb a c) eqn:Hac; [|done].
  destruct (String.ltb b a) eqn:Hba.
  - by rewrite (string_ltb_trans b a c) in Hbc.
  - rewrite (string_ltb_total a b) in Hac by done. congruence.
Qed.

Lemma string_ltb_leb (a b : string) : String.ltb a b = negb (String.leb b a).
Proof.
  unfold String.ltb, String.leb. rewrite (String.compare_antisym b a).
  by destruct (String.compare a b).
Qed.

Lemma ascending_NoDup (l : list string) : ascending l → NoDup l.
Proof.
  induction 1 as [|a l Hl IH Ha]; constructor; [|done].
  intros Hin. eapply Forall_forall in Ha; [|done].
  by rewrite string_ltb_irrefl in Ha.
Qed.

(** ** [std::set] and [std::map] keep their keys ascending *)

Lemma elem_of_set_insert (k x : string) (s : list string) :
  x ∈ set_insert k s ↔ x = k ∨ x ∈ s.
Proof.
  induction s as [|k' s IH]; simpl.
  { set_solver. }
  destruct (String.ltb k k') eqn:E1; [set_solver|].
  destruct (String.ltb k' k) eqn:E2; [set_solver|].
  rewrite (string_ltb_total k k') by done. set_solver.
Qed.

Lemma set_insert_ascending (k : string) (s : list string) :
  ascending s → ascending (set_insert k s).
Proof.
  induction 1 as [|k' s Hs IH Hk']; simpl.
  { repeat constructor. }
  destruct (String.ltb k k') eqn:E1.
  { constructor; [by constructor|]. constructor; [done|].
    eapply Forall_impl; [done|]. simpl. eauto using string_ltb_trans. }
  destruct (String.ltb k' k) eqn:E2; [|by constructor].
  constructor; [done|].
  apply Forall_forall. intros x [->|Hx]%elem_of_set_insert; [done|].
  by eapply Forall_forall in Hk'.
Qed.

Lemma map_assign_keys {V} (k : string) (v : V) (m : list (string * V)) :
  (map_assign k v m).*1 = set_insert k (m.*1).
Proof.
  induction m as [|[k' v'] m IH]; csimpl; [done|].
  destruct (String.ltb k k'); [done|].
  destruct (String.ltb k' k); csimpl; [|done]. by rewrite IH.
Qed.

Lemma foldl_set_insert_ascending {A} (key : A → string) (l : list A) (s : list string) :
  ascending s → ascending (foldl (λ s x, set_insert (key x) s) s l).
Proof. revert s. induction l; simpl; eauto using set_insert_ascending. Qed.

Lemma elem_of_foldl_set_insert {A} (key : A → string) (l : list A) (s : list string) k :
  k ∈ foldl (λ s x, set_insert (key x) s) s l ↔ k ∈ s ∨ ∃ x, x ∈ l ∧ key x = k.
Proof.
  revert s. induction l as [|y l IH]; intros s; simpl.
  { set_solver. }
  rewrite IH, elem_of_set_insert. set_solver.
Qed.

Section StoreFacts.
Context {Ar : Arith}.
Local Abbreviation entry := (OrderBookEntry Ar).

Lemma getKnownProducts_set (ob : OrderBook) :
  getKnownProducts ob = foldl (λ s e, set_insert (product e) s) [] (orders ob).
Proof.
  unfold getKnownProducts.
  change (@nil string) with ((@nil (string * bool)).*1) at 1.
  generalize (@nil (string * bool)).
  induction (orders ob) as [|e l IH]; intros m; simpl; [done|].
  by rewrite IH, map_assign_keys.
Qed.

(** C9.  [getKnownProducts] returns the products of the store in ascending
    order of [std::string], each one once: the list is strictly ascending, so
    without repetition, and a product is in it exactly when an order of the
    store has it. *)
Theorem getKnownProducts_sorted_distinct (ob : OrderBook) :
  ascending (getKnownProducts ob) ∧
  NoDup (getKnownProducts ob) ∧
  ∀ p, p ∈ getKnownProducts ob ↔ ∃ e : entry, e ∈ orders ob ∧ product e = p.
Proof.
  rewrite getKnownProducts_set.
  assert (ascending (foldl (λ s (e : entry), set_insert (product e) s) [] (orders ob))).
  { apply foldl_set_insert_ascending. constructor. }
  split_and!; [done|by apply ascending_NoDup|].
  intros p. rewrite elem_of_foldl_set_insert. set_solver.
Qed.

End StoreFacts.

(** ** The store is kept in order of timestamp *)

Section Store.
Context {Ar : Arith} {Sort : StdSort}.
Local Abbreviation entry := (OrderBookEntry Ar).

Lemma compareByTimestamp_swo (l : list entry) :
  strict_weak_order_on compareByTimestamp l.
Proof.
  unfold compareByTimestamp. split_and!; intros.
  - apply string_ltb_irrefl.
  - by eapply string_ltb_trans.
  - by eapply string_ltb_negtrans.
Qed.

Lemma sorted_by_timestamp (l : list entry) :
  sorted_by compareByTimestamp l →
  StronglySorted (λ x y, String.leb (timestamp x) (timestamp y) = true) l.
Proof.
  unfold sorted_by, compareByTimestamp.
  induction 1 as [|x l Hl IH Hx]; constructor; [done|].
  eapply Forall_impl; [done|]. simpl. intros y.
  rewrite string_ltb_leb. by destruct (String.leb _ _).
Qed.

Lemma OrderBook_new_sorted {Fs : Files Ar} (file1 file2 : string) :
  store_sorted (OrderBook_new file1 file2).
Proof. apply sorted_by_timestamp, std_sort_sorted, compareByTimestamp_swo. Qed.

Lemma insertOrder_perm (ob : OrderBook) (e : entry) :
  orders (insertOrder ob e) ≡ₚ orders ob ++ [e].
Proof. apply std_sort_perm, compareByTimestamp_swo. Qed.

Lemma insertOrder_sorted (ob : OrderBook) (e : entry) :
  store_sorted (insertOrder ob e).
Proof. apply sorted_by_timestamp, std_sort_sorted, compareByTimestamp_swo. Qed.

Lemma insertOrders_perm (ob : OrderBook) (new : list entry) :
  orders (foldl insertOrder ob new) ≡ₚ orders ob ++ new.
Proof.
  revert ob. induction new as [|e new IH]; intros ob; simpl.
  { by rewrite app_nil_r. }
  rewrite IH, insertOrder_perm. by rewrite <-app_assoc.
Qed.

Lemma insertOrders_sorted (ob : OrderBook) (new : list entry) :
  store_sorted ob → store_sorted (foldl insertOrder ob new).
Proof.
  revert ob. induction new as [|e new IH]; intros ob Hob; simpl; [done|].
  apply IH, insertOrder_sorted.
Qed.

Lemma elem_of_getOrders (ob : OrderBook) type product' timestamp' (e : entry) :
  e ∈ getOrders ob type product' timestamp' ↔
  e ∈ orders ob ∧ orderType e = type ∧ product e = product' ∧ timestamp e = timestamp'.
Proof.
  unfold getOrders. rewrite list_elem_of_In, filter_In, <-list_elem_of_In.
  rewrite !andb_true_iff, bool_decide_eq_true, !String.eqb_eq. naive_solver.
Qed.

(** C7, as the program has it.  After any sequence of [insertOrder] calls on
    a store, the timestamps of the stored sequence never decrease, the
    sequence holds exactly the records that were there and the inserted ones,
    and [getOrders] returns every one of them for its side, product and
    timestamp.  (The order among records of one timestamp is left to
    [std::sort].) *)
Theorem insertOrder_sorted_retrievable (ob : OrderBook) (new : list entry) :
  store_sorted ob →
  let ob' := foldl insertOrder ob new in
  store_sorted ob' ∧
  orders ob' ≡ₚ orders ob ++ new ∧
  ∀ e, e ∈ orders ob ++ new →
       e ∈ getOrders ob' (orderType e) (product e) (timestamp e).
Proof.
  intros Hob ob'. split_and!.
  - by apply insertOrders_sorted.
  - apply insertOrders_perm.
  - intros e He. apply elem_of_getOrders. split_and!; try done.
    unfold ob'. by rewrite insertOrders_perm.
Qed.

End Store.

(** ** The time cursor: [getEarliestTime] and [getNextTime] *)

Section Cursor.
Context {Ar : Arith}.
Local Abbreviation entry := (OrderBookEntry Ar).

Lemma firstAfter_none (cur : string) (l : list entry) :
  firstAfter cur l = "" ↔ ∀ e, e ∈ l → String.ltb cur (timestamp e) = false.
Proof.
  induction l as [|e l IH]; simpl.
  { set_solver. }
  destruct (String.ltb cur (timestamp e)) eqn:E.
  - split.
    + intros Hts. rewrite Hts in E. by destruct cur.
    + intros Hl. rewrite Hl in E; [done|set_solver].
  - rewrite IH. set_solver.
Qed.

Lemma firstAfter_least (cur : string) (l : list entry) :
  StronglySorted (λ x y, String.leb (timestamp x) (timestamp y) = true) l →
  firstAfter cur l ≠ "" →
  String.ltb cur (firstAfter cur l) = true ∧
  (∃ e, e ∈ l ∧ timestamp e = firstAfter cur l) ∧
  (∀ e, e ∈ l → String.ltb cur (timestamp e) = true →
        String.leb (firstAfter cur l) (timestamp e) = true).
Proof.
  induction 1 as [|e l Hl IH He]; simpl; [done|].
  destruct (String.ltb cur (timestamp e)) eqn:E.
  - intros _. split_and!; [done|set_solver|].
    intros e' [->|He']%elem_of_cons _.
    + rewrite <-(negb_involutive (String.leb _ _)), <-string_ltb_leb.
      by rewrite string_ltb_irrefl.
    + by eapply Forall_forall in He.
  - intros Hne. destruct (IH Hne) as (H1 & (e' & He' & H2) & H3).
    split_and!; [done|set_solver|].
    intros e'' [->|He'']%elem_of_cons; [congruence|eauto].
Qed.

Lemma getEarliestTime_least (ob : @OrderBook Ar) (e0 : entry) :
  store_sorted ob → orders ob !! 0 = Some e0 →
  ∀ e, e ∈ orders ob → String.leb (timestamp e0) (timestamp e) = true.
Proof.
  unfold store_sorted. destruct (orders ob) as [|e1 l]; [done|].
  intros Hs [= ->] e [->|He]%elem_of_cons.
  - rewrite <-(negb_involutive (String.leb _ _)), <-string_ltb_leb.
    by rewrite string_ltb_irrefl.
  - apply StronglySorted_inv in Hs as [_ Hs]. by eapply Forall_forall in Hs.
Qed.

(** [getNextTime] on a sorted store that is not empty: the least stored
    timestamp after [cur], or the earliest one when there is none. *)
Lemma getNextTime_spec (ob : @OrderBook Ar) (cur : string) :
  store_sorted ob → orders ob ≠ [] →
  ∃ t, getNextTime ob cur = Returns t ∧
       (∃ e, e ∈ orders ob ∧ timestamp e = t) ∧
       ((∃ e, e ∈ orders ob ∧ String.ltb cur (timestamp e) = true) →
          String.ltb cur t = true ∧
          ∀ e, e ∈ orders ob → String.ltb cur (timestamp e) = true →
               String.leb t (timestamp e) = true) ∧
       ((∀ e, e ∈ orders ob → String.ltb cur (timestamp e) = false) →
          getEarliestTime ob = Returns t).
Proof.
  intros Hs Hne. unfold getNextTime, getEarliestTime.
  destruct (String.eqb (firstAfter cur (orders ob)) "") eqn:E.
  - apply String.eqb_eq in E. pose proof E as E'.
    rewrite firstAfter_none in E'.
    destruct (orders ob) as [|e0 l] eqn:Hl; [done|]. simpl.
    exists (timestamp e0). split_and!; [done|set_solver| |done].
    intros (e & He & Hlt). by rewrite E' in Hlt.
  - apply String.eqb_neq in E.
    destruct (firstAfter_least cur (orders ob) Hs E) as (H1 & H2 & H3).
    eexists. split_and!; [done|done|done|].
    intros Hnone. apply firstAfter_none in Hnone. done.
Qed.

End Cursor.

Section Cycle.
Context {Ar : Arith}.
Local Abbreviation entry := (OrderBookEntry Ar).

Lemma string_leb_ltb_false (a b : string) :
  String.leb a b = true ↔ String.ltb b a = false.
Proof. rewrite string_ltb_leb. by destruct (String.leb a b). Qed.

Lemma bind_Returns {A B} (a : A) (k : A → outcome B) : (Returns a ≫= k) = k a.
Proof. done. Qed.

Lemma walk_S (ob : @OrderBook Ar) (n : nat) (t : string) :
  walk ob (S n) t =
  (t' ← getNextTime ob t; r ← walk ob n t'; Returns (t :: r.1, r.2)).
Proof. done. Qed.

Lemma walk_suffix (ob : @OrderBook Ar) (tmin : string) (T : list string) :
  store_sorted ob → orders ob ≠ [] →
  getEarliestTime ob = Returns tmin →
  ascending T →
  (∀ t, t ∈ T ↔ ∃ e : entry, e ∈ orders ob ∧ timestamp e = t) →
  ∀ rest pre t, T = pre ++ t :: rest →
    walk ob (length (t :: rest)) t = Returns (t :: rest, tmin).
Proof.
  intros Hs Hne Hmin HT Hmem rest.
  induction rest as [|u rest IH]; intros pre t ->.
  - destruct (getNextTime_spec ob t Hs Hne) as (t' & Hnext & _ & _ & Hwrap).
    simpl. rewrite Hnext. simpl. rewrite Hwrap in Hmin.
    { by injection Hmin as ->. }
    intros e He. apply string_leb_ltb_false.
    assert (timestamp e ∈ pre ++ [t]) as [Hp| ->%list_elem_of_singleton]%elem_of_app
      by (apply Hmem; eauto).
    + apply StronglySorted_app in HT as (HT & _ & _).
      apply string_leb_ltb_false, string_ltb_asym, HT; set_solver.
    + apply string_leb_ltb_false, string_ltb_irrefl.
  - destruct (getNextTime_spec ob t Hs Hne) as (t' & Hnext & Hin & Hleast & _).
    pose proof HT as HT'.
    apply StronglySorted_app in HT' as (Hpre & _ & [Hrest _]%StronglySorted_cons).
    rewrite Forall_forall in Hrest.
    destruct Hleast as [Htt' Hleast].
    { assert (u ∈ pre ++ t :: u :: rest) as (e & He & Heu)%Hmem by set_solver.
      exists e. split; [done|]. rewrite Heu. apply Hrest. set_solver. }
    assert (t' = u) as ->.
    { apply String.leb_antisym.
      - assert (u ∈ pre ++ t :: u :: rest) as (e & He & Heu)%Hmem by set_solver.
        rewrite <-Heu. apply Hleast; [done|]. rewrite Heu. apply Hrest. set_solver.
      - apply Hmem in Hin.
        apply elem_of_app in Hin as [Hp|Hin].
        { rewrite (string_ltb_asym t' t) in Htt'; [done|]. apply Hpre; set_solver. }
        apply elem_of_cons in Hin as [->|Hin].
        { by rewrite string_ltb_irrefl in Htt'. }
        apply elem_of_cons in Hin as [->|Hin].
        { apply string_leb_ltb_false, string_ltb_irrefl. }
        apply string_leb_ltb_false, string_ltb_asym.
        apply StronglySorted_app_1_r in HT.
        apply StronglySorted_cons in HT as [_ HT].
        apply StronglySorted_cons in HT as [HT _].
        by eapply Forall_forall in HT. }
    change (length (t :: u :: rest)) with (S (length (u :: rest))).
    rewrite walk_S, Hnext, bind_Returns.
    rewrite (IH (pre ++ [t]) u); [done|]. by rewrite <-app_assoc.
Qed.

(** C5.  On a store that is not empty (and sorted, as the constructor and
    [insertOrder] leave it) [getNextTime cur] returns the least stored
    timestamp after [cur], or, when no stored timestamp is after [cur], what
    [getEarliestTime] returns.  So, with [T] the distinct stored timestamps
    in ascending order, [length T] steps from the earliest timestamp stand on
    [T], each timestamp once and in ascending order, and end on the earliest
    timestamp again. *)
Theorem getNextTime_cycle (ob : @OrderBook Ar) :
  store_sorted ob → orders ob ≠ [] →
  (∀ cur, ∃ t,
     getNextTime ob cur = Returns t ∧
     (∃ e, e ∈ orders ob ∧ timestamp e = t) ∧
     ((∃ e, e ∈ orders ob ∧ String.ltb cur (timestamp e) = true) →
        String.ltb cur t = true ∧
        ∀ e, e ∈ orders ob → String.ltb cur (timestamp e) = true →
             String.leb t (timestamp e) = true) ∧
     ((∀ e, e ∈ orders ob → String.ltb cur (timestamp e) = false) →
        getEarliestTime ob = Returns t)) ∧
  (let T := stored_timestamps ob in
   ascending T ∧
   (∀ t, t ∈ T ↔ ∃ e : entry, e ∈ orders ob ∧ timestamp e = t) ∧
   ∃ t0, getEarliestTime ob = Returns t0 ∧
         walk ob (length T) t0 = Returns (T, t0)).
Proof.
  intros Hs Hne. split.
  { intros cur. by apply getNextTime_spec. }
  intros T.
  assert (ascending T) as HT.
  { apply (foldl_set_insert_ascending timestamp). constructor. }
  assert (∀ t, t ∈ T ↔ ∃ e : entry, e ∈ orders ob ∧ timestamp e = t) as Hmem.
  { intros t. unfold T, stored_timestamps.
    rewrite elem_of_foldl_set_insert. set_solver. }
  split; [done|]. split; [done|].
  clearbody T.
  destruct (orders ob) as [|e0 l] eqn:Hl; [done|].
  assert (getEarliestTime ob = Returns (timestamp e0)) as Hmin.
  { unfold getEarliestTime. by rewrite Hl. }
  exists (timestamp e0). split; [done|].
  destruct T as [|t0 T].
  { assert (timestamp e0 ∈ @nil string) by (apply Hmem; set_solver). set_solver. }
  assert (t0 = timestamp e0) as Ht0.
  { apply String.leb_antisym.
    - assert (timestamp e0 ∈ t0 :: T) as [->|Hin]%elem_of_cons
        by (apply Hmem; set_solver).
      + apply string_leb_ltb_false, string_ltb_irrefl.
      + apply string_leb_ltb_false, string_ltb_asym.
        apply StronglySorted_cons in HT as [HT _].
        by eapply Forall_forall in HT.
    - assert (t0 ∈ t0 :: T) as (e & He & <-)%Hmem by set_solver.
      eapply getEarliestTime_least; [done|by rewrite Hl|by rewrite Hl]. }
  rewrite <-Ht0 in *.
  eapply (walk_suffix ob t0 (t0 :: T) Hs) with (pre := []); try done.
  - by rewrite Hl.
  - by rewrite Hl.
Qed.

End Cycle.

Section Earliest.
Context {Ar : Arith}.
Local Abbreviation entry := (OrderBookEntry Ar).

(** C6, as the program has it.  On a store that is not empty (and sorted)
    [getEarliestTime] returns the least timestamp present.  On a store with
    no records it reads [orders[0]] all the same: nothing is thrown and the
    behaviour is not defined. *)
Theorem getEarliestTime_spec (ob : @OrderBook Ar) :
  (orders ob = [] → getEarliestTime ob = Undefined) ∧
  (orders ob ≠ [] → store_sorted ob →
     ∃ t, getEarliestTime ob = Returns t ∧
          (∃ e : entry, e ∈ orders ob ∧ timestamp e = t) ∧
          ∀ e : entry, e ∈ orders ob → String.leb t (timestamp e) = true).
Proof.
  split.
  - unfold getEarliestTime. by intros ->.
  - intros Hne Hs. destruct (orders ob) as [|e0 l] eqn:Hl; [done|].
    exists (timestamp e0). split_and!.
    + unfold getEarliestTime. by rewrite Hl.
    + set_solver.
    + rewrite <-Hl. apply getEarliestTime_least; [done|by rewrite Hl].
Qed.

End Earliest.

(** ** The loops on the frame compute the functions on lists *)

Section MatchingPure.
Context {Ar : Arith}.
Local Abbreviation entry := (OrderBookEntry Ar).

Lemma matchBody_pairStep product' timestamp' i j (f : Frame) a b :
  f_asks f !! i = Some a → f_bids f !! j = Some b →
  matchBody product' timestamp' i j f =
  let '(s, a', b', break) := pairStep product' timestamp' a b in
  (mkFrame (f_orders f) (<[i := a']> (f_asks f)) (<[j := b']> (f_bids f))
           (f_sales f ++ (event_of s a b).*1)
           (f_matched f ++ (event_of s a b).*2), break).
Proof.
  intros Ha Hb. unfold matchBody, pairStep, newSale. rewrite Ha, Hb.
  destruct f as [o av bv sv mv]; simpl in *.
  repeat case_match; simplify_eq/=;
    rewrite ?(list_insert_id av i a), ?(list_insert_id bv j b), ?app_nil_r by done;
    done.
Qed.

Lemma forBids_scanBids product' timestamp' i (bs : list entry) :
  ∀ (f : Frame) a pre,
    f_asks f !! i = Some a → f_bids f = pre ++ bs →
    forBids product' timestamp' i (length bs) (length pre) f =
    let '(ev, a', bs') := scanBids product' timestamp' a bs in
    mkFrame (f_orders f) (<[i := a']> (f_asks f)) (pre ++ bs')
            (f_sales f ++ ev.*1) (f_matched f ++ ev.*2).
Proof.
  induction bs as [|b bs IH]; intros f a pre Ha Hb; simpl.
  { rewrite app_nil_r in Hb. rewrite list_insert_id, !app_nil_r, <-Hb by done.
    by destruct f. }
  assert (f_bids f !! length pre = Some b) as Hj.
  { rewrite Hb. by apply list_lookup_middle. }
  rewrite (matchBody_pairStep _ _ i _ f a b Ha Hj).
  destruct (pairStep product' timestamp' a b) as [[[s a'] b'] brk].
  assert (<[length pre := b']> (f_bids f) = pre ++ b' :: bs) as Hins.
  { rewrite Hb. by rewrite insert_app_r_alt, Nat.sub_diag by lia. }
  rewrite Hins. destruct brk; [done|].
  specialize (IH (mkFrame (f_orders f) (<[i := a']> (f_asks f)) (pre ++ b' :: bs)
                    (f_sales f ++ (event_of s a b).*1)
                    (f_matched f ++ (event_of s a b).*2)) a' (pre ++ [b'])).
  rewrite length_app, Nat.add_1_r in IH. rewrite IH; simpl.
  - destruct (scanBids product' timestamp' a' bs) as [[ev a''] bs''].
    rewrite list_insert_insert_eq, <-!app_assoc, !fmap_app. done.
  - apply list_lookup_insert_eq. by eapply lookup_lt_Some.
  - by rewrite <-app_assoc.
Qed.

Lemma forAsks_scanAsks product' timestamp' (asks : list entry) :
  ∀ (f : Frame) pre,
    f_asks f = pre ++ asks →
    forAsks product' timestamp' (length asks) (length pre) f =
    let '(ev, asks', bs') := scanAsks product' timestamp' asks (f_bids f) in
    mkFrame (f_orders f) (pre ++ asks') bs'
            (f_sales f ++ ev.*1) (f_matched f ++ ev.*2).
Proof.
  induction asks as [|a asks IH]; intros f pre Ha; simpl.
  { rewrite !app_nil_r. rewrite <-(app_nil_r pre), <-Ha. by destruct f. }
  assert (f_asks f !! length pre = Some a) as Hi.
  { rewrite Ha. by apply list_lookup_middle. }
  rewrite (forBids_scanBids _ _ _ (f_bids f) f a [] Hi eq_refl).
  destruct (scanBids product' timestamp' a (f_bids f)) as [[ev a'] bs'].
  specialize (IH (mkFrame (f_orders f) (<[length pre := a']> (f_asks f)) ([] ++ bs')
                    (f_sales f ++ ev.*1) (f_matched f ++ ev.*2)) (pre ++ [a'])).
  rewrite length_app, Nat.add_1_r in IH. rewrite IH; simpl.
  - destruct (scanAsks product' timestamp' asks bs') as [[ev' asks''] bs''].
    rewrite <-!app_assoc, !fmap_app. done.
  - rewrite Ha, insert_app_r_alt, Nat.sub_diag, <-app_assoc by lia. done.
Qed.

End MatchingPure.

(** ** The matching engine: the store, the prices *)

Section MatchingFacts.
Context {Ar : Arith} {Sort : StdSort}.
Local Abbreviation entry := (OrderBookEntry Ar).

Lemma matchAsksToBids_frame_scan (ob : OrderBook) product' timestamp' :
  matchAsksToBids_frame ob product' timestamp' =
  let asks := getOrders ob ask product' timestamp' in
  let bids := getOrders ob bid product' timestamp' in
  match asks, bids with
  | [], _ | _, [] => mkFrame (orders ob) asks bids [] []
  | _ :: _, _ :: _ =>
      let '(ev, asks', bids') :=
        scanAsks product' timestamp'
          (std_sort compareByPriceAsc asks) (std_sort compareByPriceDesc bids) in
      mkFrame (orders ob) asks' bids' ev.*1 ev.*2
  end.
Proof.
  unfold matchAsksToBids_frame.
  destruct (getOrders ob ask product' timestamp') as [|a asks]; [done|].
  destruct (getOrders ob bid product' timestamp') as [|b bids]; [done|].
  cbv zeta.
  match goal with |- forAsks _ _ _ _ ?f = _ =>
    apply (forAsks_scanAsks product' timestamp' _ f []) end.
  done.
Qed.

(** The field [orders] is not written by the loops. *)
Lemma matchBody_orders product' timestamp' i j (f : Frame) :
  f_orders (matchBody product' timestamp' i j f).1 = f_orders f.
Proof. unfold matchBody. by repeat case_match. Qed.

Lemma forBids_orders product' timestamp' i n :
  ∀ j (f : Frame), f_orders (forBids product' timestamp' i n j f) = f_orders f.
Proof.
  induction n as [|n IH]; intros j f; simpl; [done|].
  pose proof (matchBody_orders product' timestamp' i j f) as Hb.
  destruct (matchBody product' timestamp' i j f) as [f' brk]; simpl in Hb.
  destruct brk; [done|]. by rewrite IH.
Qed.

Lemma forAsks_orders product' timestamp' n :
  ∀ i (f : Frame), f_orders (forAsks product' timestamp' n i f) = f_orders f.
Proof.
  induction n as [|n IH]; intros i f; simpl; [done|].
  by rewrite IH, forBids_orders.
Qed.

Lemma matchAsksToBids_frame_orders (ob : OrderBook) (product' timestamp' : string) :
  f_orders (matchAsksToBids_frame ob product' timestamp') = orders ob.
Proof.
  unfold matchAsksToBids_frame.
  destruct (getOrders ob ask product' timestamp'); [done|].
  destruct (getOrders ob bid product' timestamp'); [done|].
  cbv zeta. by rewrite forAsks_orders.
Qed.

(** C8.  A call of [matchAsksToBids] leaves the store as it was: the loops
    write to the vectors [asks] and [bids] that [getOrders] returned and to
    [sales], and the stored sequence is the same list of records, with the
    same fields, after the call. *)
Theorem matchAsksToBids_store_unchanged (ob : OrderBook) (product' timestamp' : string) :
  f_orders (matchAsksToBids_frame ob product' timestamp') = orders ob ∧
  (matchAsksToBids ob product' timestamp').2 = ob.
Proof.
  split; [apply matchAsksToBids_frame_orders|].
  unfold matchAsksToBids. simpl. rewrite matchAsksToBids_frame_orders. by destruct ob.
Qed.

Lemma reachable_sorted {Fs : Files Ar} (ob : OrderBook) :
  reachable ob → store_sorted ob.
Proof.
  induction 1 as [file1 file2|ob order _ _|ob product' timestamp' _ IH].
  - apply OrderBook_new_sorted.
  - apply insertOrder_sorted.
  - unfold matchAsksToBids, store_sorted. simpl.
    by rewrite matchAsksToBids_frame_orders.
Qed.

End MatchingFacts.

Section PricePriority.
Context {Ar : Arith} {Laws : OrderLaws Ar} {Sort : StdSort}.
Local Abbreviation entry := (OrderBookEntry Ar).

Lemma reduced_refl (a : entry) : reduced a a.
Proof. by destruct a. Qed.

Lemma reduced_set_amount (a0 a : entry) q : reduced a0 a → reduced a0 (set_amount a q).
Proof.
  unfold reduced, set_amount. destruct a0, a; simpl.
  intros ?; by simplify_eq.
Qed.

Lemma reduced_trans (a b c : entry) : reduced a b → reduced b c → reduced a c.
Proof.
  unfold reduced, set_amount. destruct a, b, c; simpl.
  intros ? ?; by simplify_eq.
Qed.

Lemma reduced_price (a0 a : entry) : reduced a0 a → price a = price a0.
Proof.
  unfold reduced, set_amount. destruct a0, a; simpl.
  intros ?; by simplify_eq.
Qed.

Lemma compareByPriceAsc_swo (l : list entry) :
  (∀ e, e ∈ l → num_ok (price e)) → strict_weak_order_on compareByPriceAsc l.
Proof.
  unfold compareByPriceAsc. intros Hok. split_and!.
  - intros. apply num_ltb_irrefl.
  - intros. by eapply num_ltb_trans.
  - intros x y z ?????.
    apply (num_ltb_negtrans (price x) (price y) (price z)); auto.
Qed.

Lemma compareByPriceDesc_swo (l : list entry) :
  (∀ e, e ∈ l → num_ok (price e)) → strict_weak_order_on compareByPriceDesc l.
Proof.
  unfold compareByPriceDesc. intros Hok. split_and!.
  - intros. apply num_ltb_irrefl.
  - intros. by eapply num_ltb_trans.
  - intros x y z ?????.
    apply (num_ltb_negtrans (price z) (price y) (price x)); auto.
Qed.

Lemma newSale_price product' timestamp' (a b : entry) :
  price (newSale product' timestamp' a b) = price a.
Proof. unfold newSale. by repeat case_match. Qed.

Lemma pairStep_facts product' timestamp' (a b : entry) s a' b' brk :
  pairStep product' timestamp' a b = (s, a', b', brk) →
  reduced a a' ∧ reduced b b' ∧
  ∀ sale, s = Some sale →
    price sale = price a ∧ (price b >= price a)%num = true.
Proof.
  unfold pairStep. intros Hp.
  repeat case_match; simplify_eq; split_and!;
    try (intros ? [= <-]; simpl; by rewrite newSale_price);
    try done; try apply reduced_refl; by apply reduced_set_amount, reduced_refl.
Qed.

Lemma event_ok_mono (asks bids asks' bids' : list entry) (e : event) :
  (∀ a, a ∈ asks → ∃ a0, a0 ∈ asks' ∧ reduced a0 a) →
  (∀ b, b ∈ bids → ∃ b0, b0 ∈ bids' ∧ reduced b0 b) →
  event_ok asks bids e → event_ok asks' bids' e.
Proof.
  destruct e as [sale [a b]]. intros Ha Hb (? & ? & (a0 & Ha0 & ?) & (b0 & Hb0 & ?)).
  split_and!; [done..| |].
  - destruct (Ha _ Ha0) as (a1 & ? & ?). eauto using reduced_trans.
  - destruct (Hb _ Hb0) as (b1 & ? & ?). eauto using reduced_trans.
Qed.

Lemma scanBids_facts product' timestamp' (bs : list entry) :
  ∀ a ev a' bs',
    scanBids product' timestamp' a bs = (ev, a', bs') →
    reduced a a' ∧ Forall2 reduced bs bs' ∧
    Forall (event_ok [a] bs) (ev : list event).
Proof.
  induction bs as [|b bs IH]; intros a ev a' bs'; simpl.
  { intros [= <- <- <-]. split_and!; [apply reduced_refl|constructor..]. }
  destruct (pairStep product' timestamp' a b) as [[[s a1] b1] brk] eqn:Hp.
  apply pairStep_facts in Hp as (Ha1 & Hb1 & Hs).
  assert (Forall (event_ok [a] (b :: bs)) (event_of s a b)) as Hev.
  { destruct s as [sale|]; simpl; [|constructor].
    constructor; [|constructor]. destruct (Hs sale eq_refl).
    split_and!; [done..| |]; eexists; (split; [|apply reduced_refl]); set_solver. }
  destruct brk.
  { intros [= <- <- <-]. split_and!; [done| |done].
    constructor; [done|]. apply Forall2_same_length_lookup_2; [done|].
    intros ??? -> [= <-]. apply reduced_refl. }
  destruct (scanBids product' timestamp' a1 bs) as [[ev2 a2] bs2] eqn:Hscan.
  apply IH in Hscan as (Ha2 & Hbs2 & Hev2).
  intros [= <- <- <-]. split_and!.
  - by eapply reduced_trans.
  - by constructor.
  - apply Forall_app; split; [done|].
    eapply Forall_impl; [done|]. intros e. apply event_ok_mono.
    + intros ? ->%list_elem_of_singleton. exists a. split; [set_solver|done].
    + intros b0 Hb0. exists b0. split; [set_solver|apply reduced_refl].
Qed.

Lemma scanAsks_facts product' timestamp' (asks : list entry) :
  ∀ bs ev asks' bs',
    scanAsks product' timestamp' asks bs = (ev, asks', bs') →
    Forall2 reduced asks asks' ∧ Forall2 reduced bs bs' ∧
    Forall (event_ok asks bs) (ev : list event).
Proof.
  induction asks as [|a asks IH]; intros bs ev asks' bs'; simpl.
  { intros [= <- <- <-]. split_and!; [constructor| |constructor].
    apply Forall2_same_length_lookup_2; [done|].
    intros ??? -> [= <-]. apply reduced_refl. }
  destruct (scanBids product' timestamp' a bs) as [[ev1 a1] bs1] eqn:Hb.
  apply scanBids_facts in Hb as (Ha1 & Hbs1 & Hev1).
  destruct (scanAsks product' timestamp' asks bs1) as [[ev2 asks2] bs2] eqn:Ha.
  apply IH in Ha as (Hasks2 & Hbs2 & Hev2).
  intros [= <- <- <-]. split_and!.
  - by constructor.
  - clear -Hbs1 Hbs2. revert bs2 Hbs2.
    induction Hbs1; intros bs2; inv 1; constructor; eauto using reduced_trans.
  - apply Forall_app; split.
    + eapply Forall_impl; [done|]. intros e. apply event_ok_mono.
      * intros ? ->%list_elem_of_singleton. exists a. split; [set_solver|apply reduced_refl].
      * intros b0 Hb0. exists b0. split; [done|apply reduced_refl].
    + eapply Forall_impl; [done|]. intros e. apply event_ok_mono.
      * intros a0 Ha0. exists a0. split; [set_solver|apply reduced_refl].
      * intros b1 Hb1. apply list_elem_of_lookup in Hb1 as [i Hi].
        destruct (Forall2_lookup_r _ _ _ _ _ Hbs1 Hi) as (b0 & Hb0 & ?).
        exists b0. split; [by eapply list_elem_of_lookup_2|done].
Qed.

Lemma Forall_events_Forall2 (P : event → Prop) (ev : list event) :
  Forall P ev → Forall2 (λ sale m, P (sale, m)) ev.*1 ev.*2.
Proof. induction 1 as [|[sale m] ev]; csimpl; by constructor. Qed.

(** C1.  Every sale that [matchAsksToBids] returns has the price of the ask
    it was made from, which is one of the asks that [getOrders] returned for
    the product and timestamp (with, possibly, a reduced amount), and the bid
    it was made from, one of the bids returned, has a price that is not below
    the price of that ask. *)
Theorem matchAsksToBids_price_priority (ob : OrderBook) (product' timestamp' : string) :
  (∀ e, e ∈ orders ob → num_ok (price e)) →
  let f := matchAsksToBids_frame ob product' timestamp' in
  (matchAsksToBids ob product' timestamp').1 = f_sales f ∧
  Forall2 (λ sale '(a, b),
             price sale = price a ∧
             (price b >= price a)%num = true ∧
             (price b < price a)%num = false ∧
             (∃ a0, a0 ∈ getOrders ob ask product' timestamp' ∧ reduced a0 a) ∧
             (∃ b0, b0 ∈ getOrders ob bid product' timestamp' ∧ reduced b0 b))
          (f_sales f) (f_matched f) ∧
  ∀ sale, sale ∈ (matchAsksToBids ob product' timestamp').1 →
    ∃ a0, a0 ∈ getOrders ob ask product' timestamp' ∧ price sale = price a0.
Proof.
  intros Hok f.
  assert (Forall2 (λ sale '(a, b),
             price sale = price a ∧
             (price b >= price a)%num = true ∧
             (price b < price a)%num = false ∧
             (∃ a0, a0 ∈ getOrders ob ask product' timestamp' ∧ reduced a0 a) ∧
             (∃ b0, b0 ∈ getOrders ob bid product' timestamp' ∧ reduced b0 b))
          (f_sales f) (f_matched f)) as HF.
  { unfold f. rewrite matchAsksToBids_frame_scan. cbv zeta.
    set (asks := getOrders ob ask product' timestamp').
    set (bids := getOrders ob bid product' timestamp').
    assert (∀ e, e ∈ asks → num_ok (price e)) as Hoka.
    { intros e [He _]%elem_of_getOrders. auto. }
    assert (∀ e, e ∈ bids → num_ok (price e)) as Hokb.
    { intros e [He _]%elem_of_getOrders. auto. }
    destruct asks as [|a asks'] eqn:Ea; [constructor|].
    destruct bids as [|b bids'] eqn:Eb; [constructor|].
    rewrite <-Ea, <-Eb in *. clear Ea Eb.
    pose proof (std_sort_perm _ _ _ (compareByPriceAsc_swo asks Hoka)) as Hpa.
    pose proof (std_sort_perm _ _ _ (compareByPriceDesc_swo bids Hokb)) as Hpb.
    destruct (scanAsks _ _ _ _) as [[ev asks2] bids2] eqn:Hscan.
    apply scanAsks_facts in Hscan as (_ & _ & Hev). simpl.
    apply Forall_events_Forall2 in Hev.
    eapply Forall2_impl; [done|]. simpl.
    intros sale [a0 b0] (? & Hge & (a1 & Ha1 & ?) & (b1 & Hb1 & ?)).
    split_and!; [done|done|by apply num_leb_not_gtb| |].
    - exists a1. by rewrite <-Hpa.
    - exists b1. by rewrite <-Hpb. }
  split_and!; [done|done|].
  intros sale Hsale. change (sale ∈ f_sales f) in Hsale.
  apply list_elem_of_lookup in Hsale as [k Hk].
  destruct (Forall2_lookup_l _ _ _ _ _ HF Hk) as ([a b] & _ & Hp & _ & _ & (a0 & Ha0 & Hr) & _).
  exists a0. split; [done|]. by rewrite Hp, (reduced_price a0 a).
Qed.

End PricePriority.

Section ZeroTrade.
Context {Sort : StdSort}.
Local Abbreviation entry := (OrderBookEntry binary64).

Lemma std_sort_singleton {A} (comp : A → A → bool) (x : A) :
  comp x x = false → std_sort comp [x] = [x].
Proof.
  intros Hx. apply Permutation_singleton_r, std_sort_perm.
  split_and!.
  - by intros ? ->%list_elem_of_singleton.
  - intros ??? ->%list_elem_of_singleton ->%list_elem_of_singleton
      ->%list_elem_of_singleton. done.
  - intros ??? ->%list_elem_of_singleton ->%list_elem_of_singleton
      ->%list_elem_of_singleton. done.
Qed.

(** C10.  A store with an ask and a bid for the same product and timestamp,
    both of amount 0 and the price of the bid not below the price of the ask:
    [matchAsksToBids] returns one sale, of amount 0. *)
Theorem matchAsksToBids_zero_amount_sale (pa pb : float) (product' timestamp' : string) :
  PrimFloat.leb pa pb = true →
  let ob := mkOrderBook
              [ @OBE binary64 pa 0%float timestamp' product' ask;
                @OBE binary64 pb 0%float timestamp' product' bid ] in
  ∃ sale : entry,
    (matchAsksToBids ob product' timestamp').1 = [sale] ∧
    amount sale = 0%float ∧ price sale = pa.
Proof.
  intros Hge ob. unfold matchAsksToBids, matchAsksToBids_frame, getOrders. simpl.
  rewrite !String.eqb_refl. simpl.
  rewrite !std_sort_singleton by apply (num_ltb_irrefl (Ar := binary64)).
  simpl. unfold matchBody. simpl. rewrite Hge. simpl.
  eexists. split; [done|]. done.
Qed.

End ZeroTrade.

(** ** The matching engine: the quantities *)

Section Conservation.
Context {Sort : StdSort}.
Local Abbreviation entry := (OrderBookEntry exact).

Lemma sum_of_from (f : entry → Q) (l : list entry) (s : Q) :
  (foldl (λ (s : Q) (e : entry), s + f e) s l == s + sum_of (Ar := exact) f l)%Q.
Proof.
  unfold sum_of. simpl. revert s.
  induction l as [|e l IH]; intros s; simpl.
  { lra. }
  rewrite IH, (IH (0 + f e)%Q). lra.
Qed.

Lemma sum_of_cons (f : entry → Q) (e : entry) (l : list entry) :
  (sum_of (Ar := exact) f (e :: l) == f e + sum_of (Ar := exact) f l)%Q.
Proof.
  unfold sum_of at 1. simpl. rewrite (sum_of_from f l (0 + f e)%Q). lra.
Qed.

Lemma total_amount_nil : total_amount (@nil entry) = 0%Q.
Proof. done. Qed.

Lemma total_amount_cons (e : entry) (l : list entry) :
  (total_amount (e :: l) == qty e + total_amount l)%Q.
Proof. apply (sum_of_cons amount). Qed.

Lemma total_amount_app (l k : list entry) :
  (total_amount (l ++ k) == total_amount l + total_amount k)%Q.
Proof.
  induction l as [|e l IH]; simpl.
  { rewrite total_amount_nil. lra. }
  rewrite !total_amount_cons, IH. lra.
Qed.

Lemma total_amount_perm (l k : list entry) :
  l ≡ₚ k → (total_amount l == total_amount k)%Q.
Proof.
  induction 1 as [|e l k _ IH|e1 e2 l|l k m _ IH1 _ IH2].
  - reflexivity.
  - rewrite !total_amount_cons, IH. reflexivity.
  - rewrite !total_amount_cons. lra.
  - by rewrite IH1.
Qed.

Lemma total_amount_nonneg (l : list entry) :
  Forall (λ e, 0 <= qty e)%Q l → (0 <= total_amount l)%Q.
Proof.
  induction 1 as [|e l He _ IH].
  - rewrite total_amount_nil. lra.
  - rewrite total_amount_cons. lra.
Qed.

Ltac q_bools :=
  repeat match goal with
  | H : negb _ = true |- _ => apply negb_true_iff in H
  | H : negb _ = false |- _ => apply negb_false_iff in H
  | H : Qle_bool _ _ = true |- _ => apply Qle_bool_iff in H
  | H : Qle_bool _ _ = false |- _ =>
      apply not_true_iff_false in H; rewrite Qle_bool_iff in H; apply Qnot_le_lt in H
  | H : Qeq_bool _ _ = true |- _ => apply Qeq_bool_iff in H
  | H : Qeq_bool _ _ = false |- _ => apply Qeq_bool_neq in H
  end.

Lemma total_amount_event_of (s : option entry) (a b : entry) :
  (total_amount (event_of s a b).*1 == sold s)%Q.
Proof.
  destruct s as [sale|]; simpl.
  - rewrite total_amount_cons, total_amount_nil. lra.
  - reflexivity.
Qed.

Lemma pairStep_exact product' timestamp' (a b : entry) s a' b' brk :
  (0 <= qty a)%Q → (0 <= qty b)%Q →
  pairStep product' timestamp' a b = (s, a', b', brk) →
  (0 <= sold s)%Q ∧ (qty b' == qty b - sold s)%Q ∧ (0 <= qty b')%Q ∧
  (if brk then (sold s == qty a)%Q ∧ (qty a <= qty b)%Q
   else (qty a' == qty a - sold s)%Q ∧ (0 <= qty a')%Q ∧
        ((price a <= price b)%Q → (sold s == qty b)%Q)).
Proof.
  unfold pairStep, qty. simpl. intros Ha Hb Hp.
  destruct (Qle_bool (price a) (price b)) eqn:E1.
  2:{ simplify_eq. simpl. q_bools. split_and!; try lra. }
  destruct (Qeq_bool (amount b) (amount a)) eqn:E2.
  { simplify_eq. simpl. q_bools. split_and!; lra. }
  destruct (negb (Qle_bool (amount b) (amount a))) eqn:E3.
  { simplify_eq. simpl. q_bools. split_and!; lra. }
  destruct (negb (Qle_bool (amount b) 0)) eqn:E4.
  { simplify_eq. simpl. q_bools. split_and!; try lra. }
  simplify_eq. simpl. q_bools. split_and!; try lra.
Qed.

Lemma scanBids_exact product' timestamp' (bs : list entry) :
  ∀ a ev a' bs',
    (0 <= qty a)%Q → Forall (λ e, 0 <= qty e)%Q bs →
    scanBids product' timestamp' a bs = (ev, a', bs') →
    (total_amount ev.*1 <= qty a)%Q ∧
    (total_amount bs' == total_amount bs - total_amount ev.*1)%Q ∧
    Forall (λ e, 0 <= qty e)%Q bs' ∧
    (Forall (λ b : entry, price a <= price b)%Q bs →
     (total_amount ev.*1 == Qmin (qty a) (total_amount bs))%Q).
Proof.
  induction bs as [|b bs IH]; intros a ev a' bs' Ha Hbs; simpl.
  { intros [= <- <- <-]. csimpl. rewrite !total_amount_nil.
    split_and!; [done|lra|done|].
    intros _. rewrite Q.min_r; [reflexivity|done]. }
  apply Forall_cons in Hbs as [Hb Hbs].
  pose proof (total_amount_nonneg bs Hbs) as Hnn.
  destruct (pairStep product' timestamp' a b) as [[[s a1] b1] brk] eqn:Hp.
  pose proof Hp as Hp'.
  apply pairStep_exact in Hp as (Hs & Hb1 & Hb1' & Hbrk); [|done..].
  destruct brk.
  { intros [= <- <- <-]. destruct Hbrk as [Hsa Hab].
    rewrite !total_amount_event_of, !total_amount_cons.
    split_and!; [lra|lra|by constructor|].
    intros _. rewrite Q.min_l; [done|lra]. }
  destruct Hbrk as (Ha1 & Ha1' & Hcompat).
  destruct (scanBids product' timestamp' a1 bs) as [[ev2 a2] bs2] eqn:Hscan.
  apply IH in Hscan as (Hle & Heq & Hnn2 & Hmin); [|done..].
  intros [= <- <- <-].
  rewrite fmap_app, total_amount_app, !total_amount_event_of, !total_amount_cons.
  split_and!; [lra|lra|by constructor|].
  intros [Hab Hall]%Forall_cons.
  assert (price a1 = price a) as Hpr.
  { apply reduced_price. by apply (pairStep_facts _ _ _ _ _ _ _ _ Hp'). }
  rewrite Hmin by (by rewrite Hpr).
  specialize (Hcompat Hab).
  destruct (Q.min_spec (qty a1) (total_amount bs)) as [[? ->]|[? ->]];
    destruct (Q.min_spec (qty a) (qty b + total_amount bs)) as [[? ->]|[? ->]]; lra.
Qed.

Lemma scanAsks_exact product' timestamp' (asks : list entry) :
  ∀ bs ev asks' bs',
    Forall (λ e, 0 <= qty e)%Q asks → Forall (λ e, 0 <= qty e)%Q bs →
    scanAsks product' timestamp' asks bs = (ev, asks', bs') →
    (total_amount ev.*1 <= total_amount asks)%Q ∧
    (total_amount bs' == total_amount bs - total_amount ev.*1)%Q ∧
    Forall (λ e, 0 <= qty e)%Q bs' ∧
    ((∀ a b : entry, a ∈ asks → b ∈ bs → (price a <= price b)%Q) →
     (total_amount ev.*1 == Qmin (total_amount asks) (total_amount bs))%Q).
Proof.
  induction asks as [|a asks IH]; intros bs ev asks' bs' Hasks Hbs; simpl.
  { intros [= <- <- <-]. csimpl. rewrite !total_amount_nil.
    pose proof (total_amount_nonneg bs Hbs).
    split_and!; [lra|lra|done|].
    intros _. rewrite Q.min_l; [reflexivity|done]. }
  apply Forall_cons in Hasks as [Ha Hasks].
  pose proof (total_amount_nonneg asks Hasks) as HA.
  pose proof (total_amount_nonneg bs Hbs) as HB.
  destruct (scanBids product' timestamp' a bs) as [[ev1 a1] bs1] eqn:Hb.
  pose proof (scanBids_facts _ _ _ _ _ _ _ Hb) as (_ & Hred & _).
  apply scanBids_exact in Hb as (Hle1 & Heq1 & Hnn1 & Hmin1); [|done..].
  destruct (scanAsks product' timestamp' asks bs1) as [[ev2 asks2] bs2] eqn:Hscan.
  apply IH in Hscan as (Hle2 & Heq2 & Hnn2 & Hmin2); [|done..].
  intros [= <- <- <-].
  rewrite fmap_app, total_amount_app, !total_amount_cons.
  split_and!; [lra|lra|done|].
  intros Hcompat.
  rewrite Hmin1, Hmin2.
  - rewrite Heq1, Hmin1.
    + destruct (Q.min_spec (qty a) (total_amount bs)) as [[? ->]|[? ->]];
        destruct (Q.min_spec (qty a + total_amount asks) (total_amount bs))
          as [[? ->]|[? ->]];
        match goal with |- context [Qmin ?x ?y] =>
          destruct (Q.min_spec x y) as [[? ->]|[? ->]] end; lra.
    + apply Forall_forall. intros b Hbin. apply Hcompat; set_solver.
  - intros a0 b1 Ha0 Hb1. apply list_elem_of_lookup in Hb1 as [i Hi].
    destruct (Forall2_lookup_r _ _ _ _ _ Hred Hi) as (b0 & Hb0 & Hr).
    rewrite (reduced_price b0 b1 Hr). apply Hcompat; [set_solver|].
    by eapply list_elem_of_lookup_2.
  - apply Forall_forall. intros b Hbin. apply Hcompat; set_solver.
Qed.

(** C2, as the program has it.  Read without rounding, on a store whose
    amounts are not negative, the amounts of the sales of one call of
    [matchAsksToBids] add up to no more than the smaller of the total amount
    of the asks and the total amount of the bids that [getOrders] returned;
    and to exactly that when no ask is priced above a bid. *)
Theorem matchAsksToBids_conserves_quantity (ob : @OrderBook exact)
    (product' timestamp' : string) :
  (∀ e : entry, e ∈ orders ob → (0 <= amount e)%Q) →
  let sales := (matchAsksToBids ob product' timestamp').1 in
  let asks := getOrders ob ask product' timestamp' in
  let bids := getOrders ob bid product' timestamp' in
  (total_amount sales <= Qmin (total_amount asks) (total_amount bids))%Q ∧
  ((∀ a b : entry, a ∈ asks → b ∈ bids → (price a <= price b)%Q) →
   (total_amount sales == Qmin (total_amount asks) (total_amount bids))%Q).
Proof.
  intros Hnn sales asks bids.
  assert (Forall (λ e, 0 <= qty e)%Q asks) as Hna.
  { apply Forall_forall. intros e [He _]%elem_of_getOrders. by apply Hnn. }
  assert (Forall (λ e, 0 <= qty e)%Q bids) as Hnb.
  { apply Forall_forall. intros e [He _]%elem_of_getOrders. by apply Hnn. }
  pose proof (total_amount_nonneg asks Hna) as HA.
  pose proof (total_amount_nonneg bids Hnb) as HB.
  unfold sales, matchAsksToBids. cbv zeta. simpl.
  rewrite matchAsksToBids_frame_scan. cbv zeta. fold asks bids.
  destruct asks as [|a asks'] eqn:Ea.
  { simpl. rewrite !total_amount_nil. rewrite Q.min_l by done. split; [lra|reflexivity]. }
  destruct bids as [|b bids'] eqn:Eb.
  { simpl. rewrite !total_amount_nil. rewrite Q.min_r by done. split; [lra|reflexivity]. }
  rewrite <-Ea, <-Eb in *. clear Ea Eb.
  assert (std_sort compareByPriceAsc asks ≡ₚ asks) as Hpa.
  { apply std_sort_perm, compareByPriceAsc_swo. done. }
  assert (std_sort compareByPriceDesc bids ≡ₚ bids) as Hpb.
  { apply std_sort_perm, compareByPriceDesc_swo. done. }
  destruct (scanAsks _ _ _ _) as [[ev asks2] bids2] eqn:Hscan. simpl.
  apply scanAsks_exact in Hscan as (Hle & Heq & Hnn2 & Hmin);
    [|by rewrite Hpa|by rewrite Hpb].
  rewrite (total_amount_perm _ _ Hpa) in Hle, Hmin.
  rewrite (total_amount_perm _ _ Hpb) in Heq, Hmin.
  pose proof (total_amount_nonneg bids2 Hnn2) as HB2.
  split.
  - destruct (Q.min_spec (total_amount asks) (total_amount bids)) as [[? ->]|[? ->]]; lra.
  - intros Hcompat. apply Hmin. intros a0 b0. rewrite Hpa, Hpb. apply Hcompat.
Qed.

End Conservation.

(** ** The candlestick series *)

Section Candles.
Context {Ar : Arith} {Laws : OrderLaws Ar} {Fs : Files Ar}.
Local Abbreviation entry := (OrderBookEntry Ar).

Lemma num_leb_refl (x : num) : num_ok x → (x <= x)%num = true.
Proof. intros Hx. by rewrite num_leb_ltb, num_ltb_irrefl. Qed.

Lemma num_leb_trans (x y z : num) :
  num_ok x → num_ok y → num_ok z →
  (x <= y)%num = true → (y <= z)%num = true → (x <= z)%num = true.
Proof.
  intros Hx Hy Hz. rewrite !num_leb_ltb, !negb_true_iff by done.
  intros Hxy Hyz. by apply (num_ltb_negtrans z y x).
Qed.

Lemma num_ltb_leb (x y : num) :
  num_ok x → num_ok y → (x < y)%num = true → (x <= y)%num = true.
Proof.
  intros Hx Hy Hxy. rewrite num_leb_ltb, negb_true_iff by done.
  destruct (y < x)%num eqn:Hyx; [|done].
  by rewrite <-(num_ltb_irrefl x), (num_ltb_trans x y x).
Qed.

Lemma num_not_ltb_leb (x y : num) :
  num_ok x → num_ok y → (x < y)%num = false → (y <= x)%num = true.
Proof. intros Hx Hy Hxy. by rewrite num_leb_ltb, Hxy. Qed.

Lemma foldl_max_spec (l : list entry) (m0 : num) :
  num_ok m0 → (∀ e, e ∈ l → num_ok (price e)) →
  let h := foldl (λ maxPrice e, if (price e > maxPrice)%num then price e else maxPrice)
                 m0 l in
  num_ok h ∧ (m0 <= h)%num = true ∧
  (h = m0 ∨ ∃ e, e ∈ l ∧ price e = h) ∧
  ∀ e, e ∈ l → (price e <= h)%num = true.
Proof.
  revert m0. induction l as [|e l IH]; intros m0 Hm0 Hok; simpl.
  { split_and!; [done|by apply num_leb_refl|by left|set_solver]. }
  assert (num_ok (price e)) as He by (apply Hok; set_solver).
  assert (∀ e, e ∈ l → num_ok (price e)) as Hok' by set_solver.
  destruct (m0 < price e)%num eqn:Hlt.
  - destruct (IH (price e) He Hok') as (Hh & Hle & Hin & Hall).
    split_and!; [done| | |].
    + apply (num_leb_trans m0 (price e)); auto using num_ltb_leb.
    + right. destruct Hin as [Hin|(e' & ? & ?)].
      * exists e. rewrite Hin. set_solver.
      * exists e'. set_solver.
    + intros e' [->|He']%elem_of_cons; eauto.
  - destruct (IH m0 Hm0 Hok') as (Hh & Hle & Hin & Hall).
    split_and!; [done|done| |].
    + destruct Hin as [Hin|(e' & ? & ?)]; [by left|right; exists e'; set_solver].
    + intros e' [->|He']%elem_of_cons; [|eauto].
      apply (num_leb_trans (price e) m0); auto using num_not_ltb_leb.
Qed.

Lemma foldl_min_spec (l : list entry) (m0 : num) :
  num_ok m0 → (∀ e, e ∈ l → num_ok (price e)) →
  let h := foldl (λ minPrice e, if (price e < minPrice)%num then price e else minPrice)
                 m0 l in
  num_ok h ∧ (h <= m0)%num = true ∧
  (h = m0 ∨ ∃ e, e ∈ l ∧ price e = h) ∧
  ∀ e, e ∈ l → (h <= price e)%num = true.
Proof.
  revert m0. induction l as [|e l IH]; intros m0 Hm0 Hok; simpl.
  { split_and!; [done|by apply num_leb_refl|by left|set_solver]. }
  assert (num_ok (price e)) as He by (apply Hok; set_solver).
  assert (∀ e, e ∈ l → num_ok (price e)) as Hok' by set_solver.
  destruct (price e < m0)%num eqn:Hlt.
  - destruct (IH (price e) He Hok') as (Hh & Hle & Hin & Hall).
    split_and!; [done| | |].
    + apply (num_leb_trans _ (price e)); auto using num_ltb_leb.
    + right. destruct Hin as [Hin|(e' & ? & ?)].
      * exists e. rewrite Hin. set_solver.
      * exists e'. set_solver.
    + intros e' [->|He']%elem_of_cons; eauto.
  - destruct (IH m0 Hm0 Hok') as (Hh & Hle & Hin & Hall).
    split_and!; [done|done| |].
    + destruct Hin as [Hin|(e' & ? & ?)]; [by left|right; exists e'; set_solver].
    + intros e' [->|He']%elem_of_cons; [|eauto].
      apply (num_leb_trans _ m0); auto using num_not_ltb_leb.
Qed.

Lemma getHighPrice_spec (entries : list entry) :
  entries ≠ [] → (∀ e, e ∈ entries → num_ok (price e)) →
  ∃ h, getHighPrice entries = Returns h ∧
       (∃ e, e ∈ entries ∧ price e = h) ∧
       ∀ e, e ∈ entries → (price e <= h)%num = true.
Proof.
  destruct entries as [|e0 l]; [done|]. intros _ Hok.
  unfold getHighPrice. cbn [lookup list_lookup]. eexists. split; [done|].
  destruct (foldl_max_spec (e0 :: l) (price e0)) as (_ & _ & Hin & Hall);
    [apply Hok; set_solver|done|].
  split; [|done]. destruct Hin as [Hin|?]; [|done].
  exists e0. split; [set_solver|done].
Qed.

Lemma getLowPrice_spec (entries : list entry) :
  entries ≠ [] → (∀ e, e ∈ entries → num_ok (price e)) →
  ∃ h, getLowPrice entries = Returns h ∧
       (∃ e, e ∈ entries ∧ price e = h) ∧
       ∀ e, e ∈ entries → (h <= price e)%num = true.
Proof.
  destruct entries as [|e0 l]; [done|]. intros _ Hok.
  unfold getLowPrice. cbn [lookup list_lookup]. eexists. split; [done|].
  destruct (foldl_min_spec (e0 :: l) (price e0)) as (_ & _ & Hin & Hall);
    [apply Hok; set_solver|done|].
  split; [|done]. destruct Hin as [Hin|?]; [|done].
  exists e0. split; [set_solver|done].
Qed.

Lemma totals_sums (l : list entry) :
  totals l = (sum_of (λ e, price e * amount e)%num l, total_amount l).
Proof.
  unfold totals, total_amount, sum_of.
  generalize (@num_zero Ar) at 1 3 as v. generalize (@num_zero Ar) as a.
  induction l as [|e l IH]; intros a v; simpl; [done|apply IH].
Qed.

Lemma candleStep_spec (ob : @OrderBook Ar) side product' candles prevClose ts :
  (∀ e, e ∈ orders ob → num_ok (price e)) →
  if has_orders ob side product' ts then
    ∃ c, candleStep ob side product' (candles, prevClose) ts
           = Returns (candles ++ [c], c_close c) ∧
         c_timestamp c = ts ∧ candle_of ob side product' c ∧
         c_open c = match candles with [] => c_close c | _ :: _ => prevClose end
  else candleStep ob side product' (candles, prevClose) ts
         = Returns (candles, prevClose).
Proof.
  intros Hok. unfold has_orders, candleStep. cbv zeta.
  assert (∀ e, e ∈ getOrders ob side product' ts → num_ok (price e)) as Hoke.
  { intros e [He _]%elem_of_getOrders. auto. }
  destruct (getOrders ob side product' ts) as [|e0 l] eqn:Hentries; [done|].
  assert (e0 :: l ≠ []) as Hne by done.
  destruct (getHighPrice_spec _ Hne Hoke) as (h & -> & Hh1 & Hh2).
  destruct (getLowPrice_spec _ Hne Hoke) as (lo & -> & Hl1 & Hl2).
  cbn [mbind outcome_bind].
  destruct (totals (e0 :: l)) as [totVal totAmt] eqn:Htot.
  exists (mkCandlestick Ar ts
            (match candles with [] => (totVal / totAmt)%num | _ :: _ => prevClose end)
            h lo (totVal / totAmt)%num).
  split; [done|]. cbn [c_timestamp c_open c_close c_high c_low].
  split_and!; [done| |done].
  unfold candle_of, vwap. cbn [c_timestamp c_open c_close c_high c_low].
  rewrite totals_sums in Htot. injection Htot as <- <-.
  rewrite Hentries. done.
Qed.

Lemma opens_chained_snoc (candles : list (Candlestick Ar)) c prevClose :
  opens_chained candles →
  (∀ c', last candles = Some c' → c_close c' = prevClose) →
  c_open c = match candles with [] => c_close c | _ :: _ => prevClose end →
  opens_chained (candles ++ [c]).
Proof.
  intros Hch Hlast Hopen k c0 Hk.
  destruct (decide (k < length candles)) as [Hlt|Hge].
  - rewrite lookup_app_l in Hk by done. specialize (Hch k c0 Hk).
    destruct k as [|k']; [done|]. destruct Hch as (c' & Hc' & ?).
    exists c'. split; [|done]. rewrite lookup_app_l; [done|lia].
  - assert (k = length candles) as ->.
    { apply lookup_lt_Some in Hk. rewrite length_app in Hk. simpl in Hk. lia. }
    rewrite list_lookup_middle in Hk by done. injection Hk as <-.
    destruct candles as [|c1 candles'] using rev_ind; [done|].
    rewrite length_app, Nat.add_1_r.
    exists c1. split.
    + rewrite lookup_app_l by (rewrite length_app; simpl; lia).
      by rewrite list_lookup_middle.
    + rewrite Hopen. destruct (candles' ++ [c1]) eqn:E.
      { by destruct candles'. }
      rewrite <-E in *. symmetry. apply Hlast. by rewrite last_snoc.
Qed.

Lemma for_each_candleStep (ob : @OrderBook Ar) side product' (times : list string) :
  (∀ e, e ∈ orders ob → num_ok (price e)) →
  ∀ candles prevClose,
    Forall (candle_of ob side product') candles →
    opens_chained candles →
    (∀ c', last candles = Some c' → c_close c' = prevClose) →
    ∃ candles' prevClose',
      for_each (candleStep ob side product') (candles, prevClose) times
        = Returns (candles', prevClose') ∧
      c_timestamp <$> candles' =
        (c_timestamp <$> candles) ++ List.filter (has_orders ob side product') times ∧
      Forall (candle_of ob side product') candles' ∧
      opens_chained candles'.
Proof.
  intros Hok. induction times as [|ts times IH]; intros candles prevClose Hc Hch Hlast.
  { exists candles, prevClose. simpl. by rewrite app_nil_r. }
  pose proof (candleStep_spec ob side product' candles prevClose ts Hok) as Hstep.
  cbn [for_each List.filter].
  destruct (has_orders ob side product' ts).
  - destruct Hstep as (c & -> & Hts & Hof & Hopen). cbn [mbind outcome_bind].
    destruct (IH (candles ++ [c]) (c_close c)) as (candles' & pc' & -> & Hmap & ? & ?).
    + apply Forall_app. split; [done|by constructor].
    + by eapply opens_chained_snoc.
    + intros c'. rewrite last_snoc. by intros [= ->].
    + exists candles', pc'. split_and!; [done| |done..].
      rewrite Hmap, fmap_app, <-app_assoc. simpl. by rewrite Hts.
  - rewrite Hstep. cbn [mbind outcome_bind]. by apply IH.
Qed.

Lemma getCandlestickData_candle_of (ob : @OrderBook Ar) side product'
    (candles : list (Candlestick Ar)) :
  (∀ e, e ∈ orders ob → num_ok (price e)) →
  getCandlestickData ob side product' = Returns candles →
  Forall (candle_of ob side product') candles.
Proof.
  intros Hok. unfold getCandlestickData.
  destruct (for_each_candleStep ob side product' getAllTimestamps Hok [] num_zero)
    as (candles' & pc & -> & _ & Hof & _).
  - constructor.
  - by intros [|?] ?.
  - done.
  - cbn [mbind outcome_bind]. by intros [= <-].
Qed.


End Candles.

Section CandleOrder.
Context {Ar : Arith} {Laws : OrderLaws Ar} {Fs : Files Ar}.
Local Abbreviation entry := (OrderBookEntry Ar).

(** With proper prices the low of a candle is not above its high. *)
Lemma candle_low_le_high (ob : @OrderBook Ar) side product' (c : Candlestick Ar) :
  (∀ e, e ∈ orders ob → num_ok (price e)) →
  candle_of ob side product' c → (c_low c <= c_high c)%num = true.
Proof.
  intros Hok (_ & _ & Hhigh & (e & He & <-) & _). by apply Hhigh.
Qed.

End CandleOrder.

Section CandleBounds.
Context {Fs : Files exact}.
Local Abbreviation entry := (OrderBookEntry exact).

Lemma weighted_sum_between (lo hi : Q) (l : list entry) :
  Forall (λ e : entry, (lo <= price e)%Q ∧ (price e <= hi)%Q ∧ (0 <= amount e)%Q) l →
  (lo * total_amount l <= sum_of (Ar := exact) (λ e, price e * amount e)%Q l)%Q ∧
  (sum_of (Ar := exact) (λ e, price e * amount e)%Q l <= hi * total_amount l)%Q.
Proof.
  induction 1 as [|e l (Hlo & Hhi & Ha) _ [IH1 IH2]].
  { unfold total_amount, sum_of. simpl. lra. }
  rewrite total_amount_cons, sum_of_cons. unfold qty.
  assert (lo * amount e <= price e * amount e)%Q by (by apply Qmult_le_compat_r).
  assert (price e * amount e <= hi * amount e)%Q by (by apply Qmult_le_compat_r).
  split; lra.
Qed.

(** C4, as the program has it.  Read without rounding, a candle whose
    orders have amounts that are not negative and not all 0 closes between its
    low and its high. *)
Theorem candle_close_between_low_and_high (ob : @OrderBook exact)
    (side : OrderBookType) (product' : string) (candles : list (Candlestick exact)) :
  (∀ e : entry, e ∈ orders ob → (0 <= amount e)%Q) →
  getCandlestickData ob side product' = Returns candles →
  ∀ c, c ∈ candles →
    (0 < total_amount (getOrders ob side product' (c_timestamp c)))%Q →
    (c_low c <= c_close c)%Q ∧ (c_close c <= c_high c)%Q.
Proof.
  intros Hnn Hrun c Hc Hpos.
  pose proof (getCandlestickData_candle_of ob side product' candles
                ltac:(done) Hrun) as Hof.
  eapply Forall_forall in Hof as (_ & _ & Hhigh & _ & Hlow & ->); [|done].
  set (entries := getOrders ob side product' (c_timestamp c)) in *.
  destruct (weighted_sum_between (c_low c) (c_high c) entries) as [H1 H2].
  - apply Forall_forall. intros e He. split_and!.
    + apply Qle_bool_iff, (Hlow e He).
    + apply Qle_bool_iff, (Hhigh e He).
    + apply elem_of_getOrders in He as [He _]. by apply Hnn.
  - unfold vwap. simpl. split.
    + by apply Qle_shift_div_l.
    + by apply Qle_shift_div_r.
Qed.

End CandleBounds.

(** ** Where the specification asks for more than the program does *)

Lemma std_sort_ordered_pair {Sort : StdSort} {A} (comp : A → A → bool) (x y : A) :
  strict_weak_order_on comp [x; y] → comp x y = true →
  std_sort comp [x; y] = [x; y].
Proof.
  intros Hswo Hxy.
  pose proof (std_sort_perm _ comp [x; y] Hswo) as Hp.
  pose proof (std_sort_sorted _ comp [x; y] Hswo) as Hs.
  pose proof (Permutation_length Hp) as Hlen.
  destruct (std_sort comp [x; y]) as [|u [|v [|w r]]]; try done.
  apply Permutation_length_2 in Hp as [[-> ->]|[-> ->]]; [done|].
  apply StronglySorted_inv in Hs as [_ Hs].
  apply Forall_cons in Hs as [Hs _]. congruence.
Qed.

(** C2: the statement of the specification fails, whatever [std::sort]
    does with equivalent elements.  On [Sample.crossed] each side can be
    consumed in full (ask 0 by bid 1, ask 1 by bid 0), but the loops give the
    high bid to the cheap ask and the dear ask finds no bid: one sale of
    amount 1, where the smaller total is 2. *)
Lemma matchAsksToBids_greedy_not_full :
  ¬ ∃ Sort : StdSort,
      quantity_conserved (Ar := binary64) (Sort := Sort)
        Sample.crossed "ETH/BTC" Sample.t1.
Proof.
  intros (Sort & _ & Heq).
  assert (fully_consumable (Ar := binary64)
            (getOrders Sample.crossed ask "ETH/BTC" Sample.t1)
            (getOrders Sample.crossed bid "ETH/BTC" Sample.t1)) as Hfull.
  { exists [(0, 1, 1%float); (1, 0, 1%float)]. by vm_compute. }
  specialize (Heq Hfull).
  unfold matchAsksToBids, matchAsksToBids_frame in Heq.
  change (getOrders Sample.crossed ask "ETH/BTC" Sample.t1)
    with [ @OBE binary64 1%float 1%float Sample.t1 "ETH/BTC" ask;
           @OBE binary64 5%float 1%float Sample.t1 "ETH/BTC" ask ] in Heq.
  change (getOrders Sample.crossed bid "ETH/BTC" Sample.t1)
    with [ @OBE binary64 6%float 1%float Sample.t1 "ETH/BTC" bid;
           @OBE binary64 2%float 1%float Sample.t1 "ETH/BTC" bid ] in Heq.
  cbn [f_asks f_bids set_asks set_bids] in Heq.
  rewrite !std_sort_ordered_pair in Heq.
  - vm_compute in Heq. discriminate.
  - apply (compareByPriceDesc_swo (Laws := binary64_laws)).
    intros e He. repeat (apply elem_of_cons in He as [->|He]); try reflexivity.
    by apply elem_of_nil in He.
  - reflexivity.
  - apply (compareByPriceAsc_swo (Laws := binary64_laws)).
    intros e He. repeat (apply elem_of_cons in He as [->|He]); try reflexivity.
    by apply elem_of_nil in He.
  - reflexivity.
Qed.

(** In binary64 the sums themselves need not obey the bound: on
    [Sample.tenths] the three asks are sold in full, and their amounts added
    in the order of the sales exceed their amounts added in the order of the
    store. *)
Lemma binary64_totals_depend_on_order :
  let sales := (matchAsksToBids (Sort := insertion_StdSort)
                  Sample.tenths "ETH/BTC" Sample.t1).1 in
  let asks := getOrders Sample.tenths ask "ETH/BTC" Sample.t1 in
  let bids := getOrders Sample.tenths bid "ETH/BTC" Sample.t1 in
  PrimFloat.leb (total_amount (Ar := binary64) sales)
     (num_min (Ar := binary64) (total_amount asks) (total_amount bids)) = false.
Proof. by vm_compute. Qed.

(** C4: the statement of the specification fails in binary64.  One ask of
    amount 3 at 0.1: the candle has high 0.1 and close [(0.1 * 3) / 3], which
    is the next number above 0.1. *)
Lemma candle_close_above_high :
  ∃ c, getCandlestickData (Fs := Sample.tenth_files) Sample.tenth ask "ETH/BTC"
         = Returns [c] ∧
       PrimFloat.leb (c_close c) (c_high c) = false.
Proof. eexists. split; [by vm_compute|]. by vm_compute. Qed.

(** In binary64 a candle whose orders have no amount closes at [0 / 0]. *)
Lemma candle_close_nan_without_amount :
  ∃ c, getCandlestickData (Fs := Sample.idle_files) Sample.idle ask "ETH/BTC"
         = Returns [c] ∧
       PrimFloat.is_nan (c_close c) = true.
Proof. eexists. split; [by vm_compute|]. by vm_compute. Qed.

(** C6: the statement of the specification fails.  On the empty store
    [getEarliestTime] does not throw; what it does is not defined. *)
Lemma getEarliestTime_empty_no_error :
  getEarliestTime (@mkOrderBook binary64 []) = Undefined ∧
  ¬ ∃ what, getEarliestTime (@mkOrderBook binary64 []) = Throws what.
Proof. split; [done|]. by intros [what Hw]. Qed.

(** On GCC every call of [std::sort] that [insertOrder] makes returns, and
    the store holds its result. *)
Lemma insertOrder_libstdcxx {Ar : Arith} (ob : @OrderBook Ar) (e : OrderBookEntry Ar) :
  libstdcxx.sort compareByTimestamp (orders ob ++ [e])
  = Returns (orders (insertOrder (Sort := libstdcxx_StdSort) ob e)).
Proof. apply libstdcxx_sort_run, compareByTimestamp_swo. Qed.

(** C7: the statement of the specification fails on the program as GCC
    builds it.  Twenty records of one timestamp, told apart by their prices 1
    to 20, are inserted into the empty store one after the other.  Up to the
    sixteenth the store holds them in the order of insertion.  The
    seventeenth call of [std::sort] is the first on more than 16 elements: it
    partitions the range and leaves the records in the order 9, 17, 16, ...,
    10, 1, 8, ..., 2.  After the twentieth insertion the store holds them in
    the order 1, 20, 18, 2, ..., 17, 19. *)
Lemma insertOrder_ties_not_in_insertion_order :
  let inserted : list (OrderBookEntry binary64) → @OrderBook binary64 :=
    foldl (insertOrder (Sort := libstdcxx_StdSort)) (mkOrderBook []) in
  orders (inserted (take 16 Sample.queue)) = take 16 Sample.queue ∧
  (∃ r : list (OrderBookEntry binary64),
        libstdcxx.sort compareByTimestamp (take 17 Sample.queue) = Returns r ∧
        orders (inserted (take 17 Sample.queue)) = r ∧
        @price binary64 <$> r
        = [9; 17; 16; 15; 14; 13; 12; 11; 10; 1; 8; 7; 6; 5; 4; 3; 2]%float) ∧
  @price binary64 <$> orders (inserted Sample.queue)
  = [1; 20; 18; 2; 3; 4; 5; 6; 7; 8; 9; 10; 11; 12; 13; 14; 15; 16; 17; 19]%float ∧
  ¬ ties_in_insertion_order (Sort := libstdcxx_StdSort) (mkOrderBook []) Sample.queue.
Proof.
  cbv zeta. split_and!.
  - by vm_compute.
  - eexists. split_and!; by vm_compute.
  - by vm_compute.
  - intros Hties. specialize (Hties Sample.t1).
    apply (f_equal (fmap (@price binary64))) in Hties. vm_compute in Hties. discriminate.
Qed.

(** ** The theorems on the concrete stores *)

Lemma sample_book_prices_proper :
  ∀ e, e ∈ orders Sample.book → PrimFloat.is_nan (price e) = false.
Proof.
  intros e He. repeat (apply elem_of_cons in He as [->|He]); try reflexivity.
  by apply elem_of_nil in He.
Defined.

Lemma matchAsksToBids_price_priority_witness :
  (∀ e, e ∈ orders Sample.book → PrimFloat.is_nan (price e) = false) ∧
  ∀ sale,
    sale ∈ (matchAsksToBids (Sort := insertion_StdSort)
              Sample.book "ETH/BTC" Sample.t1).1 →
    ∃ a0, a0 ∈ getOrders Sample.book ask "ETH/BTC" Sample.t1 ∧
          price sale = price a0.
Proof.
  split; [exact sample_book_prices_proper|].
  apply (matchAsksToBids_price_priority (Laws := binary64_laws)
           (Sort := insertion_StdSort) Sample.book "ETH/BTC" Sample.t1
           sample_book_prices_proper).
Defined.

Lemma exact_book_amounts_not_negative :
  ∀ e : OrderBookEntry exact, e ∈ orders Sample.exact_book → (0 <= amount e)%Q.
Proof.
  intros e He. repeat (apply elem_of_cons in He as [->|He]); try (by vm_compute).
  by apply elem_of_nil in He.
Defined.

Lemma matchAsksToBids_conserves_quantity_witness :
  (∀ e : OrderBookEntry exact, e ∈ orders Sample.exact_book → (0 <= amount e)%Q) ∧
  (total_amount (matchAsksToBids (Sort := insertion_StdSort)
                   Sample.exact_book "ETH/BTC" Sample.t1).1
   <= Qmin (total_amount (getOrders Sample.exact_book ask "ETH/BTC" Sample.t1))
           (total_amount (getOrders Sample.exact_book bid "ETH/BTC" Sample.t1)))%Q.
Proof.
  split; [exact exact_book_amounts_not_negative|].
  apply (matchAsksToBids_conserves_quantity (Sort := insertion_StdSort)
           Sample.exact_book "ETH/BTC" Sample.t1 exact_book_amounts_not_negative).
Defined.

Lemma candle_close_between_low_and_high_witness :
  (∀ e : OrderBookEntry exact, e ∈ orders Sample.exact_book → (0 <= amount e)%Q) ∧
  ∃ candles c,
    getCandlestickData (Fs := Sample.exact_files) Sample.exact_book ask "ETH/BTC"
      = Returns candles ∧
    c ∈ candles ∧
    (0 < total_amount (getOrders Sample.exact_book ask "ETH/BTC" (c_timestamp c)))%Q ∧
    (c_low c <= c_close c)%Q ∧ (c_close c <= c_high c)%Q.
Proof.
  split; [exact exact_book_amounts_not_negative|].
  destruct (getCandlestickData (Fs := Sample.exact_files) Sample.exact_book ask "ETH/BTC")
    as [candles| |] eqn:Hrun; [|by vm_compute in Hrun..].
  destruct candles as [|c candles]; [by vm_compute in Hrun|].
  assert (c_timestamp c = Sample.t1) as Hts.
  { vm_compute in Hrun. by injection Hrun as <- _. }
  assert (0 < total_amount (getOrders Sample.exact_book ask "ETH/BTC" (c_timestamp c)))%Q
    as Hpos by (rewrite Hts; by vm_compute).
  exists (c :: candles), c. split_and!; [done|apply list_elem_of_here|done|..];
    apply (candle_close_between_low_and_high (Fs := Sample.exact_files)
             Sample.exact_book ask "ETH/BTC" (c :: candles)
             exact_book_amounts_not_negative Hrun c (list_elem_of_here _ _) Hpos).
Defined.

Lemma sample_book_sorted : store_sorted Sample.book.
Proof. repeat constructor. Defined.

Lemma getNextTime_cycle_witness :
  store_sorted Sample.book ∧ orders Sample.book ≠ [] ∧
  ∃ t0, getEarliestTime Sample.book = Returns t0 ∧
        walk Sample.book 2 t0 = Returns ([Sample.t1; Sample.t2], t0).
Proof.
  split; [exact sample_book_sorted|]. split; [discriminate|].
  apply (proj2 (getNextTime_cycle Sample.book sample_book_sorted ltac:(discriminate))).
Defined.

Lemma getEarliestTime_spec_witness :
  orders Sample.book ≠ [] ∧ store_sorted Sample.book ∧
  ∃ t, getEarliestTime Sample.book = Returns t ∧
       ∀ e, e ∈ orders Sample.book → String.leb t (timestamp e) = true.
Proof.
  split; [discriminate|]. split; [exact sample_book_sorted|].
  destruct (proj2 (getEarliestTime_spec Sample.book) ltac:(discriminate) sample_book_sorted)
    as (t & Ht & _ & Hleast).
  exists t. split; [exact Ht|exact Hleast].
Defined.

Lemma insertOrder_sorted_retrievable_witness :
  store_sorted Sample.book ∧
  let ob' := foldl (insertOrder (Sort := libstdcxx_StdSort)) Sample.book Sample.arrivals in
  store_sorted ob' ∧
  orders ob' ≡ₚ orders Sample.book ++ Sample.arrivals ∧
  ∀ e, e ∈ orders Sample.book ++ Sample.arrivals →
       e ∈ getOrders ob' (orderType e) (product e) (timestamp e).
Proof.
  split; [exact sample_book_sorted|].
  apply (insertOrder_sorted_retrievable (Sort := libstdcxx_StdSort) Sample.book
           Sample.arrivals sample_book_sorted).
Defined.

Lemma matchAsksToBids_zero_amount_sale_witness :
  PrimFloat.leb 1 2 = true ∧
  ∃ sale : OrderBookEntry binary64,
    (matchAsksToBids (Sort := insertion_StdSort)
       (mkOrderBook [ @OBE binary64 1%float 0%float Sample.t1 "ETH/BTC" ask;
                      @OBE binary64 2%float 0%float Sample.t1 "ETH/BTC" bid ])
       "ETH/BTC" Sample.t1).1 = [sale] ∧
    amount sale = 0%float ∧ price sale = 1%float.
Proof.
  split; [reflexivity|].
  apply (matchAsksToBids_zero_amount_sale (Sort := insertion_StdSort) 1 2
           "ETH/BTC" Sample.t1 eq_refl).
Defined.

(** ** Reading a [std::map] *)

Lemma map_find_assign {V} (k k' : string) (v : V) (m : list (string * V)) :
  map_find k' (map_assign k v m) = if String.eqb k' k then Some v else map_find k' m.
Proof.
  induction m as [|[k0 v0] m IH]; simpl.
  { done. }
  destruct (String.ltb k k0) eqn:E1; simpl.
  { done. }
  destruct (String.ltb k0 k) eqn:E2; simpl.
  { rewrite IH. destruct (String.eqb_spec k' k0) as [->|]; [|done].
    destruct (String.eqb_spec k0 k) as [->|]; [|done].
    by rewrite string_ltb_irrefl in E2. }
  rewrite (string_ltb_total k k0) by done. by destruct (String.eqb k' k0).
Qed.

Lemma map_find_Some {V} (k : string) (v : V) (m : list (string * V)) :
  NoDup m.*1 → (k, v) ∈ m ↔ map_find k m = Some v.
Proof.
  induction m as [|[k0 v0] m IH]; csimpl.
  { intros _. split; [by intros ?%elem_of_nil|done]. }
  intros [Hk0 Hm]%NoDup_cons. rewrite elem_of_cons, IH by done.
  destruct (String.eqb_spec k k0) as [->|Hne].
  - split; [intros [[= ->]|Hin]; [done|]|by intros [= ->]; left].
    destruct Hk0. apply list_elem_of_fmap. exists (k0, v).
    split; [done|]. apply IH; done.
  - split; [intros [[= ]|]; done|by right].
Qed.

Lemma map_find_keys {V} (k : string) (m : list (string * V)) :
  k ∈ m.*1 ↔ is_Some (map_find k m).
Proof.
  induction m as [|[k0 v0] m IH]; csimpl.
  { split; [by intros ?%elem_of_nil|by intros []]. }
  rewrite elem_of_cons, IH.
  destruct (String.eqb_spec k k0); naive_solver.
Qed.

Lemma map_assign_ascending {V} (k : string) (v : V) (m : list (string * V)) :
  ascending m.*1 → ascending (map_assign k v m).*1.
Proof. rewrite map_assign_keys. apply set_insert_ascending. Qed.

(** Two ascending lists with the same members are equal. *)
Lemma ascending_ext (l k : list string) :
  ascending l → ascending k → (∀ x, x ∈ l ↔ x ∈ k) → l = k.
Proof.
  intros Hl Hk Hlk.
  apply (StronglySorted_unique_strong (λ a b, String.ltb a b = true)); try done.
  - intros x y _ _ H1 H2. by rewrite (string_ltb_asym x y) in H2.
  - apply NoDup_Permutation; auto using ascending_NoDup.
Qed.
(** ** The volume series *)

Section Volume.
Context {Ar : Arith} {Fs : Files Ar}.
Local Abbreviation entry := (OrderBookEntry Ar).

Lemma getVolumeData_map (ob : @OrderBook Ar) side product' :
  getVolumeData ob side product' =
  (λ ts, (ts, total_amount (getOrders ob side product' ts))) <$> getAllTimestamps.
Proof.
  unfold getVolumeData. cbv zeta.
  rewrite <-(app_nil_l (_ <$> _)).
  generalize (@nil (string * num)) at 2 3 as acc.
  induction getAllTimestamps as [|ts times IH]; intros acc.
  { by rewrite app_nil_r. }
  cbn [foldl fmap list_fmap]. rewrite IH, <-app_assoc. done.
Qed.

(** The loop of [getCandlestickData] reads [v[0]] of vectors that are not
    empty only: every round returns. *)
Lemma candleStep_returns (ob : @OrderBook Ar) side product' candles prevClose ts :
  if has_orders ob side product' ts then
    ∃ c, candleStep ob side product' (candles, prevClose) ts
           = Returns (candles ++ [c], c_close c) ∧
         c_timestamp c = ts
  else candleStep ob side product' (candles, prevClose) ts
         = Returns (candles, prevClose).
Proof.
  unfold has_orders, candleStep. cbv zeta.
  destruct (getOrders ob side product' ts) as [|e0 l]; [done|].
  unfold getHighPrice, getLowPrice. cbn [lookup list_lookup mbind outcome_bind].
  destruct (totals (e0 :: l)) as [totVal totAmt].
  eexists (mkCandlestick Ar ts _ _ _ _). split; done.
Qed.

Lemma for_each_candleStep_returns (ob : @OrderBook Ar) side product' (times : list string) :
  ∀ candles prevClose,
    ∃ candles' prevClose',
      for_each (candleStep ob side product') (candles, prevClose) times
        = Returns (candles', prevClose') ∧
      c_timestamp <$> candles' =
        (c_timestamp <$> candles) ++ List.filter (has_orders ob side product') times.
Proof.
  induction times as [|ts times IH]; intros candles prevClose.
  { exists candles, prevClose. simpl. by rewrite app_nil_r. }
  pose proof (candleStep_returns ob side product' candles prevClose ts) as Hstep.
  cbn [for_each List.filter].
  destruct (has_orders ob side product' ts).
  - destruct Hstep as (c & -> & Hts). cbn [mbind outcome_bind].
    destruct (IH (candles ++ [c]) (c_close c)) as (candles' & pc' & -> & Hmap).
    exists candles', pc'. split; [done|].
    rewrite Hmap, fmap_app, <-app_assoc. simpl. by rewrite Hts.
  - rewrite Hstep. cbn [mbind outcome_bind]. apply IH.
Qed.

(** X1.  [getVolumeData] has one pair for every timestamp of the data files,
    in their ascending order, whether the timestamp has orders of the side
    and product or not: the amount of the pair is the sum of the amounts of
    these orders, which is the 0 the sum starts from when there are none.
    [getCandlestickData] returns on every store, with a candle for those of
    these timestamps only that have such orders, so never more candles than
    the volume series has pairs. *)
Theorem getVolumeData_every_timestamp (ob : @OrderBook Ar) (side : OrderBookType)
    (product' : string) :
  let volume := getVolumeData ob side product' in
  volume.*1 = getAllTimestamps ∧
  ascending volume.*1 ∧
  (∀ ts v, (ts, v) ∈ volume →
     v = total_amount (getOrders ob side product' ts) ∧
     (has_orders ob side product' ts = false → v = num_zero)) ∧
  ∃ candles,
    getCandlestickData ob side product' = Returns candles ∧
    c_timestamp <$> candles = List.filter (has_orders ob side product') volume.*1 ∧
    (length candles ≤ length volume)%nat.
Proof.
  intros volume.
  assert (volume.*1 = getAllTimestamps) as Hts.
  { unfold volume. rewrite getVolumeData_map, <-list_fmap_compose.
    apply list_fmap_id. }
  split_and!; [done| | |].
  - rewrite Hts. unfold getAllTimestamps. simpl.
    repeat apply (foldl_set_insert_ascending timestamp). constructor.
  - intros ts v. unfold volume. rewrite getVolumeData_map.
    intros (ts' & [= <- ->] & _)%list_elem_of_fmap. split; [done|].
    unfold has_orders. by destruct (getOrders ob side product' ts).
  - destruct (for_each_candleStep_returns ob side product' getAllTimestamps [] num_zero)
      as (candles & pc & Hrun & Hmap).
    exists candles. unfold getCandlestickData. rewrite Hrun. split_and!; [done|by rewrite Hts|].
    rewrite <-(length_fmap c_timestamp), Hmap, <-(length_fmap fst volume), Hts.
    simpl. apply List.filter_length_le.
Qed.

End Volume.
(** ** The number of records of a product *)

Lemma map_find_below {V} (k k0 : string) (v0 : V) (m : list (string * V)) :
  ascending ((k0, v0) :: m).*1 → String.ltb k k0 = true →
  map_find k ((k0, v0) :: m) = None.
Proof.
  intros Hm Hk. destruct (map_find k ((k0, v0) :: m)) as [v|] eqn:Hf; [|done].
  assert (k ∈ ((k0, v0) :: m).*1) as Hin by (apply map_find_keys; eauto).
  csimpl in *. apply StronglySorted_inv in Hm as [_ Hall].
  apply elem_of_cons in Hin as [->|Hin].
  - by rewrite string_ltb_irrefl in Hk.
  - eapply Forall_forall in Hall; [|done].
    by rewrite (string_ltb_asym k k0) in Hall.
Qed.

Lemma sum_counts_assign (k : string) (n : Z) (counts : list (string * Z)) :
  ascending counts.*1 →
  sum_counts (map_assign k n counts)
  = (sum_counts counts - default 0 (map_find k counts) + n)%Z.
Proof.
  unfold sum_counts.
  induction counts as [|[k0 n0] m IH]; intros Hm.
  { simpl. lia. }
  cbn [map_assign].
  destruct (String.ltb k k0) eqn:E1.
  { rewrite map_find_below by done. csimpl. lia. }
  destruct (String.ltb k0 k) eqn:E2.
  - csimpl in *. apply StronglySorted_inv in Hm as [Hm _]. rewrite IH by done.
    destruct (String.eqb_spec k k0) as [->|]; [|lia].
    by rewrite string_ltb_irrefl in E2.
  - rewrite (string_ltb_total k k0) by done. csimpl. rewrite String.eqb_refl. simpl. lia.
Qed.

Section Trades.
Context {Ar : Arith}.
Local Abbreviation entry := (OrderBookEntry Ar).

Lemma map_increment_counted (seen : list entry) counts (e : entry) :
  counted seen counts → (Z.of_nat (length seen) < INT_MAX)%Z →
  ∃ counts', map_increment (product e) counts = Returns counts' ∧
             counted (seen ++ [e]) counts'.
Proof.
  intros (Hasc & Hkeys & Hcount & Hsum) Hlen.
  unfold map_increment, int_result.
  pose proof (Hcount (product e)) as Hp.
  pose proof (List.filter_length_le (λ e0 : entry, String.eqb (product e0) (product e)) seen).
  unfold INT_MAX, INT_MIN in *.
  rewrite (proj2 (andb_true_iff _ _)) by (split; apply Z.leb_le; lia).
  cbn [mbind outcome_bind]. eexists. split; [done|]. split_and!.
  - by apply map_assign_ascending.
  - intros p. rewrite map_assign_keys, elem_of_set_insert, Hkeys.
    setoid_rewrite elem_of_app. setoid_rewrite list_elem_of_singleton. naive_solver.
  - intros p. rewrite map_find_assign, List.filter_app, length_app. simpl.
    destruct (String.eqb_spec p (product e)) as [->|Hne].
    + rewrite String.eqb_refl. simpl. lia.
    + rewrite (proj2 (String.eqb_neq _ _)) by done. simpl. rewrite Hcount. lia.
  - rewrite sum_counts_assign, Hsum, length_app by done. simpl. lia.
Qed.

Lemma getTradesPerProduct_counted (l : list entry) :
  ∀ seen counts,
    counted seen counts → (Z.of_nat (length (seen ++ l)) ≤ INT_MAX)%Z →
    ∃ counts', for_each (λ counts e, map_increment (product e) counts) counts l
                 = Returns counts' ∧
               counted (seen ++ l) counts'.
Proof.
  induction l as [|e l IH]; intros seen counts Hc Hlen; simpl.
  { exists counts. by rewrite app_nil_r. }
  rewrite length_app in Hlen. simpl in Hlen.
  destruct (map_increment_counted seen counts e Hc) as (counts1 & -> & Hc1); [lia|].
  cbn [mbind outcome_bind].
  destruct (IH (seen ++ [e]) counts1 Hc1) as (counts' & -> & Hc').
  { rewrite <-app_assoc, length_app. simpl. lia. }
  exists counts'. by rewrite <-app_assoc in Hc'.
Qed.

(** X2.  On a store of at most [INT_MAX] records [getTradesPerProduct]
    returns a map whose keys are the known products, in the order of
    [getKnownProducts]; the count of a product is the number of stored records
    (orders, not trades) that have it, which is at least 1, and the counts add
    up to the number of records of the store. *)
Theorem getTradesPerProduct_counts (ob : @OrderBook Ar) :
  (Z.of_nat (length (orders ob)) ≤ INT_MAX)%Z →
  ∃ counts,
    getTradesPerProduct ob = Returns counts ∧
    counts.*1 = getKnownProducts ob ∧
    (∀ p n, (p, n) ∈ counts ↔
            p ∈ getKnownProducts ob ∧ n = Z.of_nat (records_of ob p)) ∧
    (∀ p n, (p, n) ∈ counts → (1 ≤ n)%Z) ∧
    sum_counts counts = Z.of_nat (length (orders ob)).
Proof.
  intros Hlen.
  destruct (getTradesPerProduct_counted (orders ob) [] []) as (counts & Hrun & Hc).
  { split_and!; [constructor| |done|done].
    intros p. split; [by intros ?%elem_of_nil|by intros (? & ?%elem_of_nil & _)]. }
  { done. }
  simpl in Hc. destruct Hc as (Hasc & Hkeys & Hcount & Hsum).
  assert (counts.*1 = getKnownProducts ob) as Hk.
  { apply ascending_ext; [done| |].
    - rewrite getKnownProducts_set. apply foldl_set_insert_ascending. constructor.
    - intros p. rewrite Hkeys, getKnownProducts_set, elem_of_foldl_set_insert.
      split; [by right|]. by intros [?%elem_of_nil|?]. }
  assert (∀ p n, (p, n) ∈ counts ↔
            p ∈ getKnownProducts ob ∧ n = Z.of_nat (records_of ob p)) as Hmem.
  { intros p n. rewrite map_find_Some by (by apply ascending_NoDup).
    rewrite <-Hk, map_find_keys. unfold records_of. rewrite <-Hcount.
    destruct (map_find p counts) as [n'|]; simpl.
    - split; [by intros [= ->]|]. by intros [_ ->].
    - split; [done|]. by intros [[] _]. }
  exists counts. split_and!; [done..| |done].
  intros p n [Hp ->]%Hmem. rewrite <-Hk, Hkeys in Hp.
  destruct Hp as (e & He & Hpe). unfold records_of.
  assert (e ∈ List.filter (λ e0 : entry, String.eqb (product e0) p) (orders ob)) as Hin.
  { rewrite list_elem_of_In, filter_In, <-list_elem_of_In.
    split; [done|]. by apply String.eqb_eq. }
  destruct (List.filter _ _); [by apply elem_of_nil in Hin|]. simpl. lia.
Qed.

End Trades.
(** ** Strings as sequences of characters *)

Lemma length_list_ascii_of_string (s : string) :
  length (String.list_ascii_of_string s) = String.length s.
Proof. induction s as [|c s IH]; simpl; [done|by rewrite IH]. Qed.

Lemma substr_inside (s : string) (pos n : Z) :
  (0 ≤ pos ≤ size s)%Z → (0 ≤ n)%Z →
  substr s pos n =
  Returns (String.string_of_list_ascii
             (take (Z.to_nat n) (drop (Z.to_nat pos) (String.list_ascii_of_string s)))).
Proof.
  intros Hpos Hn. unfold substr, size in *.
  rewrite (proj2 (Z.ltb_ge _ _)) by lia. do 2 f_equal.
  destruct (Z.min_spec n (Z.of_nat (String.length s) - pos)) as [[_ ->]|[Hle ->]]; [done|].
  rewrite !take_ge; [done|rewrite length_drop, length_list_ascii_of_string; lia..].
Qed.

Lemma substr_outside (s : string) (pos n : Z) :
  (size s < pos)%Z → substr s pos n = Throws "std::out_of_range".
Proof. intros Hpos. unfold substr. by rewrite (proj2 (Z.ltb_lt _ _)). Qed.

(** ** The mean price of a minute *)

Section MeanPrice.
Context {Ar : Arith} {Ml : MathLib Ar}.
Local Abbreviation entry := (OrderBookEntry Ar).

(** The body of the first loop of [getMeanPriceData]. *)
Local Abbreviation group type product' :=
  (λ (pricesByMinute : list (string * list num)) (e : entry),
     if bool_decide (orderType e = type) && String.eqb (product e) product'
     then
       minute ← substr (timestamp e) 11 5;
       Returns (map_push_back minute (price e) pricesByMinute)
     else Returns pricesByMinute).

Lemma filter_in_minute_snoc type product' minute (seen : list entry) (e : entry) :
  List.filter (in_minute type product' minute) (seen ++ [e])
  = List.filter (in_minute type product' minute) seen
    ++ (if in_minute type product' minute e then [e] else []).
Proof. by rewrite List.filter_app. Qed.

Lemma group_grouped type product' (seen : list entry) m (e : entry) :
  grouped type product' seen m →
  (orderType e = type → product e = product' → 11 ≤ String.length (timestamp e))%nat →
  ∃ m', group type product' m e = Returns m' ∧ grouped type product' (seen ++ [e]) m'.
Proof.
  intros (Hasc & Hkeys & Hfind) Hlen. cbv beta.
  destruct (bool_decide (orderType e = type) && String.eqb (product e) product') eqn:Hm.
  - apply andb_true_iff in Hm as [Ht%bool_decide_eq_true Hp%String.eqb_eq].
    rewrite substr_inside by (unfold size; specialize (Hlen Ht Hp); lia).
    change (Z.to_nat 5) with 5%nat. change (Z.to_nat 11) with 11%nat.
    fold (minute_of (timestamp e)). cbn [mbind outcome_bind].
    eexists. split; [done|]. unfold map_push_back.
    assert (∀ minute, in_minute type product' minute e
                      = String.eqb (minute_of (timestamp e)) minute) as Hin.
    { intros minute. unfold in_minute.
      by rewrite (bool_decide_eq_true_2 _ Ht), (proj2 (String.eqb_eq _ _) Hp). }
    split_and!.
    + by apply map_assign_ascending.
    + intros minute. rewrite map_assign_keys, elem_of_set_insert, Hkeys.
      setoid_rewrite elem_of_app. setoid_rewrite list_elem_of_singleton.
      split.
      * intros [->|(e' & ? & ?)]; [|by eauto].
        exists e. split; [by right|]. by rewrite Hin, String.eqb_refl.
      * intros (e' & [?| ->] & He'); [by eauto|].
        left. rewrite Hin in He'. by apply String.eqb_eq in He'.
    + intros minute. rewrite map_find_assign, filter_in_minute_snoc, fmap_app, Hin.
      rewrite (String.eqb_sym minute).
      destruct (String.eqb_spec (minute_of (timestamp e)) minute) as [->|].
      * simpl. by rewrite Hfind.
      * simpl. by rewrite app_nil_r.
  - cbn [mbind outcome_bind]. eexists. split; [done|].
    assert (∀ minute, in_minute type product' minute e = false) as Hin.
    { intros minute. unfold in_minute. by rewrite Hm. }
    split_and!; [done| |].
    + intros minute. rewrite Hkeys. setoid_rewrite elem_of_app.
      setoid_rewrite list_elem_of_singleton.
      split; [by intros (e' & ? & ?); eauto|].
      intros (e' & [?| ->] & He'); [by eauto|]. by rewrite Hin in He'.
    + intros minute. by rewrite filter_in_minute_snoc, Hin, app_nil_r.
Qed.

Lemma for_each_group_grouped type product' (l : list entry) :
  ∀ seen m,
    grouped type product' seen m →
    (∀ e, e ∈ l → orderType e = type → product e = product' →
          11 ≤ String.length (timestamp e))%nat →
    ∃ m', for_each (group type product') m l = Returns m' ∧
          grouped type product' (seen ++ l) m'.
Proof.
  induction l as [|e l IH]; intros seen m Hg Hlen.
  { exists m. by rewrite app_nil_r. }
  cbn [for_each].
  destruct (group_grouped type product' seen m e Hg) as (m1 & -> & Hg1).
  { apply Hlen. by left. }
  cbn [mbind outcome_bind].
  destruct (IH (seen ++ [e]) m1 Hg1) as (m' & -> & Hg').
  { intros e' He'. apply Hlen. by right. }
  exists m'. by rewrite <-app_assoc in Hg'.
Qed.

(** The body of the second loop. *)
Local Abbreviation mean :=
  (λ (result : list (string * num)) '(minute, priceList),
     match priceList with
     | [] => result
     | _ :: _ =>
         let sum := foldl (λ sum p, (sum + p)%num) num_zero priceList in
         let avg := (sum / num_of_size (length priceList))%num in
         let avg := (std_round (avg * num_1e6) / num_1e6)%num in
         result ++ [(minute, avg)]
     end).

Lemma means_of_groups (m : list (string * list num)) (acc : list (string * num)) :
  Forall (λ '(_, priceList), priceList ≠ []) m →
  foldl mean acc m
  = acc ++ ((λ '(minute, priceList), (minute, rounded_mean priceList)) <$> m).
Proof.
  revert acc. induction m as [|[minute pl] m IH]; intros acc Hne.
  { by rewrite app_nil_r. }
  apply Forall_cons in Hne as [Hpl Hne].
  cbn [foldl fmap list_fmap]. destruct pl as [|p pl]; [done|].
  rewrite IH by done. by rewrite <-app_assoc.
Qed.

(** X3.  When the timestamps of the records of the side and product have at
    least 11 characters, [getMeanPriceData] returns one pair for every label
    [minute_of timestamp] of these records, the labels ascending and so
    without repetition; the value of a label is the rounded mean of the
    prices of the records of the side and product whose timestamp has this
    label, taken in the order of the store.  The label is the time of day
    alone: records of different days go under one label. *)
Theorem getMeanPriceData_by_minute (ob : @OrderBook Ar) (type : OrderBookType)
    (product' : string) :
  (∀ e, e ∈ orders ob → orderType e = type → product e = product' →
        11 ≤ String.length (timestamp e))%nat →
  ∃ result,
    getMeanPriceData ob type product' = Returns result ∧
    ascending result.*1 ∧
    (∀ minute, minute ∈ result.*1 ↔
       ∃ e, e ∈ orders ob ∧ in_minute type product' minute e = true) ∧
    ∀ minute avg, (minute, avg) ∈ result →
      avg = rounded_mean
              (price <$> List.filter (in_minute type product' minute) (orders ob)).
Proof.
  intros Hlen. unfold getMeanPriceData.
  destruct (for_each_group_grouped type product' (orders ob) [] []) as (m & -> & Hg).
  { split_and!; [constructor| |done].
    intros p. split; [by intros ?%elem_of_nil|by intros (? & ?%elem_of_nil & _)]. }
  { done. }
  cbn [mbind outcome_bind]. simpl in Hg. destruct Hg as (Hasc & Hkeys & Hfind).
  assert (∀ minute pl, (minute, pl) ∈ m →
            pl = price <$> List.filter (in_minute type product' minute) (orders ob)) as Hpl.
  { intros minute pl Hin. apply map_find_Some in Hin; [|by apply ascending_NoDup].
    by rewrite <-Hfind, Hin. }
  rewrite means_of_groups, app_nil_l.
  2:{ apply Forall_forall. intros [minute pl] Hin. rewrite (Hpl _ _ Hin).
      assert (minute ∈ m.*1) as (e & He & Hm)%Hkeys.
      { apply list_elem_of_fmap. by exists (minute, pl). }
      assert (e ∈ List.filter (in_minute type product' minute) (orders ob)) as Hf.
      { by rewrite list_elem_of_In, filter_In, <-list_elem_of_In. }
      destruct (List.filter _ _); [by apply elem_of_nil in Hf|done]. }
  eexists. split; [done|].
  assert (((λ '(minute, priceList), (minute, rounded_mean priceList)) <$> m).*1 = m.*1) as Hk.
  { rewrite <-list_fmap_compose. apply list_fmap_ext. by intros _ [??] _. }
  rewrite Hk. split_and!; [done..|].
  intros minute avg ([minute' pl] & [= -> ->] & Hin)%list_elem_of_fmap.
  by rewrite (Hpl _ _ Hin).
Qed.

(** X4.  When a record of the side and product has a timestamp of fewer
    than 11 characters, [getMeanPriceData] throws [std::out_of_range], from
    [substr(11, 5)]; nothing in it or in [printMeanPriceChart] catches. *)
Theorem getMeanPriceData_short_timestamp (ob : @OrderBook Ar) (type : OrderBookType)
    (product' : string) (e : entry) :
  e ∈ orders ob → orderType e = type → product e = product' →
  (String.length (timestamp e) < 11)%nat →
  getMeanPriceData ob type product' = Throws "std::out_of_range".
Proof.
  intros He Ht Hp Hlen. unfold getMeanPriceData.
  assert (∀ m, for_each (group type product') m (orders ob)
               = Throws "std::out_of_range") as ->; [|done].
  induction (orders ob) as [|e' l IH]; intros m; [by apply elem_of_nil in He|].
  cbn [for_each].
  destruct (bool_decide (orderType e' = type) && String.eqb (product e') product') eqn:Hm.
  - destruct (decide (String.length (timestamp e') < 11)%nat) as [Hshort|Hlong].
    + rewrite substr_outside by (unfold size; lia). done.
    + rewrite substr_inside by (unfold size; lia). cbn [mbind outcome_bind].
      apply IH. apply elem_of_cons in He as [->|]; [lia|done].
  - cbn [mbind outcome_bind]. apply IH.
    apply elem_of_cons in He as [->|]; [|done].
    by rewrite (bool_decide_eq_true_2 _ Ht), (proj2 (String.eqb_eq _ _) Hp) in Hm.
Qed.

End MeanPrice.
(** ** The timestamps of the charts and the timestamps of the store *)

Section Timeline.
Context {Ar : Arith} {Sort : StdSort} {Fs : Files Ar}.
Local Abbreviation entry := (OrderBookEntry Ar).

Lemma OrderBook_new_perm (file1 file2 : string) :
  orders (OrderBook_new file1 file2) ≡ₚ readCSV file1 ++ readCSV file2.
Proof. apply std_sort_perm. apply (compareByTimestamp_swo (Ar := Ar)). Qed.

Lemma elem_of_getAllTimestamps (ts : string) :
  ts ∈ getAllTimestamps ↔
  ∃ e : entry, e ∈ readCSV "20200317.csv" ++ readCSV "20200601.csv" ∧ timestamp e = ts.
Proof.
  unfold getAllTimestamps. cbn [foldl].
  rewrite !elem_of_foldl_set_insert. setoid_rewrite elem_of_app.
  split.
  - intros [[?%elem_of_nil|(e & ? & ?)]|(e & ? & ?)]; [done|eauto..].
  - intros (e & [?|?] & ?); eauto.
Qed.

Lemma elem_of_stored_timestamps (ob : @OrderBook Ar) (ts : string) :
  ts ∈ stored_timestamps ob ↔ ∃ e : entry, e ∈ orders ob ∧ timestamp e = ts.
Proof.
  unfold stored_timestamps. rewrite elem_of_foldl_set_insert.
  split; [by intros [?%elem_of_nil|?]|by right].
Qed.

(** X5.  The store that [main] builds holds the records of the two data
    files, and as long as the orders inserted carry timestamps of these files
    (the simulation stamps them with its current time), the distinct
    timestamps of the store are the timestamps that the charts go through:
    [getAllTimestamps] and the cursor of [getNextTime] range over the same
    ascending sequence. *)
Theorem getAllTimestamps_stored (new : list entry) :
  (∀ e, e ∈ new → timestamp e ∈ getAllTimestamps) →
  let ob := foldl insertOrder (OrderBook_new "20200317.csv" "20200601.csv") new in
  orders ob ≡ₚ readCSV "20200317.csv" ++ readCSV "20200601.csv" ++ new ∧
  stored_timestamps ob = getAllTimestamps.
Proof.
  intros Hnew ob.
  assert (orders ob ≡ₚ readCSV "20200317.csv" ++ readCSV "20200601.csv" ++ new) as Hperm.
  { unfold ob. by rewrite insertOrders_perm, OrderBook_new_perm, <-app_assoc. }
  split; [done|].
  apply ascending_ext.
  - apply (foldl_set_insert_ascending timestamp). constructor.
  - unfold getAllTimestamps. simpl.
    repeat apply (foldl_set_insert_ascending timestamp). constructor.
  - intros ts. rewrite elem_of_stored_timestamps, elem_of_getAllTimestamps.
    setoid_rewrite Hperm. repeat setoid_rewrite elem_of_app.
    split; [|naive_solver].
    intros (e & [?|[?|He]] & <-); [naive_solver..|].
    apply Hnew, elem_of_getAllTimestamps in He as (e' & He' & ?).
    apply elem_of_app in He'. eauto.
Qed.

(** X6.  Every store the program can be in (built by the constructor from
    any two files, then changed by [insertOrder] and passed through
    [matchAsksToBids] in any order) is sorted by timestamp; so when it is not
    empty [getEarliestTime] returns the least of its timestamps, and
    [getNextTime] returns a timestamp of the store. *)
Theorem reachable_store_sorted (ob : @OrderBook Ar) :
  reachable ob →
  store_sorted ob ∧
  (orders ob ≠ [] →
   ∃ t0, getEarliestTime ob = Returns t0 ∧
         (∀ e, e ∈ orders ob → String.leb t0 (timestamp e) = true) ∧
         ∀ t, ∃ t', getNextTime ob t = Returns t' ∧
                    ∃ e, e ∈ orders ob ∧ timestamp e = t').
Proof.
  intros Hr. pose proof (reachable_sorted ob Hr) as Hs. split; [done|].
  intros Hne. destruct (orders ob) as [|e0 l] eqn:Ho; [done|].
  exists (timestamp e0). unfold getEarliestTime. rewrite Ho. split_and!; [done| |].
  - unfold store_sorted in Hs. rewrite Ho in Hs.
    apply StronglySorted_inv in Hs as [_ Hall].
    intros e [->|He]%elem_of_cons.
    + pose proof (string_ltb_leb (timestamp e0) (timestamp e0)) as Hrefl.
      rewrite string_ltb_irrefl in Hrefl. by destruct (String.leb _ _).
    + by eapply Forall_forall in Hall.
  - intros t. unfold getNextTime. rewrite Ho. cbn [lookup list_lookup].
    destruct (String.eqb_spec (firstAfter t (e0 :: l)) "") as [Heq|Hneq].
    + exists (timestamp e0). split; [done|]. exists e0. split; [by left|done].
    + eexists. split; [done|].
      clear -Hneq. induction (e0 :: l) as [|e l' IH]; simpl in *; [done|].
      destruct (String.ltb t (timestamp e)).
      * exists e. split; [by left|done].
      * destruct (IH Hneq) as (e' & ? & ?). exists e'. split; [by right|done].
Qed.

End Timeline.
(** ** The matching engine: the records of the sales *)

Section SaleRecords.
Context {Ar : Arith} {Laws : OrderLaws Ar} {Sort : StdSort}.
Local Abbreviation entry := (OrderBookEntry Ar).

Lemma pairStep_sale product' timestamp' (a b : entry) s a' b' brk :
  pairStep product' timestamp' a b = (s, a', b', brk) →
  Forall (sale_of product' timestamp') (event_of s a b).
Proof.
  unfold pairStep. intros Hp.
  repeat case_match; simplify_eq; simpl; repeat constructor.
Qed.

Lemma scanBids_sales product' timestamp' (bs : list entry) :
  ∀ a ev a' bs',
    scanBids product' timestamp' a bs = (ev, a', bs') →
    Forall (sale_of product' timestamp') ev.
Proof.
  induction bs as [|b bs IH]; intros a ev a' bs'; simpl.
  { intros [= <- <- <-]. constructor. }
  destruct (pairStep product' timestamp' a b) as [[[s a1] b1] brk] eqn:Hp.
  apply pairStep_sale in Hp. destruct brk.
  { by intros [= <- <- <-]. }
  destruct (scanBids product' timestamp' a1 bs) as [[ev2 a2] bs2] eqn:Hscan.
  apply IH in Hscan. intros [= <- <- <-]. by apply Forall_app.
Qed.

Lemma scanAsks_sales product' timestamp' (asks : list entry) :
  ∀ bs ev asks' bs',
    scanAsks product' timestamp' asks bs = (ev, asks', bs') →
    Forall (sale_of product' timestamp') ev.
Proof.
  induction asks as [|a asks IH]; intros bs ev asks' bs'; simpl.
  { intros [= <- <- <-]. constructor. }
  destruct (scanBids product' timestamp' a bs) as [[ev1 a1] bs1] eqn:Hb.
  apply scanBids_sales in Hb.
  destruct (scanAsks product' timestamp' asks bs1) as [[ev2 asks2] bs2] eqn:Ha.
  apply IH in Ha. intros [= <- <- <-]. by apply Forall_app.
Qed.

Lemma reduced_username (a0 a : entry) : reduced a0 a → username a = username a0.
Proof.
  unfold reduced, set_amount. destruct a0, a; simpl. intros ?; by simplify_eq.
Qed.

Lemma sale_of_fields product' timestamp' (sale a b : entry) :
  sale_of product' timestamp' (sale, (a, b)) →
  timestamp sale = timestamp' ∧ product sale = product' ∧ price sale = price a ∧
  (username sale, orderType sale) = sale_owner a b.
Proof.
  unfold sale_of, newSale, sale_owner. intros ->.
  destruct (String.eqb (username a) "simuser"), (String.eqb (username b) "simuser"); done.
Qed.

(** The events of a call: each is the sale of an ask and a bid that
    [getOrders] returned, with possibly reduced amounts. *)
Lemma matchAsksToBids_events (ob : OrderBook) (product' timestamp' : string) :
  (∀ e, e ∈ orders ob → num_ok (price e)) →
  let f := matchAsksToBids_frame ob product' timestamp' in
  Forall2 (λ sale '(a, b),
             sale_of product' timestamp' (sale, (a, b)) ∧
             (price b >= price a)%num = true ∧
             (∃ a0, a0 ∈ getOrders ob ask product' timestamp' ∧ reduced a0 a) ∧
             (∃ b0, b0 ∈ getOrders ob bid product' timestamp' ∧ reduced b0 b))
          (f_sales f) (f_matched f).
Proof.
  intros Hok f. unfold f. rewrite matchAsksToBids_frame_scan. cbv zeta.
  set (asks := getOrders ob ask product' timestamp').
  set (bids := getOrders ob bid product' timestamp').
  assert (∀ e, e ∈ asks → num_ok (price e)) as Hoka.
  { intros e [He _]%elem_of_getOrders. auto. }
  assert (∀ e, e ∈ bids → num_ok (price e)) as Hokb.
  { intros e [He _]%elem_of_getOrders. auto. }
  destruct asks as [|a asks'] eqn:Ea; [constructor|].
  destruct bids as [|b bids'] eqn:Eb; [constructor|].
  rewrite <-Ea, <-Eb in *. clear Ea Eb.
  pose proof (std_sort_perm _ _ _ (compareByPriceAsc_swo asks Hoka)) as Hpa.
  pose proof (std_sort_perm _ _ _ (compareByPriceDesc_swo bids Hokb)) as Hpb.
  destruct (scanAsks _ _ _ _) as [[ev asks2] bids2] eqn:Hscan.
  pose proof (scanAsks_sales _ _ _ _ _ _ _ Hscan) as Hsales.
  apply scanAsks_facts in Hscan as (_ & _ & Hev). simpl.
  pose proof (conj Hsales Hev) as Hboth%Forall_and.
  apply Forall_events_Forall2 in Hboth.
  eapply Forall2_impl; [done|]. simpl.
  intros sale [a0 b0] (? & _ & ? & (a1 & Ha1 & ?) & (b1 & Hb1 & ?)).
  split_and!; [done|done| |].
  - exists a1. by rewrite <-Hpa.
  - exists b1. by rewrite <-Hpb.
Qed.

(** X7.  Every sale that [matchAsksToBids] returns carries the timestamp
    and the product of the call.  It is the user's ("simuser") exactly when
    the ask or the bid it was made from is: it is a sale of the ask when the
    ask is the user's, a sale of the bid when only the bid is, and a sale of
    the ask by "dataset" otherwise.  So a sale of the user comes from an
    order of the user that is in the store for this product and timestamp,
    on the side that the type of the sale names. *)
Theorem matchAsksToBids_sale_owner (ob : OrderBook) (product' timestamp' : string) :
  (∀ e, e ∈ orders ob → num_ok (price e)) →
  let f := matchAsksToBids_frame ob product' timestamp' in
  Forall2 (λ sale '(a, b),
             timestamp sale = timestamp' ∧ product sale = product' ∧
             (username sale, orderType sale) = sale_owner a b)
          (f_sales f) (f_matched f) ∧
  ∀ sale, sale ∈ (matchAsksToBids ob product' timestamp').1 →
    (username sale = "dataset" ∧ orderType sale = asksale) ∨
    (username sale = "simuser" ∧
     ∃ o side, o ∈ getOrders ob side product' timestamp' ∧ username o = "simuser" ∧
               (side = ask ∧ orderType sale = asksale ∨
                side = bid ∧ orderType sale = bidsale)).
Proof.
  intros Hok f.
  pose proof (matchAsksToBids_events ob product' timestamp' Hok) as Hev.
  cbv zeta in Hev. fold f in Hev. split.
  - eapply Forall2_impl; [done|]. intros sale [a b] (Hs & _).
    apply sale_of_fields in Hs as (? & ? & _ & ?). done.
  - intros sale Hsale. change (sale ∈ f_sales f) in Hsale.
    apply list_elem_of_lookup in Hsale as [k Hk].
    destruct (Forall2_lookup_l _ _ _ _ _ Hev Hk)
      as ([a b] & _ & Hs & _ & (a0 & Ha0 & Hra) & (b0 & Hb0 & Hrb)).
    apply sale_of_fields in Hs as (_ & _ & _ & Hown).
    unfold sale_owner in Hown.
    destruct (String.eqb_spec (username a) "simuser") as [Hua|_].
    { injection Hown as -> ->. right. split; [done|].
      exists a0, ask. rewrite <-(reduced_username a0 a Hra). auto. }
    destruct (String.eqb_spec (username b) "simuser") as [Hub|_].
    { injection Hown as -> ->. right. split; [done|].
      exists b0, bid. rewrite <-(reduced_username b0 b Hrb). auto. }
    injection Hown as -> ->. by left.
Qed.

(** The first round of the loops, when the first ask and the first bid can
    trade and the bid has an amount above 0. *)
Lemma scanAsks_first_sale product' timestamp' (a b : entry) (asks bs : list entry) :
  (price b >= price a)%num = true → (amount b > num_zero)%num = true →
  ∃ sale ev, (scanAsks product' timestamp' (a :: asks) (b :: bs)).1.1 = (sale, (a, b)) :: ev ∧
             price sale = price a.
Proof.
  intros Hp Hb. cbn [scanAsks scanBids]. unfold pairStep. rewrite Hp, Hb.
  destruct (amount b == amount a)%num.
  { destruct (scanAsks _ _ asks _) as [[ev' asks''] bs'']. simpl.
    eexists _, _. split; [done|]. simpl. apply newSale_price. }
  destruct (amount b > amount a)%num.
  { destruct (scanAsks _ _ asks _) as [[ev' asks''] bs'']. simpl.
    eexists _, _. split; [done|]. simpl. apply newSale_price. }
  destruct (scanBids _ _ _ bs) as [[ev1 a1] bs1].
  destruct (scanAsks _ _ asks _) as [[ev' asks''] bs'']. simpl.
  eexists _, _. split; [done|]. simpl. apply newSale_price.
Qed.

(** X8.  With proper prices, and bids whose amounts are above 0, a call of
    [matchAsksToBids] returns a sale exactly when some ask of the product and
    timestamp is priced at or below some bid; the first sale is then at the
    lowest price of these asks, made with a bid of the highest price. *)
Theorem matchAsksToBids_trades_when_crossed (ob : OrderBook) (product' timestamp' : string) :
  (∀ e, e ∈ orders ob → num_ok (price e)) →
  (∀ b, b ∈ getOrders ob bid product' timestamp' → (amount b > num_zero)%num = true) →
  let asks := getOrders ob ask product' timestamp' in
  let bids := getOrders ob bid product' timestamp' in
  let f := matchAsksToBids_frame ob product' timestamp' in
  ((matchAsksToBids ob product' timestamp').1 ≠ [] ↔
   ∃ a b, a ∈ asks ∧ b ∈ bids ∧ (price b >= price a)%num = true) ∧
  ∀ sale a b, f_sales f !! 0 = Some sale → f_matched f !! 0 = Some (a, b) →
    price sale = price a ∧
    (∀ a', a' ∈ asks → (price sale <= price a')%num = true) ∧
    (∀ b', b' ∈ bids → (price b' <= price b)%num = true).
Proof.
  intros Hok Hpos asks bids f.
  pose proof (matchAsksToBids_events ob product' timestamp' Hok) as Hev.
  cbv zeta in Hev. fold f in Hev.
  assert (∀ e, e ∈ asks → num_ok (price e)) as Hoka.
  { intros e [He _]%elem_of_getOrders. auto. }
  assert (∀ e, e ∈ bids → num_ok (price e)) as Hokb.
  { intros e [He _]%elem_of_getOrders. auto. }
  (* the sorted vectors and their first elements *)
  assert (asks ≠ [] → bids ≠ [] →
          ∃ a1 asks1 b1 bids1,
            std_sort compareByPriceAsc asks = a1 :: asks1 ∧
            std_sort compareByPriceDesc bids = b1 :: bids1 ∧
            a1 ∈ asks ∧ b1 ∈ bids ∧
            (∀ a', a' ∈ asks → (price a1 <= price a')%num = true) ∧
            (∀ b', b' ∈ bids → (price b' <= price b1)%num = true) ∧
            f_sales f = (scanAsks product' timestamp' (a1 :: asks1) (b1 :: bids1)).1.1.*1 ∧
            f_matched f = (scanAsks product' timestamp' (a1 :: asks1) (b1 :: bids1)).1.1.*2)
    as Hsorted.
  { intros Hna Hnb.
    pose proof (std_sort_perm _ _ _ (compareByPriceAsc_swo asks Hoka)) as Hpa.
    pose proof (std_sort_perm _ _ _ (compareByPriceDesc_swo bids Hokb)) as Hpb.
    pose proof (std_sort_sorted _ _ _ (compareByPriceAsc_swo asks Hoka)) as Hsa.
    pose proof (std_sort_sorted _ _ _ (compareByPriceDesc_swo bids Hokb)) as Hsb.
    unfold f. rewrite matchAsksToBids_frame_scan. cbv zeta. fold asks bids.
    destruct (std_sort compareByPriceAsc asks) as [|a1 asks1] eqn:Esa.
    { apply Permutation_nil_l in Hpa. by destruct Hna. }
    destruct (std_sort compareByPriceDesc bids) as [|b1 bids1] eqn:Esb.
    { apply Permutation_nil_l in Hpb. by destruct Hnb. }
    destruct asks as [|a0 asks0] eqn:Ea; [done|].
    destruct bids as [|b0 bids0] eqn:Eb; [done|].
    rewrite <-Ea, <-Eb in *.
    exists a1, asks1, b1, bids1.
    apply StronglySorted_inv in Hsa as [_ Hsa]. apply StronglySorted_inv in Hsb as [_ Hsb].
    assert (a1 ∈ asks) as Ha1 by (rewrite <-Hpa; by left).
    assert (b1 ∈ bids) as Hb1 by (rewrite <-Hpb; by left).
    split_and!; [done..| | | |].
    - intros a'. rewrite <-Hpa. intros [->|Ha']%elem_of_cons.
      + apply num_leb_refl. auto.
      + eapply Forall_forall in Hsa; [|done]. unfold compareByPriceAsc in Hsa.
        apply num_not_ltb_leb; [..|done].
        * apply Hoka. rewrite <-Hpa. by right.
        * auto.
    - intros b'. rewrite <-Hpb. intros [->|Hb']%elem_of_cons.
      + apply num_leb_refl. auto.
      + eapply Forall_forall in Hsb; [|done]. unfold compareByPriceDesc in Hsb.
        apply num_not_ltb_leb; [..|done].
        * auto.
        * apply Hokb. rewrite <-Hpb. by right.
    - by destruct (scanAsks _ _ _ _) as [[ev ?] ?].
    - by destruct (scanAsks _ _ _ _) as [[ev ?] ?]. }
  assert (f_sales f ≠ [] →
          ∃ a b, a ∈ asks ∧ b ∈ bids ∧ (price b >= price a)%num = true) as Hcross.
  { intros Hne. destruct (f_sales f) as [|sale sales]; [done|].
    apply Forall2_cons_inv_l in Hev
      as ([a b] & ? & (_ & Hge & (a0 & Ha0 & Hra) & (b0 & Hb0 & Hrb)) & _ & _).
    exists a0, b0. split_and!; [done..|].
    by rewrite <-(reduced_price a0 a), <-(reduced_price b0 b). }
  assert ((∃ a b, a ∈ asks ∧ b ∈ bids ∧ (price b >= price a)%num = true) →
          ∃ a1 b1 sale ev ev',
            f_sales f = sale :: ev ∧ f_matched f = (a1, b1) :: ev' ∧
            price sale = price a1 ∧
            (∀ a', a' ∈ asks → (price a1 <= price a')%num = true) ∧
            (∀ b', b' ∈ bids → (price b' <= price b1)%num = true)) as Hfirst.
  { intros (a & b & Ha & Hb & Hge).
    destruct Hsorted as (a1 & asks1 & b1 & bids1 & _ & _ & Ha1 & Hb1 & Hmin & Hmax & -> & ->).
    { intros Hnil. rewrite Hnil in Ha. by apply elem_of_nil in Ha. }
    { intros Hnil. rewrite Hnil in Hb. by apply elem_of_nil in Hb. }
    destruct (scanAsks_first_sale product' timestamp' a1 b1 asks1 bids1)
      as (sale & ev & -> & Hprice); [|by apply Hpos|].
    { apply (num_leb_trans _ (price a)); [auto..|by apply Hmin|].
      apply (num_leb_trans _ (price b)); [auto..|done|by apply Hmax]. }
    exists a1, b1, sale, ev.*1, ev.*2. done. }
  split.
  - change ((matchAsksToBids ob product' timestamp').1) with (f_sales f).
    split; [done|].
    intros Hx. destruct (Hfirst Hx) as (? & ? & ? & ? & ? & -> & _). done.
  - intros sale a b Hs Hm.
    destruct Hfirst as (a1 & b1 & sale' & ev & ev' & Hfs & Hfm & Hprice & Hmin & Hmax).
    { apply Hcross. intros Hnil. by rewrite Hnil in Hs. }
    rewrite Hfs in Hs. rewrite Hfm in Hm. simplify_eq/=.
    rewrite Hprice. done.
Qed.

End SaleRecords.
(** ** [tokenise] *)

Section Tokenise.
Implicit Types (sep c : Ascii.ascii) (l t : list Ascii.ascii).

Lemma find_if_lt (p : Ascii.ascii → bool) l k :
  find_if p l = Some k → (k < length l)%nat.
Proof.
  revert k. induction l as [|c l IH]; intros k; simpl; [done|].
  destruct (p c); [intros [= <-]; lia|].
  destruct (find_if p l) as [k'|]; [|done]. intros [= <-].
  specialize (IH k' eq_refl). lia.
Qed.

(** [fields] by the position of the next separator. *)
Lemma fields_find sep l :
  match find_if (Ascii.eqb sep) l with
  | Some 0 => fields sep l = []
  | Some (S k) => fields sep l = take (S k) l :: fields sep (drop (S (S k)) l)
  | None => fields sep l = match l with [] => [] | _ :: _ => [l] end
  end.
Proof.
  induction l as [|c l IH]; [done|].
  cbn [find_if fields]. destruct (Ascii.eqb sep c); [done|].
  destruct l as [|c' l']; [done|].
  cbn [find_if] in *. destruct (Ascii.eqb sep c'); [done|].
  destruct (find_if (Ascii.eqb sep) l') as [k|]; simpl in *.
  - by rewrite IH.
  - by rewrite IH.
Qed.

Lemma skip_find sep l :
  match find_if (λ x, negb (Ascii.eqb sep x)) l with
  | Some k => skip sep l = drop k l
  | None => skip sep l = []
  end.
Proof.
  induction l as [|c l IH]; [done|].
  cbn [find_if skip]. destruct (Ascii.eqb sep c); [|done]. simpl.
  by destruct (find_if _ l).
Qed.

Lemma to_int_small (z : Z) : (0 ≤ z < 2 ^ 31)%Z → to_int z = z.
Proof. intros Hz. unfold to_int. rewrite Z.mod_small; lia. Qed.

Lemma to_size_t_small (z : Z) : (0 ≤ z < 2 ^ 31)%Z → to_size_t z = z.
Proof. intros Hz. unfold to_size_t. rewrite Z.mod_small; lia. Qed.

Lemma to_int_npos : to_int npos = (-1)%Z.
Proof. done. Qed.

Lemma int_result_small (z : Z) : (-1 ≤ z < 2 ^ 31)%Z → int_result z = Returns z.
Proof.
  intros Hz. unfold int_result, INT_MIN, INT_MAX.
  rewrite (proj2 (andb_true_iff _ _)); [done|]. split; apply Z.leb_le; lia.
Qed.

Lemma find_from_drop (p : Ascii.ascii → bool) (s : string) (pos : nat) :
  find_from p s (Z.of_nat pos) =
  match find_if p (drop pos (String.list_ascii_of_string s)) with
  | Some k => Z.of_nat (pos + k)
  | None => npos
  end.
Proof.
  unfold find_from, size. rewrite Nat2Z.id.
  destruct (Z.leb_spec (Z.of_nat (String.length s)) (Z.of_nat pos)).
  - rewrite drop_ge; [done|]. rewrite length_list_ascii_of_string. lia.
  - destruct (find_if _ _); [f_equal; lia|done].
Qed.

(** The loop from the position [pos], the beginning of a field. *)
Lemma tokenise_loop_fields (s : string) sep :
  (size s < 2 ^ 31)%Z →
  ∀ rounds pos tokens,
    (pos ≤ String.length s)%nat → (String.length s - pos < rounds)%nat →
    tokenise_loop rounds s sep tokens (Z.of_nat pos) =
    Some (Returns (tokens ++ (String.string_of_list_ascii
                                <$> fields sep (drop pos (String.list_ascii_of_string s))))).
Proof.
  intros Hsize. unfold size in Hsize.
  pose proof (length_list_ascii_of_string s) as Hlen.
  induction rounds as [|rounds IH]; intros pos tokens Hpos Hrounds; [lia|].
  cbn [tokenise_loop]. unfold tokenise_round.
  rewrite to_size_t_small by lia. unfold find_first_of. rewrite find_from_drop.
  rewrite (to_int_small (size s)) by (unfold size; lia). unfold size.
  pose proof (fields_find sep (drop pos (String.list_ascii_of_string s))) as Hf.
  destruct (find_if (Ascii.eqb sep) (drop pos (String.list_ascii_of_string s)))
    as [k|] eqn:Hfind.
  - apply find_if_lt in Hfind. rewrite length_drop, Hlen in Hfind.
    rewrite to_int_small by lia.
    destruct k as [|k].
    { rewrite Nat.add_0_r, Z.eqb_refl, orb_true_r. by rewrite Hf, app_nil_r. }
    rewrite (proj2 (Z.eqb_neq _ _)) by lia.
    rewrite (proj2 (Z.eqb_neq _ _)) by lia. cbn [orb].
    rewrite (proj2 (Z.leb_le _ _)) by lia.
    rewrite !int_result_small by lia. cbn [mbind outcome_bind].
    rewrite to_size_t_small by lia.
    rewrite substr_inside by (unfold size; lia). cbn [mbind outcome_bind].
    rewrite (proj2 (Z.ltb_lt _ _)) by lia.
    replace (Z.of_nat (pos + S k) + 1)%Z with (Z.of_nat (pos + S (S k))) by lia.
    rewrite IH by lia. rewrite Hf, drop_drop, Nat2Z.id.
    replace (Z.to_nat (Z.of_nat (pos + S k) - Z.of_nat pos)) with (S k) by lia.
    by rewrite <-app_assoc.
  - rewrite to_int_npos.
    destruct (decide (pos = String.length s)) as [->|Hne].
    { rewrite Z.eqb_refl. cbn [orb]. rewrite drop_ge by lia. by rewrite app_nil_r. }
    rewrite (proj2 (Z.eqb_neq _ _)) by lia.
    rewrite (proj2 (Z.eqb_neq _ _)) by lia. cbn [orb].
    change (0 <=? -1)%Z with false. cbv iota.
    rewrite to_size_t_small by lia.
    rewrite substr_inside by (unfold size; lia). cbn [mbind outcome_bind].
    change (int_result (-1 + 1)) with (Returns (A := Z) 0%Z). cbn [mbind outcome_bind].
    change (0 <? -1)%Z with false. cbv iota.
    rewrite Nat2Z.id, take_ge by (rewrite length_drop; lia).
    destruct (drop pos (String.list_ascii_of_string s)) as [|c l'] eqn:Hd.
    { apply (f_equal length) in Hd. rewrite length_drop in Hd. simpl in Hd. lia. }
    by rewrite Hf.
Qed.

(** The call, for any number of rounds above the length of the line. *)
Lemma tokenise_within_fields (s : string) sep (rounds : nat) :
  (size s < 2 ^ 31)%Z → (String.length s < rounds)%nat →
  tokenise_within rounds s sep = Some (Returns (tokens_of sep s)).
Proof.
  intros Hsize Hrounds. unfold tokenise_within, tokens_of, find_first_not_of.
  pose proof (length_list_ascii_of_string s) as Hlen.
  rewrite (find_from_drop _ s 0). rewrite drop_0.
  pose proof (skip_find sep (String.list_ascii_of_string s)) as Hskip.
  destruct (find_if _ _) as [k|] eqn:Hfind.
  - apply find_if_lt in Hfind. unfold size in Hsize.
    rewrite to_int_small by lia. rewrite Hskip.
    rewrite tokenise_loop_fields by (done || lia). done.
  - rewrite Hskip, to_int_npos. destruct rounds as [|rounds]; [lia|].
    cbn [tokenise_loop]. unfold tokenise_round, find_first_of, find_from.
    change (to_size_t (-1)) with npos.
    rewrite (proj2 (Z.leb_le (size s) npos)) by (unfold npos; lia).
    rewrite to_int_npos. rewrite Z.eqb_refl, orb_true_r. done.
Qed.

Lemma tokenise_fields (s : string) sep :
  (size s < 2 ^ 31)%Z → tokenise s sep = Returns (tokens_of sep s).
Proof.
  intros Hsize. unfold tokenise. rewrite tokenise_within_fields by (done || lia). done.
Qed.

End Tokenise.
(** ** The tokens of a line *)

Lemma list_ind_two {A} (P : list A → Prop) :
  P [] → (∀ x, P [x]) → (∀ x y l, P l → P (y :: l) → P (x :: y :: l)) →
  ∀ l, P l.
Proof.
  intros Hnil Hone Htwo l.
  assert (P l ∧ ∀ x, P (x :: l)) as [? _]; [|done].
  induction l as [|y l [IH1 IH2]]; [by split|]. split; [done|]. intros x. by apply Htwo.
Qed.

Section Fields.
Implicit Types (sep c : Ascii.ascii) (l t : list Ascii.ascii).

Lemma ascii_eqb_false sep c : Ascii.eqb sep c = false ↔ sep ≠ c.
Proof. by rewrite <-not_true_iff_false, Ascii.eqb_eq. Qed.

Lemma fields_two sep c c' l :
  fields sep (c :: c' :: l) =
  if Ascii.eqb sep c then []
  else if Ascii.eqb sep c' then [c] :: fields sep l
       else match fields sep (c' :: l) with
            | t :: ts => (c :: t) :: ts
            | [] => [[c]]
            end.
Proof. done. Qed.

Lemma fields_ok sep l : Forall (λ t, t ≠ [] ∧ sep ∉ t) (fields sep l).
Proof.
  induction l as [|c|c c' l IH1 IH2] using list_ind_two.
  - constructor.
  - simpl. destruct (Ascii.eqb sep c) eqn:E; [constructor|].
    apply ascii_eqb_false in E. repeat constructor; [done|].
    by intros ->%list_elem_of_singleton.
  - rewrite fields_two. destruct (Ascii.eqb sep c) eqn:E; [constructor|].
    apply ascii_eqb_false in E.
    assert ([c] ≠ [] ∧ sep ∉ [c]) as Hc.
    { split; [done|]. by intros ->%list_elem_of_singleton. }
    destruct (Ascii.eqb sep c') eqn:E'; [by constructor|].
    destruct (fields sep (c' :: l)) as [|t ts]; [constructor; [done|constructor]|].
    apply Forall_cons in IH2 as [[Ht1 Ht2] Hts]. constructor; [|done].
    split; [done|]. by intros [->|?]%elem_of_cons.
Qed.

Lemma fields_token sep t rest :
  t ≠ [] → sep ∉ t →
  fields sep t = [t] ∧ fields sep (t ++ sep :: rest) = t :: fields sep rest.
Proof.
  induction t as [|c|c c' t _ IH] using list_ind_two; intros Hne Hsep; [done| |].
  - assert (Ascii.eqb sep c = false) as E.
    { apply ascii_eqb_false. intros ->. apply Hsep. by left. }
    simpl. by rewrite E, Ascii.eqb_refl.
  - assert (Ascii.eqb sep c = false) as E.
    { apply ascii_eqb_false. intros ->. apply Hsep. by left. }
    assert (Ascii.eqb sep c' = false) as E'.
    { apply ascii_eqb_false. intros ->. apply Hsep. right. by left. }
    destruct IH as [IHa IHb]; [done|by intros ?; apply Hsep; right|].
    split.
    + rewrite fields_two, E, E'. by rewrite IHa.
    + change ((c :: c' :: t) ++ sep :: rest) with (c :: c' :: (t ++ sep :: rest)).
      rewrite fields_two, E, E'.
      change (c' :: t ++ sep :: rest) with ((c' :: t) ++ sep :: rest).
      by rewrite IHb.
Qed.

(** An empty field ends the fields. *)
Lemma fields_empty_field sep x y :
  fields sep (x ++ sep :: sep :: y) = fields sep x.
Proof.
  induction x as [|c|c c' x IH1 IH2] using list_ind_two.
  - simpl. by rewrite Ascii.eqb_refl.
  - simpl. destruct (Ascii.eqb sep c); [done|]. by rewrite !Ascii.eqb_refl.
  - change ((c :: c' :: x) ++ sep :: sep :: y) with (c :: c' :: (x ++ sep :: sep :: y)).
    rewrite !fields_two. destruct (Ascii.eqb sep c); [done|].
    destruct (Ascii.eqb sep c'); [by rewrite IH1|].
    change (c' :: x ++ sep :: sep :: y) with ((c' :: x) ++ sep :: sep :: y).
    by rewrite IH2.
Qed.

(** So does a separator at the end of the line. *)
Lemma fields_trailing sep x : fields sep (x ++ [sep]) = fields sep x.
Proof.
  induction x as [|c|c c' x IH1 IH2] using list_ind_two.
  - simpl. by rewrite Ascii.eqb_refl.
  - simpl. destruct (Ascii.eqb sep c); [done|]. by rewrite !Ascii.eqb_refl.
  - change ((c :: c' :: x) ++ [sep]) with (c :: c' :: (x ++ [sep])).
    rewrite !fields_two. destruct (Ascii.eqb sep c); [done|].
    destruct (Ascii.eqb sep c'); [by rewrite IH1|].
    change (c' :: x ++ [sep]) with ((c' :: x) ++ [sep]).
    by rewrite IH2.
Qed.

Lemma skip_app sep x z :
  (∃ c, c ∈ x ∧ c ≠ sep) → skip sep (x ++ z) = skip sep x ++ z.
Proof.
  induction x as [|c x IH]; intros (c0 & Hin & Hne); [by apply elem_of_nil in Hin|].
  simpl. destruct (Ascii.eqb_spec sep c) as [<-|]; [|done].
  apply IH. exists c0. apply elem_of_cons in Hin as [->|]; done.
Qed.

Lemma skip_token sep t : t ≠ [] → sep ∉ t → skip sep t = t.
Proof.
  destruct t as [|c t]; [done|]. intros _ Hsep. simpl.
  destruct (Ascii.eqb_spec sep c) as [<-|]; [|done]. destruct Hsep. by left.
Qed.

Lemma list_ascii_of_string_app (s1 s2 : string) :
  String.list_ascii_of_string (String.append s1 s2)
  = String.list_ascii_of_string s1 ++ String.list_ascii_of_string s2.
Proof. induction s1 as [|c s1 IH]; simpl; [done|by rewrite IH]. Qed.

Lemma list_ascii_of_string_nil (s : string) :
  String.list_ascii_of_string s = [] ↔ s = "".
Proof. by destruct s. Qed.

Lemma fields_join sep (tokens : list string) :
  Forall (field_ok sep) tokens →
  fields sep (String.list_ascii_of_string (join sep tokens))
  = String.list_ascii_of_string <$> tokens.
Proof.
  unfold join. induction 1 as [|t tokens [Hne Hsep] Htokens IH]; [done|].
  assert (String.list_ascii_of_string t ≠ []) as Hne'.
  { by rewrite list_ascii_of_string_nil. }
  destruct tokens as [|t' tokens].
  { change (String.concat (String sep "") [t]) with t. cbn [fmap list_fmap].
    by rewrite (proj1 (fields_token sep _ [] Hne' Hsep)). }
  change (String.concat (String sep "") (t :: t' :: tokens))
    with (String.append t (String.append (String sep "")
                             (String.concat (String sep "") (t' :: tokens)))).
  rewrite !list_ascii_of_string_app. cbn [String.list_ascii_of_string app].
  rewrite (proj2 (fields_token sep _ _ Hne' Hsep)), IH. done.
Qed.

Lemma tokens_of_join sep (tokens : list string) :
  Forall (field_ok sep) tokens → tokens_of sep (join sep tokens) = tokens.
Proof.
  intros Hok. unfold tokens_of.
  assert (skip sep (String.list_ascii_of_string (join sep tokens))
          = String.list_ascii_of_string (join sep tokens)) as ->.
  { destruct Hok as [|t tokens [Hne Hsep] Htokens]; [done|].
    assert (String.list_ascii_of_string t ≠ []) as Hne'.
    { by rewrite list_ascii_of_string_nil. }
    unfold join. destruct tokens as [|t' tokens].
    { change (String.concat (String sep "") [t]) with t. by apply skip_token. }
    change (String.concat (String sep "") (t :: t' :: tokens))
      with (String.append t (String.append (String sep "")
                               (String.concat (String sep "") (t' :: tokens)))).
    rewrite list_ascii_of_string_app.
    destruct (String.list_ascii_of_string t) as [|c l] eqn:Ht; [done|].
    simpl. destruct (Ascii.eqb_spec sep c) as [<-|]; [|done]. destruct Hsep. by left. }
  rewrite fields_join by done. rewrite <-list_fmap_compose.
  rewrite <-(list_fmap_id tokens) at 2. apply list_fmap_ext.
  intros _ t _. apply String.string_of_list_ascii_of_string.
Qed.

Lemma tokens_of_ok sep (s : string) : Forall (field_ok sep) (tokens_of sep s).
Proof.
  unfold tokens_of. apply Forall_fmap.
  eapply Forall_impl; [apply fields_ok|]. intros t [Hne Hsep]. split; simpl.
  - intros Hnil. apply (f_equal String.list_ascii_of_string) in Hnil.
    by rewrite String.list_ascii_of_string_of_list_ascii in Hnil.
  - by rewrite String.list_ascii_of_string_of_list_ascii.
Qed.

End Fields.

Section TokeniseProperties.

(** X9.  On a line of fewer than [2^31] characters [tokenise] returns: the
    loop ends within as many rounds as the line has characters and one more,
    with the same tokens for any larger number of rounds.  No token is empty
    and no token has the separator in it. *)
Theorem tokenise_returns_fields (csvLine : string) (separator : Ascii.ascii) :
  (size csvLine < 2 ^ 31)%Z →
  ∃ tokens,
    tokenise csvLine separator = Returns tokens ∧
    (∀ rounds, (String.length csvLine < rounds)%nat →
       tokenise_within rounds csvLine separator = Some (Returns tokens)) ∧
    Forall (field_ok separator) tokens.
Proof.
  intros Hsize. exists (tokens_of separator csvLine). split_and!.
  - by apply tokenise_fields.
  - intros rounds Hr. by apply tokenise_within_fields.
  - apply tokens_of_ok.
Qed.

(** X10.  [tokenise] gives back the tokens of a line that was put together
    from tokens, none of them empty or with the separator in it, with the
    separator between them. *)
Theorem tokenise_join (tokens : list string) (separator : Ascii.ascii) :
  Forall (field_ok separator) tokens →
  (size (join separator tokens) < 2 ^ 31)%Z →
  tokenise (join separator tokens) separator = Returns tokens.
Proof.
  intros Hok Hsize. rewrite tokenise_fields by done. by rewrite tokens_of_join.
Qed.

(** X11.  [tokenise] stops at the first empty field: of a line that has a
    character other than the separator, followed by two separators in a row
    and anything after them, it returns the tokens of the part before the two
    separators, and nothing of what comes after them. *)
Theorem tokenise_stops_at_empty_field (x y : string) (separator : Ascii.ascii) :
  (∃ c, c ∈ String.list_ascii_of_string x ∧ c ≠ separator) →
  (size (String.append x (String separator (String separator y))) < 2 ^ 31)%Z →
  tokenise (String.append x (String separator (String separator y))) separator
  = tokenise x separator.
Proof.
  intros Hx Hsize.
  assert (size x < 2 ^ 31)%Z as Hsize'.
  { unfold size in *. rewrite <-!length_list_ascii_of_string in *.
    rewrite list_ascii_of_string_app, length_app in Hsize. lia. }
  rewrite !tokenise_fields by done. f_equal. unfold tokens_of.
  rewrite list_ascii_of_string_app. cbn [String.list_ascii_of_string].
  by rewrite skip_app, fields_empty_field.
Qed.

End TokeniseProperties.
(** ** [readCSV] *)

Section ReadCSV.
Context {Ar : Arith} {Ps : Parse Ar}.
Local Abbreviation entry := (OrderBookEntry Ar).

Lemma stringsToOBE_vector_entry (line : string) :
  match entry_of_line line with
  | Some obe => stringsToOBE_vector (tokens_of "," line) = Returns obe
  | None => ∃ what, stringsToOBE_vector (tokens_of "," line) = Throws what
  end.
Proof.
  unfold entry_of_line, stringsToOBE_vector.
  destruct (tokens_of "," line) as [|t0 [|t1 [|t2 [|t3 [|t4 [|t5 ts]]]]]];
    try (by eexists).
  cbn [length Nat.eqb negb vector_at lookup list_lookup mbind outcome_bind].
  pose proof (std_stod_defined t3) as H3. pose proof (std_stod_defined t4) as H4.
  destruct (std_stod t3) as [price|what|]; [|by eexists|done].
  cbn [mbind outcome_bind].
  destruct (std_stod t4) as [amount|what|]; [done|by eexists|done].
Qed.

Lemma readCSV_line_entry (entries : list entry) (line : string) :
  (size line < 2 ^ 31)%Z →
  readCSV_line entries line
  = Returns (entries ++ match entry_of_line line with Some obe => [obe] | None => [] end).
Proof.
  intros Hsize. unfold readCSV_line. rewrite tokenise_fields by done.
  cbn [mbind outcome_bind].
  pose proof (stringsToOBE_vector_entry line) as He.
  destruct (entry_of_line line) as [obe|].
  - by rewrite He.
  - destruct He as [what ->]. by rewrite app_nil_r.
Qed.

(** X12.  Of a file that opens and whose lines have fewer than [2^31]
    characters, [readCSV] returns the entries of the lines that have exactly
    five tokens of which [std::stod] reads the fourth and the fifth, in the
    order of the lines: whatever is thrown for another line is caught and the
    line is skipped.  Every entry is owned by "dataset". *)
Theorem readCSV_entries {Dk : Disk} (csvFilename : string) (lines : list string) :
  file_lines csvFilename = Some lines →
  Forall (λ line, (size line < 2 ^ 31)%Z) lines →
  CSVReader_readCSV csvFilename = Returns (omap entry_of_line lines) ∧
  Forall (λ e : entry, username e = "dataset") (omap entry_of_line lines).
Proof.
  unfold CSVReader_readCSV. intros -> Hlines. split.
  - rewrite <-(app_nil_l (omap _ _)). generalize (@nil entry) as entries.
    induction Hlines as [|line lines Hline _ IH]; intros entries.
    { by rewrite app_nil_r. }
    cbn [for_each omap list_omap]. rewrite readCSV_line_entry by done.
    cbn [mbind outcome_bind]. rewrite IH.
    destruct (entry_of_line line); by rewrite <-app_assoc.
  - apply Forall_forall. intros e (line & _ & He)%list_elem_of_omap.
    unfold entry_of_line in He. repeat case_match; simplify_eq. done.
Qed.

End ReadCSV.

(** ** The wallet *)

Section WalletFacts.
Context {Ar : Arith} {Ps : Parse Ar}.
Local Abbreviation entry := (OrderBookEntry Ar).

Lemma tokenise_pair (product' base quote : string) :
  pair_ok product' base quote → tokenise product' "/" = Returns [base; quote].
Proof.
  intros (-> & Hb & Hq & Hsize). rewrite tokenise_fields by done.
  unfold pair_of. rewrite tokens_of_join; [done|].
  constructor; [done|]. constructor; [done|]. constructor.
Qed.

Lemma balance_of_credit (w : @Wallet Ar) (k k' : string) (x : num) :
  balance_of (credit w k x) k'
  = if String.eqb k' k then (balance_of w k + x)%num else balance_of w k'.
Proof.
  unfold balance_of, credit. simpl. rewrite map_find_assign.
  by destruct (String.eqb k' k).
Qed.

Lemma balance_of_debit (w : @Wallet Ar) (k k' : string) (x : num) :
  balance_of (debit w k x) k'
  = if String.eqb k' k then (balance_of w k - x)%num else balance_of w k'.
Proof.
  unfold balance_of, debit. simpl. rewrite map_find_assign.
  by destruct (String.eqb k' k).
Qed.

(** X13.  For an order of a product ["base/quote"], [canFulfillOrder]
    returns whether the wallet holds the amount of [base] for an ask, the
    amount times the price of [quote] for a bid, and [false] for every other
    type. *)
Theorem canFulfillOrder_pair (w : @Wallet Ar) (order : entry) (base quote : string) :
  pair_ok (product order) base quote →
  canFulfillOrder w order =
  Returns (match orderType order with
           | ask => containsCurrency w base (amount order)
           | bid => containsCurrency w quote (amount order * price order)%num
           | _ => false
           end).
Proof.
  intros Hp. unfold canFulfillOrder. rewrite (tokenise_pair _ _ _ Hp).
  cbn [mbind outcome_bind]. by destruct (orderType order).
Qed.

(** For a bid on a product that is one currency, without ['/'],
    [canFulfillOrder] reads [currs[1]] of a vector of one element. *)
Lemma canFulfillOrder_one_currency (w : @Wallet Ar) (order : entry) :
  field_ok "/" (product order) → (size (product order) < 2 ^ 31)%Z →
  orderType order = bid →
  canFulfillOrder w order = Undefined.
Proof.
  intros Hp Hsize Ht. unfold canFulfillOrder.
  assert (tokenise (product order) "/" = Returns [product order]) as ->.
  { rewrite tokenise_fields by done. f_equal.
    apply (tokens_of_join "/" [product order]). constructor; [done|constructor]. }
  cbn [mbind outcome_bind]. by rewrite Ht.
Qed.

(** X14.  [processSale] of a sale of a product ["base/quote"] of two
    different currencies: a sale of an ask takes the amount from the balance
    of [base] and adds the amount times the price to the balance of [quote]; a
    sale of a bid does the opposite; the other balances stay, and so does the
    whole wallet for a record of another type.  The balances are not looked
    at: nothing keeps a balance from going below 0. *)
Theorem processSale_pair (w : @Wallet Ar) (sale : entry) (base quote : string) :
  pair_ok (product sale) base quote → base ≠ quote →
  ∃ w', processSale w sale = Returns w' ∧
        same_but [base; quote] w w' ∧
        match orderType sale with
        | asksale =>
            balance_of w' base = (balance_of w base - amount sale)%num ∧
            balance_of w' quote = (balance_of w quote + amount sale * price sale)%num
        | bidsale =>
            balance_of w' base = (balance_of w base + amount sale)%num ∧
            balance_of w' quote = (balance_of w quote - amount sale * price sale)%num
        | _ => w' = w
        end.
Proof.
  intros Hp Hne. unfold processSale. rewrite (tokenise_pair _ _ _ Hp).
  cbn [mbind outcome_bind].
  assert (String.eqb base quote = false) as E1 by (by apply String.eqb_neq).
  assert (String.eqb quote base = false) as E2 by (by apply String.eqb_neq).
  assert (∀ k x y, k ∉ [base; quote] →
            (map_find k (currencies (debit (credit w quote x) base y))
             = map_find k (currencies w)) ∧
            (map_find k (currencies (debit (credit w base x) quote y))
             = map_find k (currencies w))) as Hsame.
  { intros k x y Hk. unfold debit, credit. simpl. rewrite !map_find_assign.
    destruct (String.eqb_spec k base) as [->|]; [destruct Hk; by left|].
    destruct (String.eqb_spec k quote) as [->|]; [destruct Hk; right; by left|]. done. }
  destruct (orderType sale) eqn:Ht;
    rewrite ?bool_decide_eq_true_2, ?bool_decide_eq_false_2 by done;
    cbn [vector_at lookup list_lookup mbind outcome_bind];
    try (eexists; split; [done|]; split; [by intros k _|done]).
  - eexists. split; [done|]. split; [intros k Hk; apply Hsame, Hk|].
    by rewrite !balance_of_debit, !balance_of_credit, !String.eqb_refl, ?E1, ?E2.
  - eexists. split; [done|]. split; [intros k Hk; apply Hsame, Hk|].
    by rewrite !balance_of_debit, !balance_of_credit, !String.eqb_refl, ?E1, ?E2.
Qed.

End WalletFacts.
(** ** The wallet without rounding *)

Section WalletExact.
Context {Ps : Parse exact}.

Lemma map_find_assign_ne {V} (k k' : string) (v : V) (m : list (string * V)) :
  k' ≠ k → map_find k' (map_assign k v m) = map_find k' m.
Proof.
  intros Hne. rewrite map_find_assign. by rewrite (proj2 (String.eqb_neq _ _)).
Qed.

(** X15.  Read without rounding, on a wallet that has no negative balance:
    [insertCurrency] throws exactly for a negative amount, and otherwise adds
    the amount to the balance of the currency; [removeCurrency] returns [true]
    exactly when the amount is not negative and the wallet has the currency
    with a balance of at least the amount, and then takes the amount from
    that balance; when it returns [false] the wallet is as it was.  Neither
    changes another currency, and neither leaves a negative balance. *)
Theorem wallet_stays_solvent (w : @Wallet exact) (type : string) (amount : Q) :
  solvent w →
  (insertCurrency w type amount = Throws "std::exception" ↔ (amount < 0)%Q) ∧
  (∀ w', insertCurrency w type amount = Returns w' →
     solvent w' ∧ same_but [type] w w' ∧
     balance_of w' type = (balance_of w type + amount)%Q) ∧
  ∀ ok w', removeCurrency w type amount = (ok, w') →
    solvent w' ∧ same_but [type] w w' ∧
    (ok = true ↔ (0 <= amount)%Q ∧
                 ∃ b, map_find type (currencies w) = Some b ∧ (amount <= b)%Q) ∧
    (ok = false → w' = w) ∧
    (ok = true → balance_of w' type = (balance_of w type - amount)%Q).
Proof.
  intros Hsolv. unfold insertCurrency, removeCurrency, containsCurrency, balance_of.
  change (@num_zero exact) with 0%Q. change (@num_add exact) with Qplus.
  change (@num_sub exact) with Qminus. change (@num_leb exact) with Qle_bool.
  change (@num_ltb exact) with (λ a b, negb (Qle_bool b a)). cbv beta.
  unfold solvent, same_but in *. change (@num exact) with Q in *.
  destruct (Qle_bool 0 amount) eqn:Hnn; cbn [negb].
  - apply Qle_bool_iff in Hnn. split_and!.
    + split; [done|]. intros ?. lra.
    + intros w' [= <-]. split_and!.
      * intros k b. cbn [currencies]. rewrite map_find_assign.
        destruct (String.eqb_spec k type) as [->|]; [|apply Hsolv].
        intros [= <-]. destruct (@map_find Q type (currencies w)) as [b0|] eqn:Hb; [|lra].
        specialize (Hsolv _ _ Hb). lra.
      * intros k Hk. cbn [currencies]. apply map_find_assign_ne.
        intros ->. apply Hk. by left.
      * cbn [currencies]. rewrite map_find_assign, String.eqb_refl. simpl.
        by destruct (@map_find Q type (currencies w)).
    + intros ok w'. destruct (@map_find Q type (currencies w)) as [b|] eqn:Hb.
      2:{ intros [= <- <-]. split_and!; [done|by intros k _| |done|done].
          split; [done|]. by intros (_ & b & ? & _). }
      destruct (Qle_bool amount b) eqn:Hle.
      * apply Qle_bool_iff in Hle. intros [= <- <-]. split_and!.
        -- intros k b'. cbn [currencies]. rewrite map_find_assign.
           destruct (String.eqb_spec k type) as [->|]; [|apply Hsolv].
           intros [= <-]. lra.
        -- intros k Hk. cbn [currencies]. apply map_find_assign_ne.
           intros ->. apply Hk. by left.
        -- split; [|done]. intros _. split; [done|]. by exists b.
        -- done.
        -- intros _. cbn [currencies]. by rewrite map_find_assign, String.eqb_refl.
      * intros [= <- <-]. split_and!; [done|by intros k _| |done|done].
        split; [done|]. intros (_ & b' & [= <-] & Hle').
        apply Qle_bool_iff in Hle'. by rewrite Hle' in Hle.
  - assert (amount < 0)%Q as Hneg.
    { apply Qnot_le_lt. intros Hle%Qle_bool_iff. by rewrite Hle in Hnn. }
    split_and!; [done|done|].
    intros ok w' [= <- <-]. split_and!; [done|by intros k _| |done|done].
    split; [done|]. intros [? _]. lra.
Qed.

End WalletExact.

(** ** The simulation *)

Section Simulation.
Context {Ar : Arith} {Laws : OrderLaws Ar} {Sort : StdSort} {Fs : Files Ar}
        {Ps : Parse Ar}.
Local Abbreviation entry := (OrderBookEntry Ar).
Local Abbreviation MerkelMain := (@MerkelMain Ar).

Lemma printMarketStats_round_spec (m : MerkelMain) out (p : string) :
  let asks := getOrders (orderBook m) ask p (currentTime m) in
  if has_orders (orderBook m) ask p (currentTime m) then
    ∃ high low, getHighPrice asks = Returns high ∧ getLowPrice asks = Returns low ∧
      printMarketStats_round m out p = Returns (out ++ [(p, length asks, high, low)])
  else printMarketStats_round m out p = Undefined.
Proof.
  unfold has_orders, printMarketStats_round. cbv zeta.
  destruct (getOrders (orderBook m) ask p (currentTime m)) as [|e0 l]; [done|].
  unfold getHighPrice, getLowPrice. cbn [lookup list_lookup mbind outcome_bind].
  by eexists _, _.
Qed.

Lemma for_each_stats (m : MerkelMain) (ps : list string) :
  ∀ out,
    match for_each (printMarketStats_round m) out ps with
    | Returns out' =>
        (∀ p, p ∈ ps → has_orders (orderBook m) ask p (currentTime m) = true) ∧
        ∃ lines, out' = out ++ lines ∧ lines.*1.*1.*1 = ps ∧
          Forall (λ '(p, n, high, low),
                    let asks := getOrders (orderBook m) ask p (currentTime m) in
                    n = length asks ∧ getHighPrice asks = Returns high ∧
                    getLowPrice asks = Returns low) lines
    | Throws _ => False
    | Undefined =>
        ∃ p, p ∈ ps ∧ has_orders (orderBook m) ask p (currentTime m) = false
    end.
Proof.
  induction ps as [|p ps IH]; intros out.
  { simpl. split; [by intros ? ?%elem_of_nil|]. exists []. by rewrite app_nil_r. }
  cbn [for_each].
  pose proof (printMarketStats_round_spec m out p) as Hp. cbv zeta in Hp.
  destruct (has_orders (orderBook m) ask p (currentTime m)) eqn:Hhas.
  2:{ rewrite Hp. cbn [mbind outcome_bind]. exists p. split; [by left|done]. }
  destruct Hp as (high & low & Hh & Hl & ->). cbn [mbind outcome_bind].
  specialize (IH (out ++ [(p, length (getOrders (orderBook m) ask p (currentTime m)),
                           high, low)])).
  destruct (for_each _ _ ps) as [out'|what|]; [|done|].
  - destruct IH as (Hall & lines & -> & Hps & Hlines). split.
    + intros p' [->|?]%elem_of_cons; [done|]. by apply Hall.
    + eexists (_ :: lines). rewrite <-app_assoc. split_and!; [done|by csimpl; rewrite Hps|].
      by constructor.
  - destruct IH as (p' & ? & ?). exists p'. split; [by right|done].
Qed.

(** X16.  [printMarketStats] never throws.  Its behaviour is undefined
    exactly when some known product has no ask at the current time: it calls
    [getHighPrice] on the empty vector, which reads [orders[0]].  Otherwise
    it prints one line for each known product, in the order of
    [getKnownProducts], with the number of asks of the product at the current
    time and what [getHighPrice] and [getLowPrice] return for them. *)
Theorem printMarketStats_needs_asks (m : MerkelMain) :
  let ob := orderBook m in
  let t := currentTime m in
  (printMarketStats m = Undefined ↔
   ∃ p, p ∈ getKnownProducts ob ∧ has_orders ob ask p t = false) ∧
  (∀ what, printMarketStats m ≠ Throws what) ∧
  ∀ out, printMarketStats m = Returns out →
    out.*1.*1.*1 = getKnownProducts ob ∧
    Forall (λ '(p, n, high, low),
              let asks := getOrders ob ask p t in
              n = length asks ∧ getHighPrice asks = Returns high ∧
              getLowPrice asks = Returns low) out.
Proof.
  intros ob t. unfold printMarketStats. fold ob t.
  pose proof (for_each_stats m (getKnownProducts ob) []) as H. fold ob t in H.
  destruct (for_each _ [] (getKnownProducts ob)) as [out|what|]; [|done|].
  - destruct H as (Hall & lines & -> & Hps & Hlines). split_and!; [|done|].
    + split; [done|]. intros (p & Hp & Hno). by rewrite Hall in Hno.
    + by intros out' [= <-].
  - split_and!; done.
Qed.

Lemma matchAsksToBids_snd (ob : @OrderBook Ar) (product' timestamp' : string) :
  (matchAsksToBids ob product' timestamp').2 = ob.
Proof.
  unfold matchAsksToBids. simpl. rewrite matchAsksToBids_frame_orders. by destruct ob.
Qed.

Lemma gotoNextTimeframe_round_settle (t : string) (ob : @OrderBook Ar) w (p : string) :
  gotoNextTimeframe_round t (ob, w) p
  = (w' ← settle w (matchAsksToBids ob p t).1; Returns (ob, w')).
Proof.
  unfold gotoNextTimeframe_round.
  pose proof (matchAsksToBids_snd ob p t) as Hob.
  destruct (matchAsksToBids ob p t) as [sales ob1]. simpl in *. by subst ob1.
Qed.

Lemma for_each_trade_store (t : string) (ps : list string) :
  ∀ ob w ob' w',
    for_each (gotoNextTimeframe_round t) (ob, w) ps = Returns (ob', w') → ob' = ob.
Proof.
  induction ps as [|p ps IH]; intros ob w ob' w'; cbn [for_each].
  { by intros [= <- <-]. }
  rewrite gotoNextTimeframe_round_settle.
  destruct (settle w _) as [w1| |]; [|done..].
  cbn [mbind outcome_bind]. apply IH.
Qed.

(** The sales of a product of two currencies can be settled. *)
Lemma processSale_returns (w : @Wallet Ar) (sale : entry) :
  (∃ base quote, pair_ok (product sale) base quote) →
  ∃ w', processSale w sale = Returns w'.
Proof.
  intros (base & quote & Hp). unfold processSale. rewrite (tokenise_pair _ _ _ Hp).
  cbn [mbind outcome_bind]. destruct (bool_decide (orderType sale = asksale));
    cbn [vector_at lookup list_lookup mbind outcome_bind];
    destruct (bool_decide (orderType sale = bidsale));
    cbn [vector_at lookup list_lookup mbind outcome_bind]; by eexists.
Qed.

Lemma settle_returns (sales : list entry) :
  ∀ w, Forall (λ sale, ∃ base quote, pair_ok (product sale) base quote) sales →
       ∃ w', settle w sales = Returns w'.
Proof.
  unfold settle. induction sales as [|sale sales IH]; intros w Hs; simpl; [by eexists|].
  apply Forall_cons in Hs as [Hsale Hs].
  destruct (String.eqb (username sale) "simuser").
  - destruct (processSale_returns w sale Hsale) as [w1 ->]. cbn [mbind outcome_bind].
    by apply IH.
  - cbn [mbind outcome_bind]. by apply IH.
Qed.

Lemma settle_others (sales : list entry) (w : @Wallet Ar) :
  Forall (λ sale, username sale ≠ "simuser") sales → settle w sales = Returns w.
Proof.
  unfold settle. induction 1 as [|sale sales Hsale _ IH]; simpl; [done|].
  by rewrite (proj2 (String.eqb_neq _ _) Hsale).
Qed.

(** The sales of a call carry its product. *)
Lemma matchAsksToBids_sale_product (ob : @OrderBook Ar) (product' timestamp' : string) :
  Forall (λ sale, product sale = product') (matchAsksToBids ob product' timestamp').1.
Proof.
  unfold matchAsksToBids. cbn [fst].
  rewrite matchAsksToBids_frame_scan. cbv zeta.
  destruct (getOrders ob ask product' timestamp'); [constructor|].
  destruct (getOrders ob bid product' timestamp'); [constructor|].
  destruct (scanAsks _ _ _ _) as [[ev asks2] bids2] eqn:Hscan. simpl.
  apply scanAsks_sales in Hscan. apply Forall_fmap.
  eapply Forall_impl; [done|]. intros [sale [a b]] Hs. simpl.
  by apply sale_of_fields in Hs as (_ & ? & _).
Qed.

(** X17.  On a store that is not empty and whose known products are all
    pairs ["base/quote"] of currencies, [gotoNextTimeframe] returns; and
    whenever it returns, the store and the products are as they were and the
    current time is what [getNextTime] returns for the time before. *)
Theorem gotoNextTimeframe_advances (m : MerkelMain) :
  orders (orderBook m) ≠ [] →
  (∀ p, p ∈ getKnownProducts (orderBook m) → ∃ base quote, pair_ok p base quote) →
  (∃ m', gotoNextTimeframe m = Returns m') ∧
  ∀ m', gotoNextTimeframe m = Returns m' →
    orderBook m' = orderBook m ∧ products m' = products m ∧
    getNextTime (orderBook m) (currentTime m) = Returns (currentTime m').
Proof.
  intros Hne Hpairs. unfold gotoNextTimeframe. split.
  - assert (∀ ps ob w, (∀ p, p ∈ ps → ∃ base quote, pair_ok p base quote) →
              ∃ st, for_each (gotoNextTimeframe_round (currentTime m)) (ob, w) ps
                    = Returns st) as Hrun.
    { induction ps as [|p ps IH]; intros ob w Hps; cbn [for_each]; [by eexists|].
      rewrite gotoNextTimeframe_round_settle.
      pose proof (matchAsksToBids_sale_product ob p (currentTime m)) as Hprod.
      destruct (settle_returns (matchAsksToBids ob p (currentTime m)).1 w) as [w1 ->].
      { eapply Forall_impl; [done|]. intros sale ->. apply Hps. by left. }
      cbn [mbind outcome_bind]. apply IH. intros p' ?. apply Hps. by right. }
    destruct (Hrun (getKnownProducts (orderBook m)) (orderBook m) (wallet m) Hpairs)
      as [[ob w] Hst].
    rewrite Hst. cbn [mbind outcome_bind].
    apply for_each_trade_store in Hst as ->.
    unfold getNextTime. destruct (orders (orderBook m)) as [|e0 l]; [done|].
    cbn [lookup list_lookup]. destruct (String.eqb _ ""); by eexists.
  - intros m'.
    destruct (for_each _ _ _) as [[ob w]| |] eqn:Hrun; [|done..].
    apply for_each_trade_store in Hrun as ->. cbn [mbind outcome_bind].
    destruct (getNextTime (orderBook m) (currentTime m)) as [t'| |]; [|done..].
    cbn [mbind outcome_bind]. by intros [= <-].
Qed.

(** When no order of the current time is the user's, the sales are not
    the user's and the wallet is not touched. *)
Lemma gotoNextTimeframe_idle (m : MerkelMain) :
  (∀ e, e ∈ orders (orderBook m) → num_ok (price e)) →
  (∀ e, e ∈ orders (orderBook m) → timestamp e = currentTime m →
        username e ≠ "simuser") →
  gotoNextTimeframe m
  = (t' ← getNextTime (orderBook m) (currentTime m);
     Returns (mkMerkelMain (orderBook m) (wallet m) (products m) t')).
Proof.
  intros Hok Huser. unfold gotoNextTimeframe.
  assert (∀ ps, for_each (gotoNextTimeframe_round (currentTime m)) (orderBook m, wallet m) ps
                = Returns (orderBook m, wallet m)) as ->; [|done].
  induction ps as [|p ps IH]; cbn [for_each]; [done|].
  rewrite gotoNextTimeframe_round_settle.
  pose proof (matchAsksToBids_events (orderBook m) p (currentTime m) Hok) as Hev.
  cbv zeta in Hev.
  change (f_sales (matchAsksToBids_frame (orderBook m) p (currentTime m)))
    with (matchAsksToBids (orderBook m) p (currentTime m)).1 in Hev.
  rewrite settle_others; [done|].
  apply Forall_forall. intros sale Hsale.
  apply list_elem_of_lookup in Hsale as [k Hk].
  destruct (Forall2_lookup_l _ _ _ _ _ Hev Hk)
    as ([a b] & _ & Hs & _ & (a0 & Ha0 & Hra) & (b0 & Hb0 & Hrb)).
  apply sale_of_fields in Hs as (_ & _ & _ & Hown).
  apply elem_of_getOrders in Ha0 as (Ha0 & _ & _ & Hta).
  apply elem_of_getOrders in Hb0 as (Hb0 & _ & _ & Htb).
  pose proof (Huser a0 Ha0 Hta) as Hua. pose proof (Huser b0 Hb0 Htb) as Hub.
  rewrite <-(reduced_username a0 a Hra) in Hua.
  rewrite <-(reduced_username b0 b Hrb) in Hub.
  unfold sale_owner in Hown.
  rewrite (proj2 (String.eqb_neq _ _) Hua), (proj2 (String.eqb_neq _ _) Hub) in Hown.
  by injection Hown as -> _.
Qed.

(** X18.  With proper prices, when no order that the store has for the
    current time is the user's, [gotoNextTimeframe] returns on a store that is
    not empty and leaves the wallet as it is: only the time changes. *)
Theorem gotoNextTimeframe_without_user_orders (m : MerkelMain) :
  (∀ e, e ∈ orders (orderBook m) → num_ok (price e)) →
  (∀ e, e ∈ orders (orderBook m) → timestamp e = currentTime m →
        username e ≠ "simuser") →
  orders (orderBook m) ≠ [] →
  ∃ t', getNextTime (orderBook m) (currentTime m) = Returns t' ∧
        gotoNextTimeframe m
        = Returns (mkMerkelMain (orderBook m) (wallet m) (products m) t').
Proof.
  intros Hok Huser Hne. rewrite gotoNextTimeframe_idle by done.
  unfold getNextTime.
  destruct (orders (orderBook m)) as [|e0 l]; [done|].
  cbn [lookup list_lookup]. destruct (String.eqb _ ""); by eexists.
Qed.

(** The cursor of the simulation is the cursor of the store. *)
Lemma steps_walk (ob : @OrderBook Ar) (w : @Wallet Ar) (ps : list string) (n : nat) :
  (∀ e, e ∈ orders ob → num_ok (price e)) →
  (∀ e, e ∈ orders ob → username e ≠ "simuser") →
  ∀ t, steps n (mkMerkelMain ob w ps t)
       = (r ← walk ob n t; Returns (r.1, mkMerkelMain ob w ps r.2)).
Proof.
  intros Hok Huser. induction n as [|n IH]; intros t; [done|].
  cbn [steps]. rewrite gotoNextTimeframe_idle by (cbn [orderBook]; auto).
  cbn [orderBook wallet products currentTime]. rewrite walk_S.
  destruct (getNextTime ob t) as [t'| |]; [|done..].
  cbn [mbind outcome_bind]. rewrite IH.
  by destruct (walk ob n t') as [[??]| |].
Qed.

(** From the earliest timestamp the cursor of the store goes through the
    stored timestamps and comes back. *)
Lemma walk_round (ob : @OrderBook Ar) (e0 : entry) :
  store_sorted ob → orders ob !! 0 = Some e0 →
  walk ob (length (stored_timestamps ob)) (timestamp e0)
  = Returns (stored_timestamps ob, timestamp e0).
Proof.
  intros Hs He0.
  assert (orders ob ≠ []) as Hne by (by destruct (orders ob)).
  assert (getEarliestTime ob = Returns (timestamp e0)) as Hmin.
  { unfold getEarliestTime. by rewrite He0. }
  assert (ascending (stored_timestamps ob)) as HT.
  { apply (foldl_set_insert_ascending timestamp). constructor. }
  pose proof (elem_of_stored_timestamps ob) as Hmem.
  destruct (stored_timestamps ob) as [|t0 T] eqn:HTeq.
  { assert (timestamp e0 ∈ @nil string) as ?%elem_of_nil; [|done].
    apply Hmem. exists e0. split; [by eapply list_elem_of_lookup_2|done]. }
  assert (t0 = timestamp e0) as Ht0.
  { apply String.leb_antisym.
    - assert (timestamp e0 ∈ t0 :: T) as [->|Hin]%elem_of_cons.
      { apply Hmem. exists e0. split; [by eapply list_elem_of_lookup_2|done]. }
      + apply string_leb_ltb_false, string_ltb_irrefl.
      + apply string_leb_ltb_false, string_ltb_asym.
        apply StronglySorted_inv in HT as [_ HT].
        by eapply Forall_forall in HT.
    - assert (t0 ∈ t0 :: T) as (e & He & <-)%Hmem by (by left).
      by eapply getEarliestTime_least. }
  rewrite <-Ht0 in *.
  by apply (walk_suffix ob t0 (t0 :: T) Hs Hne Hmin HT Hmem T []).
Qed.

(** X25.  A round of the simulation.  On a sorted store that is not empty,
    with proper prices and no order of the user, the constructor of
    [MerkelMain] starts at the earliest timestamp, and as many calls of
    [gotoNextTimeframe] as the store has distinct timestamps start at these
    timestamps, each once and in ascending order, and end where the
    simulation began: the same store, wallet, products and current time. *)
Theorem simulation_round (book : @OrderBook Ar) (wal : @Wallet Ar) (prods : list string) :
  (∀ e, e ∈ orders book → num_ok (price e)) →
  (∀ e, e ∈ orders book → username e ≠ "simuser") →
  store_sorted book → orders book ≠ [] →
  ∃ m0, MerkelMain_new book wal prods = Returns m0 ∧
        orderBook m0 = book ∧ wallet m0 = wal ∧ products m0 = prods ∧
        steps (length (stored_timestamps book)) m0
        = Returns (stored_timestamps book, m0).
Proof.
  intros Hok Huser Hs Hne.
  destruct (orders book) as [|e0 l] eqn:Ho; [done|].
  assert (orders book !! 0 = Some e0) as He0 by (by rewrite Ho).
  exists (mkMerkelMain book wal prods (timestamp e0)).
  unfold MerkelMain_new, getEarliestTime. rewrite He0. split_and!; [done..|].
  rewrite steps_walk by (rewrite ?Ho; done).
  by rewrite walk_round.
Qed.

End Simulation.
(** ** Placing an order *)

Section Orders.
Context {Ar : Arith} {Sort : StdSort} {Ps : Parse Ar}.
Local Abbreviation entry := (OrderBookEntry Ar).
Local Abbreviation MerkelMain := (@MerkelMain Ar).

(** X19.  When [enterAsk] or [enterBid] returns, the wallet, the products
    and the current time are as they were, and the store is as it was or has
    one more record: the order of the line, of the user "simuser", of the
    side asked for, stamped with the current time, which the wallet can
    fulfil.  Nothing is taken from the wallet for an order that is placed, so
    the same line is accepted again when it is entered again. *)
Theorem enterOrder_effect (type : OrderBookType) (m m' : MerkelMain) (line : string) :
  enterOrder type m line = Returns m' →
  wallet m' = wallet m ∧ products m' = products m ∧ currentTime m' = currentTime m ∧
  (orderBook m' = orderBook m ∨
   ∃ obe t1 t2,
     orderBook m' = insertOrder (orderBook m) obe ∧
     tokenise line "," = Returns [product obe; t1; t2] ∧
     std_stod t1 = Returns (price obe) ∧ std_stod t2 = Returns (amount obe) ∧
     timestamp obe = currentTime m ∧ orderType obe = type ∧
     username obe = "simuser" ∧
     canFulfillOrder (wallet m) obe = Returns true ∧
     enterOrder type m' line
     = Returns (mkMerkelMain (insertOrder (orderBook m') obe) (wallet m')
                             (products m') (currentTime m'))).
Proof.
  unfold enterOrder.
  destruct (tokenise line ",") as [tokens| |] eqn:Htok; [|done..].
  cbn [mbind outcome_bind].
  destruct tokens as [|t0 [|t1 [|t2 [|t3 tokens]]]];
    cbn [length Nat.eqb negb vector_at lookup list_lookup mbind outcome_bind];
    try (intros [= <-]; split_and!; [done..|by left]).
  unfold stringsToOBE.
  destruct (std_stod t1) as [p| |] eqn:H1; cbn [mbind outcome_bind];
    [|by intros [= <-]; split_and!; [done..|by left]|done].
  destruct (std_stod t2) as [q| |] eqn:H2; cbn [mbind outcome_bind];
    [|by intros [= <-]; split_and!; [done..|by left]|done].
  set (obe := set_user_type (OBE p q (currentTime m) t0 type) "simuser"
                (orderType (OBE p q (currentTime m) t0 type))).
  destruct (canFulfillOrder (wallet m) obe) as [[]| |] eqn:Hcan; cbn [mbind outcome_bind];
    [|by intros [= <-]; split_and!; [done..|by left]..|done].
  intros [= <-]. cbn [wallet products currentTime orderBook].
  split_and!; [done..|]. right. exists obe, t1, t2.
  split_and!; [done..|].
  fold obe. rewrite Hcan. done.
Qed.

(** X20.  [enterBid] for a product that is one currency, without ['/']:
    when the line has its three tokens and [std::stod] reads the price and the
    amount, the behaviour is undefined, whatever the store and the wallet
    hold; the check of the wallet reads [currs[1]] of a vector of one
    element. *)
Theorem enterBid_without_quote (m : MerkelMain) (line p t1 t2 : string) (x y : num) :
  tokenise line "," = Returns [p; t1; t2] →
  std_stod t1 = Returns x → std_stod t2 = Returns y →
  field_ok "/" p → (size p < 2 ^ 31)%Z →
  enterBid m line = Undefined.
Proof.
  intros Htok H1 H2 Hp Hsize. unfold enterBid, enterOrder. rewrite Htok.
  cbn [length Nat.eqb negb vector_at lookup list_lookup mbind outcome_bind].
  unfold stringsToOBE. rewrite H1. cbn [mbind outcome_bind].
  rewrite H2. cbn [mbind outcome_bind].
  rewrite canFulfillOrder_one_currency; done.
Qed.

End Orders.
(** ** The candles in floating point *)

Section CandleShape.
Context {Ar : Arith} {Laws : OrderLaws Ar} {Fs : Files Ar}.
Local Abbreviation entry := (OrderBookEntry Ar).

Lemma ascending_filter (f : string → bool) (l : list string) :
  ascending l → ascending (List.filter f l).
Proof.
  induction 1 as [|x l Hl IH Hx]; simpl; [constructor|].
  destruct (f x); [|done]. constructor; [done|].
  apply Forall_forall. intros y Hy.
  rewrite list_elem_of_In, filter_In, <-list_elem_of_In in Hy.
  eapply Forall_forall in Hx; [done|]. by destruct Hy.
Qed.

(** X21.  With proper prices, in every arithmetic that obeys the order
    laws, binary64 among them: the candles that [getCandlestickData] returns
    have strictly ascending timestamps, so no two candles share a timestamp,
    and the low of every candle is at most its high. *)
Theorem getCandlestickData_low_le_high (ob : @OrderBook Ar) (side : OrderBookType)
    (product' : string) (candles : list (Candlestick Ar)) :
  (∀ e, e ∈ orders ob → num_ok (price e)) →
  getCandlestickData ob side product' = Returns candles →
  ascending (c_timestamp <$> candles) ∧
  Forall (λ c, (c_low c <= c_high c)%num = true) candles.
Proof.
  intros Hok. unfold getCandlestickData.
  destruct (for_each_candleStep ob side product' getAllTimestamps Hok [] num_zero)
    as (candles' & pc & -> & Hts & Hof & _).
  - constructor.
  - by intros [|?] ?.
  - done.
  - cbn [mbind outcome_bind]. intros [= <-]. split.
    + rewrite Hts. simpl. apply ascending_filter.
      unfold getAllTimestamps. simpl.
      repeat apply (foldl_set_insert_ascending timestamp). constructor.
    + eapply Forall_impl; [done|]. intros c. by apply candle_low_le_high.
Qed.

End CandleShape.

(** ** The amount of a sale *)

(** Comparisons of rationals as propositions. *)
Ltac q_props :=
  repeat match goal with
  | H : negb _ = true |- _ => apply negb_true_iff in H
  | H : negb _ = false |- _ => apply negb_false_iff in H
  | H : Qle_bool _ _ = true |- _ => apply Qle_bool_iff in H
  | H : Qle_bool _ _ = false |- _ =>
      apply not_true_iff_false in H; rewrite Qle_bool_iff in H; apply Qnot_le_lt in H
  | H : Qeq_bool _ _ = true |- _ => apply Qeq_bool_iff in H
  | H : Qeq_bool _ _ = false |- _ => apply Qeq_bool_neq in H
  end.

Section SaleAmount.
Context {Sort : StdSort}.
Local Abbreviation entry := (OrderBookEntry exact).

Lemma pairStep_min product' timestamp' (a b : entry) s a' b' brk :
  pairStep product' timestamp' a b = (s, a', b', brk) →
  Forall sale_min (event_of s a b).
Proof.
  unfold pairStep, qty. simpl. intros Hp.
  destruct (Qle_bool (price a) (price b)) eqn:E1.
  2:{ simplify_eq. constructor. }
  destruct (Qeq_bool (amount b) (amount a)) eqn:E2.
  { simplify_eq. repeat constructor. unfold sale_min, qty. simpl. q_props.
    rewrite Q.min_l; [reflexivity|]. rewrite E2. apply Qle_refl. }
  destruct (negb (Qle_bool (amount b) (amount a))) eqn:E3.
  { simplify_eq. repeat constructor. unfold sale_min, qty. simpl. q_props.
    rewrite Q.min_l; [reflexivity|]. by apply Qlt_le_weak. }
  destruct (negb (Qle_bool (amount b) 0)) eqn:E4.
  { simplify_eq. repeat constructor. unfold sale_min, qty. simpl. q_props.
    rewrite Q.min_r; [reflexivity|done]. }
  simplify_eq. constructor.
Qed.

Lemma scanBids_min product' timestamp' (bs : list entry) :
  ∀ a ev a' bs',
    scanBids product' timestamp' a bs = (ev, a', bs') → Forall sale_min ev.
Proof.
  induction bs as [|b bs IH]; intros a ev a' bs'; simpl.
  { intros [= <- <- <-]. constructor. }
  destruct (pairStep product' timestamp' a b) as [[[s a1] b1] brk] eqn:Hp.
  apply pairStep_min in Hp. destruct brk.
  { by intros [= <- <- <-]. }
  destruct (scanBids product' timestamp' a1 bs) as [[ev2 a2] bs2] eqn:Hscan.
  apply IH in Hscan. intros [= <- <- <-]. by apply Forall_app.
Qed.

Lemma scanAsks_min product' timestamp' (asks : list entry) :
  ∀ bs ev asks' bs',
    scanAsks product' timestamp' asks bs = (ev, asks', bs') → Forall sale_min ev.
Proof.
  induction asks as [|a asks IH]; intros bs ev asks' bs'; simpl.
  { intros [= <- <- <-]. constructor. }
  destruct (scanBids product' timestamp' a bs) as [[ev1 a1] bs1] eqn:Hb.
  apply scanBids_min in Hb.
  destruct (scanAsks product' timestamp' asks bs1) as [[ev2 asks2] bs2] eqn:Ha.
  apply IH in Ha. intros [= <- <- <-]. by apply Forall_app.
Qed.

(** X22.  Read without rounding, the amount of every sale of
    [matchAsksToBids] is the smaller of the amount that its ask and the amount
    that its bid had left when they were matched. *)
Theorem matchAsksToBids_sale_amount (ob : @OrderBook exact) (product' timestamp' : string) :
  let f := matchAsksToBids_frame ob product' timestamp' in
  (matchAsksToBids ob product' timestamp').1 = f_sales f ∧
  Forall2 (λ sale '(a, b), (qty sale == Qmin (qty a) (qty b))%Q)
          (f_sales f) (f_matched f).
Proof.
  intros f. split; [done|]. unfold f. rewrite matchAsksToBids_frame_scan. cbv zeta.
  destruct (getOrders ob ask product' timestamp'); [constructor|].
  destruct (getOrders ob bid product' timestamp'); [constructor|].
  destruct (scanAsks _ _ _ _) as [[ev asks2] bids2] eqn:Hscan. simpl.
  apply scanAsks_min in Hscan. apply Forall_events_Forall2 in Hscan.
  eapply Forall2_impl; [done|]. by intros sale [a b].
Qed.

End SaleAmount.

(** ** The statistics after a bid on a product without asks *)

Section StatsAfterBid.
Context {Ar : Arith} {Laws : OrderLaws Ar} {Sort : StdSort} {Fs : Files Ar}
        {Ps : Parse Ar}.
Local Abbreviation entry := (OrderBookEntry Ar).
Local Abbreviation MerkelMain := (@MerkelMain Ar).

(** X23.  A bid that [enterBid] places on a product for which the store has
    no ask at the current time makes the product a known one without asks:
    the behaviour of [printMarketStats] is undefined from then on, until the
    time moves. *)
Theorem printMarketStats_after_bid (m m' : MerkelMain) (line : string) :
  enterBid m line = Returns m' →
  orderBook m' ≠ orderBook m →
  (∀ p t1 t2, tokenise line "," = Returns [p; t1; t2] →
              has_orders (orderBook m) ask p (currentTime m) = false) →
  printMarketStats m' = Undefined.
Proof.
  intros Henter Hnew Hnoask.
  assert (∃ obe t1 t2,
            m' = mkMerkelMain (insertOrder (orderBook m) obe) (wallet m)
                              (products m) (currentTime m) ∧
            tokenise line "," = Returns [product obe; t1; t2] ∧
            timestamp obe = currentTime m ∧ orderType obe = bid)
    as (obe & t1 & t2 & -> & Htok & Hts & Hty).
  { revert Henter. unfold enterBid, enterOrder.
    destruct (tokenise line ",") as [tokens| |]; [|done..].
    cbn [mbind outcome_bind].
    destruct tokens as [|t0 [|t1 [|t2 [|t3 tokens]]]];
      cbn [length Nat.eqb negb vector_at lookup list_lookup mbind outcome_bind];
      try (by intros [= <-]).
    unfold stringsToOBE.
    destruct (std_stod t1) as [p| |]; cbn [mbind outcome_bind];
      [|by intros [= <-]|done].
    destruct (std_stod t2) as [q| |]; cbn [mbind outcome_bind];
      [|by intros [= <-]|done].
    destruct (canFulfillOrder _ _) as [[]| |]; cbn [mbind outcome_bind];
      [|by intros [= <-]..|done].
    intros [= <-]. by eexists _, t1, t2. }
  specialize (Hnoask _ _ _ Htok).
  pose proof (for_each_stats
                (mkMerkelMain (insertOrder (orderBook m) obe) (wallet m)
                              (products m) (currentTime m))
                (getKnownProducts (insertOrder (orderBook m) obe)) []) as Hstats.
  cbn [orderBook currentTime] in Hstats.
  unfold printMarketStats. cbn [orderBook currentTime].
  destruct (for_each _ [] _) as [out| |]; [|done..].
  destruct Hstats as [Hall _]. specialize (Hall (product obe)).
  assert (has_orders (insertOrder (orderBook m) obe) ask (product obe) (currentTime m)
          = false) as Hno.
  { unfold has_orders in *.
    destruct (getOrders (insertOrder _ _) ask _ _) as [|e l] eqn:Hget; [done|].
    assert (e ∈ getOrders (insertOrder (orderBook m) obe) ask (product obe) (currentTime m))
      as (He & Hte & Hpe & Htse)%elem_of_getOrders by (rewrite Hget; by left).
    rewrite insertOrder_perm in He. apply elem_of_app in He as [He|He].
    - assert (e ∈ getOrders (orderBook m) ask (product obe) (currentTime m)) as Hin.
      { by apply elem_of_getOrders. }
      destruct (getOrders (orderBook m) ask _ _); [by apply elem_of_nil in Hin|done].
    - apply list_elem_of_singleton in He as ->. by rewrite Hty in Hte. }
  rewrite Hall in Hno; [done|].
  rewrite getKnownProducts_set, elem_of_foldl_set_insert. right.
  exists obe. split; [|done]. rewrite insertOrder_perm. apply elem_of_app. right. by left.
Qed.

End StatsAfterBid.
(** ** What an inserted order changes *)

Section Inserted.
Context {Ar : Arith} {Sort : StdSort}.
Local Abbreviation entry := (OrderBookEntry Ar).

Lemma filter_Permutation {A} (f : A → bool) (l k : list A) :
  l ≡ₚ k → List.filter f l ≡ₚ List.filter f k.
Proof.
  induction 1 as [|x l k _ IH|x y l|l k m _ IH1 _ IH2]; simpl.
  - done.
  - destruct (f x); by rewrite IH.
  - destruct (f x), (f y); try done. apply perm_swap.
  - by rewrite IH1.
Qed.

(** X24.  [insertOrder] adds the record and nothing else: the product of
    the record joins the known products and its timestamp the timestamps of
    the store, at their places in the ascending order, and what [getOrders]
    returns for a side, product and timestamp is a rearrangement of what it
    returned before, with the record added when it is of that side, product
    and timestamp. *)
Theorem insertOrder_adds_the_record (ob : @OrderBook Ar) (order : entry) :
  let ob' := insertOrder ob order in
  getKnownProducts ob' = set_insert (product order) (getKnownProducts ob) ∧
  stored_timestamps ob' = set_insert (timestamp order) (stored_timestamps ob) ∧
  ∀ type product' timestamp',
    getOrders ob' type product' timestamp' ≡ₚ
    getOrders ob type product' timestamp'
    ++ (if bool_decide (orderType order = type)
           && String.eqb (product order) product'
           && String.eqb (timestamp order) timestamp'
        then [order] else []).
Proof.
  intros ob'. pose proof (insertOrder_perm ob order) as Hperm. fold ob' in Hperm.
  assert (∀ (key : entry → string) (o : @OrderBook Ar),
            ascending (foldl (λ s e, set_insert (key e) s) [] (orders o))) as Hasc.
  { intros key o. apply foldl_set_insert_ascending. constructor. }
  assert (∀ key : entry → string,
            foldl (λ s e, set_insert (key e) s) [] (orders ob')
            = set_insert (key order) (foldl (λ s e, set_insert (key e) s) [] (orders ob)))
    as Hkeys.
  { intros key. apply ascending_ext; [apply Hasc|apply set_insert_ascending, Hasc|].
    intros x. rewrite elem_of_set_insert, !elem_of_foldl_set_insert.
    setoid_rewrite Hperm. setoid_rewrite elem_of_app.
    setoid_rewrite list_elem_of_singleton.
    split.
    - intros [?%elem_of_nil|(e & [?| ->] & <-)]; [done| |by left].
      right. right. by exists e.
    - intros [->|[?%elem_of_nil|(e & ? & <-)]]; [|done|].
      + right. exists order. split; [by right|done].
      + right. exists e. split; [by left|done]. }
  split_and!.
  - rewrite !getKnownProducts_set. apply (Hkeys product).
  - apply (Hkeys timestamp).
  - intros type product' timestamp'. unfold getOrders.
    rewrite (filter_Permutation _ _ _ Hperm), List.filter_app. done.
Qed.

End Inserted.
(** ** The candles and the timestamps of the store *)

Section CandleTimeline.
Context {Ar : Arith} {Laws : OrderLaws Ar} {Fs : Files Ar}.
Local Abbreviation entry := (OrderBookEntry Ar).





End CandleTimeline.



(** ** The theorems on the concrete desk *)

Lemma getTradesPerProduct_counts_witness :
  (Z.of_nat (length (orders Sample.book)) ≤ INT_MAX)%Z ∧
  ∃ counts, getTradesPerProduct Sample.book = Returns counts ∧
            sum_counts counts = 3%Z.
Proof.
  split; [by vm_compute|].
  destruct (getTradesPerProduct_counts Sample.book ltac:(by vm_compute))
    as (counts & Hrun & _ & _ & _ & Hsum).
  exists counts. split; [exact Hrun|exact Hsum].
Defined.

Lemma exact_book_timestamps_long :
  ∀ e : OrderBookEntry exact, e ∈ orders Sample.exact_book →
    orderType e = ask → product e = "ETH/BTC" → (11 ≤ String.length (timestamp e))%nat.
Proof.
  intros e He _ _. repeat (apply elem_of_cons in He as [->|He]); try (vm_compute; lia).
  by apply elem_of_nil in He.
Defined.

Lemma getMeanPriceData_by_minute_witness :
  (∀ e : OrderBookEntry exact, e ∈ orders Sample.exact_book →
     orderType e = ask → product e = "ETH/BTC" → (11 ≤ String.length (timestamp e))%nat) ∧
  ∃ result,
    getMeanPriceData (Ml := Desk.exact_math) Sample.exact_book ask "ETH/BTC"
      = Returns result ∧
    ascending result.*1.
Proof.
  split; [exact exact_book_timestamps_long|].
  destruct (getMeanPriceData_by_minute (Ml := Desk.exact_math) Sample.exact_book ask
              "ETH/BTC" exact_book_timestamps_long) as (result & Hrun & Hasc & _).
  exists result. split; [exact Hrun|exact Hasc].
Defined.

Lemma getMeanPriceData_short_timestamp_witness :
  (String.length "10:00" < 11)%nat ∧
  getMeanPriceData (Ml := Desk.exact_math) Desk.short ask "ETH/BTC"
  = Throws "std::out_of_range".
Proof.
  split; [vm_compute; lia|].
  apply (getMeanPriceData_short_timestamp (Ml := Desk.exact_math) Desk.short ask "ETH/BTC"
           (@OBE exact 100%Q 1%Q "10:00" "ETH/BTC" ask)
           (list_elem_of_here _ _) eq_refl eq_refl ltac:(vm_compute; lia)).
Defined.

Lemma getAllTimestamps_stored_witness :
  (∀ e, e ∈ [Sample.first_in] →
        timestamp e ∈ getAllTimestamps (Fs := Sample.book_files)) ∧
  stored_timestamps
    (foldl (insertOrder (Sort := insertion_StdSort))
           (OrderBook_new (Sort := insertion_StdSort) (Fs := Sample.book_files)
              "20200317.csv" "20200601.csv")
           [Sample.first_in])
  = getAllTimestamps (Fs := Sample.book_files).
Proof.
  assert (∀ e, e ∈ [Sample.first_in] →
               timestamp e ∈ getAllTimestamps (Fs := Sample.book_files)) as Hnew.
  { intros e ->%list_elem_of_singleton. apply list_elem_of_here. }
  split; [exact Hnew|].
  apply (getAllTimestamps_stored (Sort := insertion_StdSort) (Fs := Sample.book_files)
           [Sample.first_in] Hnew).
Defined.

Lemma reachable_store_sorted_witness :
  reachable (Sort := insertion_StdSort) (Fs := Sample.book_files)
    (OrderBook_new (Sort := insertion_StdSort) (Fs := Sample.book_files)
       "20200317.csv" "20200601.csv") ∧
  store_sorted (OrderBook_new (Sort := insertion_StdSort) (Fs := Sample.book_files)
                  "20200317.csv" "20200601.csv").
Proof.
  split; [apply reachable_new|].
  apply (reachable_store_sorted (Sort := insertion_StdSort) (Fs := Sample.book_files)
           _ (reachable_new _ _)).
Defined.

Lemma matchAsksToBids_sale_owner_witness :
  (∀ e, e ∈ orders Sample.book → PrimFloat.is_nan (price e) = false) ∧
  ∀ sale,
    sale ∈ (matchAsksToBids (Sort := insertion_StdSort)
              Sample.book "ETH/BTC" Sample.t1).1 →
    (username sale = "dataset" ∧ orderType sale = asksale) ∨
    (username sale = "simuser" ∧
     ∃ o side, o ∈ getOrders Sample.book side "ETH/BTC" Sample.t1 ∧
               username o = "simuser" ∧
               (side = ask ∧ orderType sale = asksale ∨
                side = bid ∧ orderType sale = bidsale)).
Proof.
  split; [exact sample_book_prices_proper|].
  apply (matchAsksToBids_sale_owner (Laws := binary64_laws) (Sort := insertion_StdSort)
           Sample.book "ETH/BTC" Sample.t1 sample_book_prices_proper).
Defined.

Lemma sample_book_bids_positive :
  ∀ b, b ∈ getOrders Sample.book bid "ETH/BTC" Sample.t1 →
       PrimFloat.ltb 0 (amount b) = true.
Proof.
  intros b [Hb _]%elem_of_getOrders.
  repeat (apply elem_of_cons in Hb as [->|Hb]); try reflexivity.
  by apply elem_of_nil in Hb.
Defined.

Lemma matchAsksToBids_trades_when_crossed_witness :
  (∀ e, e ∈ orders Sample.book → PrimFloat.is_nan (price e) = false) ∧
  (∀ b, b ∈ getOrders Sample.book bid "ETH/BTC" Sample.t1 →
        PrimFloat.ltb 0 (amount b) = true) ∧
  ((matchAsksToBids (Sort := insertion_StdSort) Sample.book "ETH/BTC" Sample.t1).1 ≠ [] ↔
   ∃ a b, a ∈ getOrders Sample.book ask "ETH/BTC" Sample.t1 ∧
          b ∈ getOrders Sample.book bid "ETH/BTC" Sample.t1 ∧
          PrimFloat.leb (price a) (price b) = true).
Proof.
  split; [exact sample_book_prices_proper|]. split; [exact sample_book_bids_positive|].
  apply (matchAsksToBids_trades_when_crossed (Laws := binary64_laws)
           (Sort := insertion_StdSort) Sample.book "ETH/BTC" Sample.t1
           sample_book_prices_proper sample_book_bids_positive).
Defined.

Lemma tokenise_returns_fields_witness :
  (size "ETH/BTC,200,0.5" < 2 ^ 31)%Z ∧
  ∃ tokens, tokenise "ETH/BTC,200,0.5" "," = Returns tokens ∧
            Forall (field_ok ",") tokens.
Proof.
  split; [by vm_compute|].
  destruct (tokenise_returns_fields "ETH/BTC,200,0.5" "," ltac:(by vm_compute))
    as (tokens & Hrun & _ & Hok).
  exists tokens. split; [exact Hrun|exact Hok].
Defined.

Lemma fields_ok_ETH_BTC : Forall (field_ok ",") ["ETH/BTC"; "200"; "1"].
Proof.
  repeat constructor; try discriminate;
    apply (bool_decide_unpack _); by vm_compute.
Defined.

Lemma tokenise_join_witness :
  Forall (field_ok ",") ["ETH/BTC"; "200"; "1"] ∧
  (size (join "," ["ETH/BTC"; "200"; "1"]) < 2 ^ 31)%Z ∧
  tokenise "ETH/BTC,200,1" "," = Returns ["ETH/BTC"; "200"; "1"].
Proof.
  split; [exact fields_ok_ETH_BTC|]. split; [by vm_compute|].
  apply (tokenise_join ["ETH/BTC"; "200"; "1"] "," fields_ok_ETH_BTC ltac:(by vm_compute)).
Defined.

Lemma tokenise_stops_at_empty_field_witness :
  (∃ c, c ∈ String.list_ascii_of_string "a" ∧ c ≠ ","%char) ∧
  (size "a,,b" < 2 ^ 31)%Z ∧
  tokenise "a,,b" "," = tokenise "a" ",".
Proof.
  assert (∃ c, c ∈ String.list_ascii_of_string "a" ∧ c ≠ ","%char) as Hx.
  { exists "a"%char. split; [apply list_elem_of_here|discriminate]. }
  split; [exact Hx|]. split; [by vm_compute|].
  apply (tokenise_stops_at_empty_field "a" "b" "," Hx ltac:(by vm_compute)).
Defined.

Lemma desk_lines_short :
  Forall (λ line, (size line < 2 ^ 31)%Z)
    [ "2020/03/17 10:00:00.000000,ETH/BTC,ask,100,1";
      "2020/03/17 10:00:00.000000,ETH/BTC,bid,105,2";
      "2020/03/17 10:00:05.000000,,ask,101,1";
      "2020/03/17 10:00:05.000000,ETH/BTC,ask,dear,1" ].
Proof. repeat constructor. Defined.

Lemma readCSV_entries_witness :
  file_lines (Disk := Desk.disk) "20200317.csv"
  = Some [ "2020/03/17 10:00:00.000000,ETH/BTC,ask,100,1";
           "2020/03/17 10:00:00.000000,ETH/BTC,bid,105,2";
           "2020/03/17 10:00:05.000000,,ask,101,1";
           "2020/03/17 10:00:05.000000,ETH/BTC,ask,dear,1" ] ∧
  CSVReader_readCSV (Ps := Desk.parse) (Dk := Desk.disk) "20200317.csv"
  = Returns [ @OBE exact 100%Q 1%Q "2020/03/17 10:00:00.000000" "ETH/BTC" ask;
              @OBE exact 105%Q 2%Q "2020/03/17 10:00:00.000000" "ETH/BTC" bid ].
Proof.
  split; [reflexivity|].
  apply (readCSV_entries (Ps := Desk.parse) (Dk := Desk.disk) "20200317.csv" _
           eq_refl desk_lines_short).
Defined.

Lemma pair_ok_ETH_BTC : pair_ok "ETH/BTC" "ETH" "BTC".
Proof.
  split; [reflexivity|]. split_and!; [| |by vm_compute];
    (split; [discriminate|apply (bool_decide_unpack _); by vm_compute]).
Defined.

Lemma canFulfillOrder_pair_witness :
  pair_ok "ETH/BTC" "ETH" "BTC" ∧
  canFulfillOrder Desk.wallet
    (@OBE exact 1%Q 2%Q Sample.t1 "ETH/BTC" bid)
  = Returns (containsCurrency Desk.wallet "BTC" (2 * 1)%Q).
Proof.
  split; [exact pair_ok_ETH_BTC|].
  apply (canFulfillOrder_pair Desk.wallet
           (@OBE exact 1%Q 2%Q Sample.t1 "ETH/BTC" bid) "ETH" "BTC" pair_ok_ETH_BTC).
Defined.

Lemma processSale_pair_witness :
  pair_ok "ETH/BTC" "ETH" "BTC" ∧ "ETH" ≠ "BTC" ∧
  ∃ w', processSale Desk.wallet
          (mkOBE (Ar := exact) 1%Q 2%Q Sample.t1 "ETH/BTC" asksale "simuser")
        = Returns w' ∧
        balance_of w' "ETH" = (balance_of Desk.wallet "ETH" - 2)%Q.
Proof.
  split; [exact pair_ok_ETH_BTC|]. split; [discriminate|].
  destruct (processSale_pair Desk.wallet
              (mkOBE (Ar := exact) 1%Q 2%Q Sample.t1 "ETH/BTC" asksale "simuser")
              "ETH" "BTC" pair_ok_ETH_BTC ltac:(discriminate))
    as (w' & Hrun & _ & Hbase & _).
  exists w'. split; [exact Hrun|exact Hbase].
Defined.

Lemma desk_wallet_solvent : solvent Desk.wallet.
Proof.
  intros k b. unfold Desk.wallet. cbn [currencies map_find].
  destruct (String.eqb k "BTC"); [|discriminate].
  intros [= <-]. by vm_compute.
Defined.

Lemma wallet_stays_solvent_witness :
  solvent Desk.wallet ∧
  ∀ ok w', removeCurrency Desk.wallet "BTC" 4%Q = (ok, w') → solvent w'.
Proof.
  split; [exact desk_wallet_solvent|].
  intros ok w' Hrun.
  apply (proj2 (proj2 (wallet_stays_solvent Desk.wallet "BTC" 4%Q desk_wallet_solvent))
           ok w' Hrun).
Defined.

Lemma desk_products_pairs :
  ∀ p, p ∈ getKnownProducts (orderBook Desk.cli) → ∃ base quote, pair_ok p base quote.
Proof.
  intros p Hp. change (p ∈ ["ETH/BTC"]) in Hp.
  apply list_elem_of_singleton in Hp as ->.
  exists "ETH", "BTC". exact pair_ok_ETH_BTC.
Defined.

Lemma gotoNextTimeframe_advances_witness :
  orders (orderBook Desk.cli) ≠ [] ∧
  (∀ p, p ∈ getKnownProducts (orderBook Desk.cli) → ∃ base quote, pair_ok p base quote) ∧
  ∃ m', gotoNextTimeframe (Sort := insertion_StdSort) Desk.cli
        = Returns m'.
Proof.
  split; [discriminate|]. split; [exact desk_products_pairs|].
  apply (gotoNextTimeframe_advances (Sort := insertion_StdSort) Desk.cli
           ltac:(discriminate) desk_products_pairs).
Defined.

Lemma desk_no_user_orders :
  ∀ e : OrderBookEntry exact, e ∈ orders (orderBook Desk.cli) →
    timestamp e = currentTime Desk.cli → username e ≠ "simuser".
Proof.
  intros e He _. repeat (apply elem_of_cons in He as [->|He]); try discriminate.
  by apply elem_of_nil in He.
Defined.

Lemma gotoNextTimeframe_without_user_orders_witness :
  (∀ e : OrderBookEntry exact, e ∈ orders (orderBook Desk.cli) →
     timestamp e = currentTime Desk.cli → username e ≠ "simuser") ∧
  orders (orderBook Desk.cli) ≠ [] ∧
  ∃ t', gotoNextTimeframe (Sort := insertion_StdSort) Desk.cli
        = Returns (mkMerkelMain (orderBook Desk.cli) (wallet Desk.cli)
                                (products Desk.cli) t').
Proof.
  split; [exact desk_no_user_orders|]. split; [discriminate|].
  destruct (gotoNextTimeframe_without_user_orders (Laws := exact_laws)
              (Sort := insertion_StdSort)
              Desk.cli (λ _ _, I) desk_no_user_orders ltac:(discriminate))
    as (t' & _ & Hrun).
  exists t'. exact Hrun.
Defined.

Lemma enterOrder_effect_witness :
  ∃ m', enterAsk (Sort := insertion_StdSort) (Ps := Desk.parse) Desk.cli "BTC/USDT,2,1"
        = Returns m' ∧
        wallet m' = wallet Desk.cli.
Proof.
  destruct (enterAsk (Sort := insertion_StdSort) (Ps := Desk.parse) Desk.cli
              "BTC/USDT,2,1") as [m'| |] eqn:Hrun; [|by vm_compute in Hrun..].
  exists m'. split; [reflexivity|].
  apply (enterOrder_effect (Sort := insertion_StdSort) (Ps := Desk.parse)
           ask Desk.cli m' "BTC/USDT,2,1" Hrun).
Defined.

Lemma enterBid_without_quote_witness :
  tokenise "BTC,2,1" "," = Returns ["BTC"; "2"; "1"] ∧
  enterBid (Sort := insertion_StdSort) (Ps := Desk.parse) Desk.cli "BTC,2,1" = Undefined.
Proof.
  split; [by vm_compute|].
  apply (enterBid_without_quote (Sort := insertion_StdSort) (Ps := Desk.parse)
           Desk.cli "BTC,2,1" "BTC" "2" "1" 2%Q 1%Q
           ltac:(by vm_compute) ltac:(by vm_compute) ltac:(by vm_compute)).
  - split; [discriminate|apply (bool_decide_unpack _); by vm_compute].
  - by vm_compute.
Defined.

Lemma getCandlestickData_low_le_high_witness :
  (∀ e, e ∈ orders Sample.book → PrimFloat.is_nan (price e) = false) ∧
  ∃ candles,
    getCandlestickData (Fs := Sample.book_files) Sample.book ask "ETH/BTC"
      = Returns candles ∧
    Forall (λ c : Candlestick binary64, PrimFloat.leb (c_low c) (c_high c) = true) candles.
Proof.
  split; [exact sample_book_prices_proper|].
  destruct (getCandlestickData (Fs := Sample.book_files) Sample.book ask "ETH/BTC")
    as [candles| |] eqn:Hrun; [|by vm_compute in Hrun..].
  exists candles. split; [reflexivity|].
  apply (getCandlestickData_low_le_high (Laws := binary64_laws) (Fs := Sample.book_files)
           Sample.book ask "ETH/BTC" candles sample_book_prices_proper Hrun).
Defined.

Lemma printMarketStats_after_bid_witness :
  ∃ m', enterBid (Sort := insertion_StdSort) (Ps := Desk.parse) Desk.cli "DOGE/BTC,1,1"
        = Returns m' ∧
        printMarketStats m' = Undefined.
Proof.
  destruct (enterBid (Sort := insertion_StdSort) (Ps := Desk.parse) Desk.cli
              "DOGE/BTC,1,1") as [m'| |] eqn:Hrun; [|by vm_compute in Hrun..].
  exists m'. split; [reflexivity|].
  apply (printMarketStats_after_bid (Sort := insertion_StdSort) (Ps := Desk.parse)
           Desk.cli m' "DOGE/BTC,1,1" Hrun).
  - intros Heq. vm_compute in Hrun. injection Hrun as <-. vm_compute in Heq. discriminate.
  - intros p t1 t2 Htok. vm_compute in Htok. injection Htok as <- _ _. by vm_compute.
Defined.

Lemma exact_book_no_user_orders :
  ∀ e : OrderBookEntry exact, e ∈ orders Sample.exact_book → username e ≠ "simuser".
Proof.
  intros e He. repeat (apply elem_of_cons in He as [->|He]); try discriminate.
  by apply elem_of_nil in He.
Defined.

Lemma exact_book_sorted : store_sorted Sample.exact_book.
Proof. repeat constructor. Defined.

Lemma simulation_round_witness :
  (∀ e : OrderBookEntry exact, e ∈ orders Sample.exact_book → username e ≠ "simuser") ∧
  store_sorted Sample.exact_book ∧ orders Sample.exact_book ≠ [] ∧
  ∃ m0, MerkelMain_new Sample.exact_book Desk.wallet ["ETH/BTC"] = Returns m0 ∧
        steps (Sort := insertion_StdSort) 2 m0 = Returns ([Sample.t1; Sample.t2], m0).
Proof.
  split; [exact exact_book_no_user_orders|]. split; [exact exact_book_sorted|].
  split; [discriminate|].
  destruct (simulation_round (Laws := exact_laws) (Sort := insertion_StdSort)
              Sample.exact_book Desk.wallet ["ETH/BTC"]
              (λ _ _, I) exact_book_no_user_orders exact_book_sorted ltac:(discriminate))
    as (m0 & Hnew & _ & _ & _ & Hsteps).
  exists m0. split; [exact Hnew|exact Hsteps].
Defined.
